(** * fabric-token-sdk: a shallow embedding of the zero-knowledge token core

    The development follows the Go sources package by package:

    - [translator]: the ledger state machine that checks and commits the
      actions of a token request ([Translator.Write],
      [Translator.CommitTokenRequest]);
    - [bn256], [common]: the pairing groups as an interface, and the
      commitment and sigma-protocol helpers built on it;
    - [anonym]: the anonymous issuer's signature verifier;
    - [sigproof]: proof of knowledge of a signature with hidden and disclosed
      messages.

    Go errors are values of [result]: a function that returns [error] returns
    [Ok], [Err] or, where the Go runtime would abort the call, [Panic]. *)

From Stdlib Require Import ZArith Lia List String.
From Stdlib.Strings Require Import Byte.
From Stdlib Require Import Zmod.
From Stdlib Require PrimFloat FloatOps SpecFloat Uint63.
From stdpp Require Import base option gmap strings list pretty.

Local Open Scope Z_scope.

(** ** Go values *)

(** [[]byte]. *)
Abbreviation bytes := (list byte).

(** The outcome of a Go call that returns [(A, error)]: the value, the error
    (its message), or a run-time panic (index out of range, nil dereference,
    division by zero). *)
Inductive result (A : Type) : Type :=
| Ok (a : A)
| Err (msg : string)
| Panic (msg : string).
Arguments Ok {A} a.
Arguments Err {A} msg.
Arguments Panic {A} msg.

Definition is_Ok {A} (r : result A) : bool :=
  match r with Ok _ => true | _ => false end.

Definition is_Err {A} (r : result A) : bool :=
  match r with Err _ => true | _ => false end.

(** [errors.Wrapf(err, msg)]: the message is put in front of the cause. *)
Definition Wrapf {A} (msg : string) (r : result A) : result A :=
  match r with
  | Err e => Err (msg ++ ": " ++ e)%string
  | _ => r
  end.

(** Go's [int] is 64 bits wide on the platforms the SDK targets; sums wrap
    around in two's complement. *)
Definition wrap_int (z : Z) : Z := (z + 2 ^ 63) mod 2 ^ 64 - 2 ^ 63.
Definition int_add (a b : Z) : Z := wrap_int (a + b).

(** [len(b)] of a byte slice that may be nil. *)
Definition len (b : option bytes) : Z :=
  match b with
  | None => 0
  | Some l => Z.of_nat (length l)
  end.

(** [bytes.Equal]. *)
Definition Equal (a b : bytes) : bool :=
  bool_decide (Byte.to_N <$> a = Byte.to_N <$> b).

(** Indexing a slice: out of range is a run-time panic. *)
Definition index {A} (l : list A) (i : Z) : result A :=
  if i <? 0 then Panic "index out of range"
  else match l !! Z.to_nat i with
       | Some x => Ok x
       | None => Panic "index out of range"
       end.

(** [l[i] = x]. *)
Definition store {A} (l : list A) (i : Z) (x : A) : result (list A) :=
  if (i <? 0) || (Z.of_nat (length l) <=? i)
  then Panic "index out of range"
  else Ok (<[Z.to_nat i := x]> l).

(** [l[:n]]. *)
Definition prefix {A} (l : list A) (n : nat) : result (list A) :=
  if (length l <? n)%nat then Panic "slice bounds out of range"
  else Ok (take n l).

(** Calls that return [(A, error)] and do not touch a translator. *)
Definition rbind {A B} (r : result A) (f : A -> result B) : result B :=
  match r with
  | Ok a => f a
  | Err e => Err e
  | Panic e => Panic e
  end.

Notation "'let?' x := r 'in' k" := (rbind r (fun x => k))
  (at level 10, x name, r at level 100, k at level 200).

(** A loop that collects one value per round and leaves at the first error. *)
Fixpoint forM {A B} (l : list A) (f : A -> result B) : result (list B) :=
  match l with
  | [] => Ok []
  | x :: rest =>
      let? y := f x in
      let? ys := forM rest f in
      Ok (y :: ys)
  end.

Lemma wrap_int_small (z : Z) : - 2 ^ 63 <= z < 2 ^ 63 -> wrap_int z = z.
Proof.
  intros Hz. unfold wrap_int.
  rewrite Z.mod_small by lia. lia.
Qed.

Lemma index_lookup {A} (l : list A) (k : nat) (x : A) :
  l !! k = Some x -> index l (Z.of_nat k) = Ok x.
Proof.
  intros H. unfold index.
  destruct (Z.ltb_spec (Z.of_nat k) 0) as [?|_]; [lia|].
  rewrite Nat2Z.id, H. reflexivity.
Qed.

(** A loop whose rounds all succeed collects their values. *)
Lemma forM_Ok {A B} (l : list A) (f : A -> result B) (g : A -> B) :
  (forall x, x ∈ l -> f x = Ok (g x)) -> forM l f = Ok (g <$> l).
Proof.
  induction l as [|x l IH]; intros H; [reflexivity|].
  cbn. rewrite (H x) by left. cbn.
  rewrite IH; [reflexivity|].
  intros y Hy. apply H. right. exact Hy.
Qed.

Lemma rbind_Ok {A B} (r : result A) (f : A -> result B) (b : B) :
  rbind r f = Ok b -> exists a, r = Ok a /\ f a = Ok b.
Proof. destruct r as [a|e|e]; cbn; intros H; try discriminate H. eauto. Qed.

(** A loop that returns went through all its rounds. *)
Lemma forM_Ok_inv {A B} (l : list A) (f : A -> result B) (ys : list B) :
  forM l f = Ok ys -> Forall2 (fun x y => f x = Ok y) l ys.
Proof.
  revert ys. induction l as [|x l IH]; intros ys H; cbn in H.
  - injection H as <-. constructor.
  - apply rbind_Ok in H as (y & Hy & H).
    apply rbind_Ok in H as (ys' & Hys & [= <-]).
    constructor; [exact Hy|apply IH, Hys].
Qed.

(** ** Go's numbers: [int64], [float64] and [math.Pow]

    [float64] is the kernel's binary64.  [math.Pow] is the portable
    implementation of Go's standard library on the arguments this program
    gives it: the base is the [float64] of a [uint64] and the exponent the
    [float64] of an [int], a whole number, so that the branch of [Pow] for a
    fractional exponent is never taken.  The power is built by repeated
    squaring of the mantissa, each product rounded to 53 bits. *)
Module gomath.

Abbreviation float64 := PrimFloat.float.

(** [big.Int.Int64]: the low 64 bits, read as a signed number. *)
Definition Int64 (z : Z) : Z := wrap_int z.

(** [int64(u)] of a [uint64]. *)
Definition int64_of_uint64 (u : Z) : Z := wrap_int u.

(** [float64(u)] of a [uint64]: rounded to nearest, ties to even. *)
Definition float64_of_uint64 (u : Z) : float64 :=
  if u <? 2 ^ 63 then PrimFloat.of_uint63 (Uint63.of_Z u)
  else PrimFloat.mul
         (PrimFloat.of_uint63 (Uint63.of_Z (Z.lor (Z.shiftr u 1) (Z.land u 1))))
         PrimFloat.two.

(** [float64(i)] of an [int]. *)
Definition float64_of_int (i : Z) : float64 :=
  if i <? 0 then PrimFloat.opp (float64_of_uint64 (- i)) else float64_of_uint64 i.

(** [int64(f)]: the fraction is dropped; out of range the result is the
    processor's (on amd64 the smallest [int64]). *)
Definition int64_of_float (f : float64) : Z :=
  match FloatOps.Prim2SF f with
  | SpecFloat.S754_zero _ => 0
  | SpecFloat.S754_finite s m e =>
      let a := if 0 <=? e then Zpos m * 2 ^ e else Zpos m / 2 ^ (- e) in
      let r := if s then - a else a in
      if (- 2 ^ 63 <=? r) && (r <? 2 ^ 63) then r else - 2 ^ 63
  | _ => - 2 ^ 63
  end.

Definition half : float64 := PrimFloat.div PrimFloat.one PrimFloat.two.

(** The loop of [Pow]: [for i := int64(yi); i != 0; i >>= 1]. *)
Fixpoint pow_loop (fuel : nat) (i : Z) (x1 : float64) (xe : Z) (a1 : float64) (ae : Z)
  : float64 * Z :=
  match fuel with
  | O => (a1, ae)
  | S fuel' =>
      if i =? 0 then (a1, ae)
      else if (xe <? - 2 ^ 12) || (2 ^ 12 <? xe) then (a1, ae + xe)
      else
        let a1' := if Z.odd i then PrimFloat.mul a1 x1 else a1 in
        let ae' := if Z.odd i then ae + xe else ae in
        let x1' := PrimFloat.mul x1 x1 in
        let xe' := 2 * xe in
        let small := PrimFloat.ltb x1' half in
        let x1'' := if small then PrimFloat.add x1' x1' else x1' in
        let xe'' := if small then xe' - 1 else xe' in
        pow_loop fuel' (Z.shiftr i 1) x1'' xe'' a1' ae'
  end.

Definition Pow (x y : float64) : float64 :=
  if PrimFloat.eqb y PrimFloat.zero || PrimFloat.eqb x PrimFloat.one then PrimFloat.one
  else if PrimFloat.eqb y PrimFloat.one then x
  else if PrimFloat.eqb x PrimFloat.zero then
         if PrimFloat.ltb y PrimFloat.zero then PrimFloat.infinity else PrimFloat.zero
  else
    let yi := int64_of_float (PrimFloat.abs y) in
    let (x1, xe) := FloatOps.Z.frexp x in
    let (a1, ae) := pow_loop 64 yi x1 xe PrimFloat.one 0 in
    if PrimFloat.ltb y PrimFloat.zero
    then FloatOps.Z.ldexp (PrimFloat.div PrimFloat.one a1) (- ae)
    else FloatOps.Z.ldexp a1 ae.

(** [int64(math.Pow(float64(base), float64(exponent)))]. *)
Definition powInt (base exponent : Z) : Z :=
  int64_of_float (Pow (float64_of_uint64 base) (float64_of_int exponent)).

Lemma int64_of_float_range (f : float64) :
  - 2 ^ 63 <= int64_of_float f < 2 ^ 63.
Proof.
  unfold int64_of_float.
  destruct (FloatOps.Prim2SF f) as [s| | |s m e]; try lia.
  match goal with
  | |- context [if ?c then _ else _] => destruct c eqn:Hc
  end; [|lia].
  apply andb_prop in Hc as [H1 H2].
  apply Z.leb_le in H1. apply Z.ltb_lt in H2. lia.
Qed.

End gomath.

(** ** Package translator (token/services/vault/translator) *)
Module translator.

(** The read-write set is an interface of the host ledger.  Its operations are
    modelled as the ledger accessor of a key-value store whose calls do not
    fail: [GetState] of a key that holds nothing returns nil. *)
Record RWSet : Type := {
  state : gmap (string * string) bytes;
  metadata : gmap (string * string) (list (string * bytes))
}.

Definition emptyRWSet : RWSet := {| state := ∅; metadata := ∅ |}.

(** The actions are Go interfaces; an action is the record of what its methods
    return. *)
Module IssueAction.
Record t : Type := {
  NumOutputs : Z;
  GetSerializedOutputs : result (list bytes);
  GetIssuer : bytes
}.
End IssueAction.

Module TransferAction.
Record t : Type := {
  GetInputs : result (list string);
  IsGraphHiding : bool;
  NumOutputs : Z;
  IsRedeemAt : Z -> bool;
  SerializeOutputAt : Z -> result bytes
}.
End TransferAction.

Module SetupAction.
Record t : Type := {
  GetSetupParameters : result bytes
}.
End SetupAction.

(** What the type switches of [checkAction] and [commitAction] tell apart. *)
Inductive tokenAction : Type :=
| Issue (a : IssueAction.t)
| Transfer (a : TransferAction.t)
| Setup (a : SetupAction.t)
| Other.

(** [IssuingValidator.Validate(creator, tokenType)]. *)
Definition IssuingValidator : Type := bytes -> string -> result unit.

Record Translator : Type := {
  issuingValidator : IssuingValidator;
  rwSet : RWSet;
  TxID : string;
  counter : Z;
  namespace : string
}.

Definition New (iv : IssuingValidator) (txID : string) (rws : RWSet) (ns : string)
  : Translator :=
  {| issuingValidator := iv; rwSet := rws; TxID := txID; counter := 0;
     namespace := ns |}.

Definition with_rwSet (w : Translator) (rws : RWSet) : Translator :=
  {| issuingValidator := issuingValidator w; rwSet := rws; TxID := TxID w;
     counter := counter w; namespace := namespace w |}.

Definition with_counter (w : Translator) (c : Z) : Translator :=
  {| issuingValidator := issuingValidator w; rwSet := rwSet w; TxID := TxID w;
     counter := c; namespace := namespace w |}.

(** *** Methods run on the translator: state passing with errors

    A method of [*Translator] maps the translator before the call to its
    outcome and the translator after the call; what was written before an
    error stays written. *)
Definition M (A : Type) : Type := Translator -> result A * Translator.

Definition ret {A} (a : A) : M A := fun w => (Ok a, w).
Definition raise {A} (msg : string) : M A := fun w => (Err msg, w).
Definition lift {A} (r : result A) : M A := fun w => (r, w).
Definition bind {A B} (m : M A) (f : A -> M B) : M B :=
  fun w =>
    match m w with
    | (Ok a, w') => f a w'
    | (Err e, w') => (Err e, w')
    | (Panic e, w') => (Panic e, w')
    end.
Definition wrapM {A} (msg : string) (m : M A) : M A :=
  fun w => let (r, w') := m w in (Wrapf msg r, w').

Notation "'do' x <- m ; k" := (bind m (fun x => k))
  (at level 10, x name, m at level 100, k at level 200).
Notation "'run' m ; k" := (bind m (fun _ => k))
  (at level 10, m at level 100, k at level 200).

(** [for _, x := range l { body }], leaving at the first error. *)
Fixpoint forEach {A} (l : list A) (body : A -> M unit) : M unit :=
  match l with
  | [] => ret tt
  | x :: l' => run body x ; forEach l' body
  end.

(** [for i := 0; i < n; i++]. *)
Definition upto (n : Z) : list Z := seqZ 0 n.

(** [for i, x := range l]. *)
Fixpoint indexed_from {A} (i : Z) (l : list A) : list (Z * A) :=
  match l with
  | [] => []
  | x :: l' => (i, x) :: indexed_from (i + 1) l'
  end.

Definition indexed {A} (l : list A) : list (Z * A) := indexed_from 0 l.

Definition GetState (ns key : string) : M (option bytes) :=
  fun w => (Ok (state (rwSet w) !! (ns, key)), w).

Definition SetState (ns key : string) (value : bytes) : M unit :=
  fun w =>
    (Ok tt,
     with_rwSet w {| state := <[(ns, key) := value]> (state (rwSet w));
                     metadata := metadata (rwSet w) |}).

Definition SetStateMetadata (ns key : string) (md : list (string * bytes))
  : M unit :=
  fun w =>
    (Ok tt,
     with_rwSet w {| state := state (rwSet w);
                     metadata := <[(ns, key) := md]> (metadata (rwSet w)) |}).

Definition DeleteState (ns key : string) : M unit :=
  fun w =>
    (Ok tt,
     with_rwSet w {| state := delete (ns, key) (state (rwSet w));
                     metadata := metadata (rwSet w) |}).

Definition self : M Translator := fun w => (Ok w, w).

Definition set_counter (c : Z) : M unit := fun w => (Ok tt, with_counter w c).

Section Keys.

(** Package [keys] derives the ledger keys; it is taken as given. *)
Variable CreateTokenKey : string -> Z -> result string.
Variable CreateTokenRequestKey : string -> result string.
Variable CreateSetupKey : result string.
Variable Action : string.
Variable ActionIssue : bytes.
Variable ActionTransfer : bytes.

Definition CommitTokenRequest (raw : bytes) : M unit :=
  do w <- self ;
  match CreateTokenRequestKey (TxID w) with
  | Ok key =>
      do tr <- wrapM "failed to write token request" (GetState (namespace w) key) ;
      match tr with
      | Some _ =>
          raise "failed to write token request: token request with same ID already exists"
      | None =>
          wrapM "failed to write token request" (SetState (namespace w) key raw)
      end
  | _ => raise "can't create for token request"
  end.

Definition checkTokenDoesNotExist (index : Z) (txID : string) : M unit :=
  do w <- self ;
  do tokenKey <- lift (Wrapf "error creating output ID" (CreateTokenKey txID index)) ;
  do outputBytes <- GetState (namespace w) tokenKey ;
  if negb (len outputBytes =? 0)
  then raise ("token already exists: " ++ tokenKey)
  else ret tt.

Definition checkIssuePolicy (issue : IssueAction.t) : M unit :=
  do w <- self ;
  lift (issuingValidator w (IssueAction.GetIssuer issue) "").

Definition checkIssue (issue : IssueAction.t) : M unit :=
  run wrapM "invalid issue: verification of issue policy failed"
            (checkIssuePolicy issue) ;
  forEach (upto (IssueAction.NumOutputs issue)) (fun i =>
    do w <- self ;
    checkTokenDoesNotExist (int_add (counter w) i) (TxID w)).

Definition checkTransfer (t : TransferAction.t) : M unit :=
  do w <- self ;
  do keys <- lift (Wrapf "invalid transfer: failed getting input IDs"
                         (TransferAction.GetInputs t)) ;
  run (if negb (TransferAction.IsGraphHiding t) then
         forEach keys (fun key =>
           do bs <- wrapM "invalid transfer: failed getting state"
                          (GetState (namespace w) key) ;
           if len bs =? 0
           then raise ("invalid transfer: input is already spent " ++ key)
           else ret tt)
       else
         forEach keys (fun key =>
           do bs <- wrapM "invalid transfer: failed getting state"
                          (GetState (namespace w) key) ;
           if negb (len bs =? 0)
           then raise ("invalid transfer: input is already spent " ++ key)
           else ret tt)) ;
  forEach (upto (TransferAction.NumOutputs t)) (fun i =>
    if negb (TransferAction.IsRedeemAt t i)
    then (do w' <- self ;
          checkTokenDoesNotExist (int_add (counter w') i) (TxID w'))
    else ret tt).

Definition checkAction (a : tokenAction) : M unit :=
  match a with
  | Issue action => checkIssue action
  | Transfer action => checkTransfer action
  | Setup _ => ret tt
  | Other => raise "unknown token action"
  end.

Definition checkProcess (a : tokenAction) : M unit := checkAction a.

Definition commitSetupAction (setup : SetupAction.t) : M unit :=
  do w <- self ;
  do raw <- lift (SetupAction.GetSetupParameters setup) ;
  do setupKey <- lift CreateSetupKey ;
  SetState (namespace w) setupKey raw.

Definition commitIssueAction (issueAction : IssueAction.t) : M unit :=
  do w <- self ;
  let base := counter w in
  do outputs <- lift (IssueAction.GetSerializedOutputs issueAction) ;
  run forEach (indexed outputs) (fun '(i, output) =>
        match CreateTokenKey (TxID w) (int_add base i) with
        | Ok outputID =>
            run SetState (namespace w) outputID output ;
            SetStateMetadata (namespace w) outputID [(Action, ActionIssue)]
        | _ => raise "error creating output ID"
        end) ;
  do w' <- self ;
  set_counter (int_add (counter w') (Z.of_nat (length outputs))).

Definition spendTokens (ids : list string) (graphHiding : bool) : M unit :=
  do w <- self ;
  if negb graphHiding then
    forEach ids (fun id =>
      run DeleteState (namespace w) id ;
      SetStateMetadata (namespace w) id [])
  else
    forEach ids (fun id =>
      wrapM "failed to add serial number"
            (SetState (namespace w) id (list_byte_of_string "true"))).

Definition commitTransferAction (transferAction : TransferAction.t) : M unit :=
  do w <- self ;
  let base := counter w in
  run forEach (upto (TransferAction.NumOutputs transferAction)) (fun i =>
        if negb (TransferAction.IsRedeemAt transferAction i) then
          match CreateTokenKey (TxID w) (int_add base i) with
          | Ok outputID =>
              do bs <- lift (TransferAction.SerializeOutputAt transferAction i) ;
              run SetState (namespace w) outputID bs ;
              SetStateMetadata (namespace w) outputID [(Action, ActionTransfer)]
          | _ => raise "error creating output ID"
          end
        else ret tt) ;
  do ids <- lift (TransferAction.GetInputs transferAction) ;
  run spendTokens ids (TransferAction.IsGraphHiding transferAction) ;
  do w' <- self ;
  set_counter (int_add (counter w') (TransferAction.NumOutputs transferAction)).

Definition commitAction (a : tokenAction) : M unit :=
  match a with
  | Issue action => commitIssueAction action
  | Transfer action => commitTransferAction action
  | Setup action => commitSetupAction action
  | Other => ret tt
  end.

Definition commitProcess (a : tokenAction) : M unit := commitAction a.

Definition Write (action : tokenAction) : M unit :=
  run checkProcess action ; commitProcess action.

Definition ReadSetupParameters : M (option bytes) :=
  do w <- self ;
  do setupKey <- lift (Wrapf "failed to create setup key" CreateSetupKey) ;
  wrapM "failed to get setup parameters" (GetState (namespace w) setupKey).

(** *** The ledger as the claims about it read it *)

(** What the translator's namespace holds under a key. *)
Definition holds (w : Translator) (key : string) : option bytes :=
  state (rwSet w) !! (namespace w, key).

Definition tagged (w : Translator) (key : string) : option (list (string * bytes)) :=
  metadata (rwSet w) !! (namespace w, key).

(** A consumed input: without graph hiding its key holds nothing, with graph
    hiding its key holds the serial-number marker (anything non-empty). *)
Definition spent (graphHiding : bool) (K : string) (w : Translator) : Prop :=
  if graphHiding then len (holds w K) <> 0 else len (holds w K) = 0.

(** The action cannot derive [K] as the key of an output (or of the setup
    parameters) at the translator's running index. *)
Definition no_output_at (K : string) (w : Translator) (a : tokenAction) : Prop :=
  match a with
  | Issue _ | Transfer _ =>
      forall i, CreateTokenKey (TxID w) (int_add (counter w) i) <> Ok K
  | Setup _ => CreateSetupKey <> Ok K
  | Other => True
  end.

(** The ledger runs in one mode: later transfers hide the graph exactly when
    the one that consumed [K] did. *)
Definition same_mode (graphHiding : bool) (a : tokenAction) : Prop :=
  match a with
  | Transfer t => TransferAction.IsGraphHiding t = graphHiding
  | _ => True
  end.

(** [later gh K w w']: [w'] is reached from [w] by further calls of [Write]
    and [CommitTokenRequest] (whatever they return), none of which derives
    [K] as the key of something new. *)
Inductive later (gh : bool) (K : string) : Translator -> Translator -> Prop :=
| later_now (w : Translator) : later gh K w w
| later_Write (w w1 w2 : Translator) (a : tokenAction) (r : result unit) :
    Write a w = (r, w1) ->
    no_output_at K w a ->
    same_mode gh a ->
    later gh K w1 w2 ->
    later gh K w w2
| later_CommitTokenRequest (w w1 w2 : Translator) (raw : bytes) (r : result unit) :
    CommitTokenRequest raw w = (r, w1) ->
    CreateTokenRequestKey (TxID w) <> Ok K ->
    later gh K w1 w2 ->
    later gh K w w2.

(** One output written by the commit stage: the token under its key, and the
    tag of the action that made it. *)
Definition put (ns key : string) (value : bytes) (md : list (string * bytes))
           (w : Translator) : Translator :=
  with_rwSet w {| state := <[(ns, key) := value]> (state (rwSet w));
                  metadata := <[(ns, key) := md]> (metadata (rwSet w)) |}.

(** The outputs written by a run of the commit loop, in the order of the
    rounds; a round that writes nothing is [None]. *)
Definition puts (ns : string) (md : list (string * bytes))
           (kvs : list (option (string * bytes))) (w : Translator) : Translator :=
  foldl (fun w0 kv =>
           match kv with
           | Some (k, v) => put ns k v md w0
           | None => w0
           end) w kvs.

(** What round [(i, output)] of [commitIssueAction] writes. *)
Definition issueOutput (w : Translator) (x : Z * bytes) : option (string * bytes) :=
  match CreateTokenKey (TxID w) (int_add (counter w) (fst x)) with
  | Ok k => Some (k, snd x)
  | _ => None
  end.

(** What round [i] of [commitTransferAction] writes: nothing for a redeemed
    output. *)
Definition transferOutput (w : Translator) (t : TransferAction.t) (i : Z)
  : option (string * bytes) :=
  if negb (TransferAction.IsRedeemAt t i) then
    match CreateTokenKey (TxID w) (int_add (counter w) i),
          TransferAction.SerializeOutputAt t i with
    | Ok k, Ok bs => Some (k, bs)
    | _, _ => None
    end
  else None.

(** *** Reasoning about methods *)

Lemma bind_inv {A B} (P : Translator -> Prop) (m : M A) (f : A -> M B) (w : Translator) :
  P (snd (m w)) ->
  (forall a w1, m w = (Ok a, w1) -> P w1 -> P (snd (f a w1))) ->
  P (snd (bind m f w)).
Proof.
  unfold bind. destruct (m w) as [[a|e|e] w1]; cbn; auto.
Qed.

Lemma snd_wrapM {A} (msg : string) (m : M A) (w : Translator) :
  snd (wrapM msg m w) = snd (m w).
Proof. unfold wrapM. destruct (m w); reflexivity. Qed.

Lemma bind_Ok {A B} (m : M A) (f : A -> M B) (w w' : Translator) (b : B) :
  bind m f w = (Ok b, w') ->
  exists a w1, m w = (Ok a, w1) /\ f a w1 = (Ok b, w').
Proof.
  unfold bind. destruct (m w) as [[a|e|e] w1]; intros H; try discriminate.
  eauto.
Qed.

Lemma forEach_inv {A} (P : Translator -> Prop) (l : list A) (body : A -> M unit) :
  (forall x w, x ∈ l -> P w -> P (snd (body x w))) ->
  forall w, P w -> P (snd (forEach l body w)).
Proof.
  induction l as [|x l IH]; intros Hbody w Hw; cbn; [exact Hw|].
  apply bind_inv.
  - apply Hbody; [left|exact Hw].
  - intros _ w1 _ Hw1. apply IH; [|exact Hw1].
    intros y w2 Hy. apply Hbody. now right.
Qed.

(** A loop whose rounds, when they succeed, each apply [step]. *)
Lemma forEach_Ok_fold {A} (step : A -> Translator -> Translator)
      (l : list A) (body : A -> M unit) :
  (forall x w r w1, x ∈ l -> body x w = (Ok r, w1) -> w1 = step x w) ->
  forall w w', forEach l body w = (Ok tt, w') ->
               w' = foldl (fun w0 x => step x w0) w l.
Proof.
  induction l as [|x l IH]; intros Hbody w w' H; cbn in *.
  - unfold ret in H. congruence.
  - apply bind_Ok in H as (r & w1 & Hx & Hl).
    apply Hbody in Hx; [|left]. subst w1.
    apply IH; [|exact Hl]. intros y w2 r2 w3 Hy. apply Hbody. now right.
Qed.

Lemma forEach_Ok_all {A} (Q : A -> Prop) (l : list A) (body : A -> M unit) :
  (forall x w r w1, x ∈ l -> body x w = (Ok r, w1) -> Q x) ->
  forall w w', forEach l body w = (Ok tt, w') -> forall x, x ∈ l -> Q x.
Proof.
  induction l as [|y l IH]; intros Hbody w w' H x Hx; [inversion Hx|].
  cbn in H. apply bind_Ok in H as (r & w1 & Hy & Hl).
  apply elem_of_cons in Hx as [-> | Hx].
  - eapply Hbody; [left|exact Hy].
  - eapply IH; [|exact Hl|exact Hx].
    intros z w2 r2 w3 Hz. apply Hbody. now right.
Qed.

(** A loop of checks: no round writes, so the translator comes back as it
    was, and the loop fails as soon as one round does. *)
Lemma forEach_check_unchanged {A} (l : list A) (body : A -> M unit) :
  (forall x w, snd (body x w) = w) ->
  forall w, snd (forEach l body w) = w.
Proof.
  intros Hbody w. apply (forEach_inv (fun w' => w' = w)); [|reflexivity].
  intros x w1 _ ->. apply Hbody.
Qed.

Lemma forEach_check_fails {A} (l : list A) (body : A -> M unit) (w : Translator) (x : A) :
  (forall y w0, snd (body y w0) = w0) ->
  (forall y, y ∈ l -> fst (body y w) = Ok tt \/ is_Err (fst (body y w)) = true) ->
  x ∈ l ->
  is_Err (fst (body x w)) = true ->
  is_Err (fst (forEach l body w)) = true.
Proof.
  intros Hro. induction l as [|y l IH]; intros Hres Hx Hfail.
  - inversion Hx.
  - cbn. unfold bind.
    pose proof (Hro y w) as Hy. pose proof (Hres y ltac:(left)) as Hr.
    destruct (body y w) as [r w1] eqn:Hb; cbn in *. subst w1.
    destruct Hr as [-> | Hr].
    + apply elem_of_cons in Hx as [-> | Hx].
      * rewrite Hb in Hfail. discriminate.
      * apply IH; auto. intros z Hz. apply Hres. now right.
    + destruct r; try discriminate. reflexivity.
Qed.

(** *** The checks read, the commits write *)

Lemma checkTokenDoesNotExist_unchanged (index : Z) (txID : string) (w : Translator) :
  snd (checkTokenDoesNotExist index txID w) = w.
Proof.
  unfold checkTokenDoesNotExist, bind, self, lift, GetState, raise, ret.
  destruct (CreateTokenKey txID index) as [k|e|e]; cbn; try reflexivity.
  destruct (negb _); reflexivity.
Qed.

Lemma checkTransfer_unchanged (t : TransferAction.t) (w : Translator) :
  snd (checkTransfer t w) = w.
Proof.
  unfold checkTransfer.
  apply (bind_inv (fun w' => w' = w)); [reflexivity|]. intros w0 w1 [= <- <-] _.
  apply (bind_inv (fun w' => w' = w)).
  { unfold lift. reflexivity. }
  intros keys w1 Hk ->.
  apply (bind_inv (fun w' => w' = w)).
  - destruct (negb _); apply forEach_check_unchanged; intros key w2;
      unfold bind, wrapM, GetState, raise, ret; cbn;
      destruct (_ =? _); reflexivity.
  - intros _ w2 _ ->. apply forEach_check_unchanged. intros i w3.
    destruct (negb _); [|reflexivity].
    unfold bind, self; cbn. apply checkTokenDoesNotExist_unchanged.
Qed.

Lemma checkIssue_unchanged (issue : IssueAction.t) (w : Translator) :
  snd (checkIssue issue w) = w.
Proof.
  unfold checkIssue.
  apply (bind_inv (fun w' => w' = w)).
  - unfold wrapM, checkIssuePolicy, bind, self, lift; cbn.
    destruct (issuingValidator w (IssueAction.GetIssuer issue) ""); reflexivity.
  - intros _ w1 _ ->. apply forEach_check_unchanged. intros i w2.
    unfold bind, self; cbn. apply checkTokenDoesNotExist_unchanged.
Qed.

Lemma checkAction_unchanged (a : tokenAction) (w : Translator) :
  snd (checkAction a w) = w.
Proof.
  destruct a; cbn.
  - apply checkIssue_unchanged.
  - apply checkTransfer_unchanged.
  - reflexivity.
  - reflexivity.
Qed.

(** The invariant carried through the writes of later actions: the namespace
    stays, and [K] stays consumed. *)
Definition consumed (ns : string) (gh : bool) (K : string) (w : Translator) : Prop :=
  namespace w = ns /\ spent gh K w.

Lemma SetState_other (ns : string) (gh : bool) (K key : string) (v : bytes) (w : Translator) :
  key <> K -> consumed ns gh K w -> consumed ns gh K (snd (SetState ns key v w)).
Proof.
  intros Hne [Hns Hs]. split; [exact Hns|].
  unfold spent, holds in *; cbn. rewrite Hns in *.
  rewrite lookup_insert_ne by congruence. exact Hs.
Qed.

Lemma SetStateMetadata_consumed (ns : string) (gh : bool) (K key : string)
      (md : list (string * bytes)) (w : Translator) :
  consumed ns gh K w -> consumed ns gh K (snd (SetStateMetadata ns key md w)).
Proof. intros [Hns Hs]. split; [exact Hns|exact Hs]. Qed.

Lemma DeleteState_consumed (ns : string) (K key : string) (w : Translator) :
  consumed ns false K w -> consumed ns false K (snd (DeleteState ns key w)).
Proof.
  intros [Hns Hs]. split; [exact Hns|].
  unfold spent, holds in *; cbn. rewrite Hns in *.
  destruct (decide (key = K)) as [->|Hne].
  - rewrite lookup_delete_eq. reflexivity.
  - rewrite lookup_delete_ne by congruence. exact Hs.
Qed.

Lemma SetState_marker_consumed (ns : string) (K key : string) (w : Translator) :
  consumed ns true K w ->
  consumed ns true K (snd (SetState ns key (list_byte_of_string "true") w)).
Proof.
  intros [Hns Hs]. split; [exact Hns|].
  unfold spent, holds in *; cbn. rewrite Hns in *.
  destruct (decide (key = K)) as [->|Hne].
  - rewrite lookup_insert_eq. cbn. discriminate.
  - rewrite lookup_insert_ne by congruence. exact Hs.
Qed.

Lemma set_counter_consumed (ns : string) (gh : bool) (K : string) (c : Z) (w : Translator) :
  consumed ns gh K w -> consumed ns gh K (snd (set_counter c w)).
Proof. intros [Hns Hs]. split; [exact Hns|exact Hs]. Qed.

(** [spendTokens] keeps what is consumed consumed, in the mode it runs in. *)
Lemma spendTokens_keeps (gh : bool) (K : string) (ids : list string) (w : Translator) :
  consumed (namespace w) gh K w ->
  consumed (namespace w) gh K (snd (spendTokens ids gh w)).
Proof.
  intros Hc. unfold spendTokens.
  apply bind_inv; [exact Hc|]. intros w0 w1 [= <- <-] _.
  destruct gh; cbn.
  - apply forEach_inv; [|exact Hc]. intros id w2 _ H2.
    rewrite snd_wrapM. now apply SetState_marker_consumed.
  - apply forEach_inv; [|exact Hc]. intros id w2 _ H2.
    apply bind_inv.
    + now apply DeleteState_consumed.
    + intros _ w3 [= <-] H3. now apply SetStateMetadata_consumed.
Qed.

(** What [spendTokens] leaves under an id: nothing and an empty tag without
    graph hiding, the marker with graph hiding. *)
Definition marked (ns : string) (gh : bool) (K : string) (w : Translator) : Prop :=
  namespace w = ns
  /\ if gh then state (rwSet w) !! (ns, K) = Some (list_byte_of_string "true")
     else state (rwSet w) !! (ns, K) = None
          /\ metadata (rwSet w) !! (ns, K) = Some [].

Lemma marked_consumed (ns : string) (gh : bool) (K : string) (w : Translator) :
  marked ns gh K w -> consumed ns gh K w.
Proof.
  intros [Hns Hm]. split; [exact Hns|]. unfold spent, holds. rewrite Hns.
  destruct gh.
  - rewrite Hm. discriminate.
  - destruct Hm as [-> _]. reflexivity.
Qed.

Lemma spend_round_marked (ns : string) (gh : bool) (K id : string) (w : Translator) :
  marked ns gh K w ->
  marked ns gh K
    (snd ((if gh
           then wrapM "failed to add serial number"
                      (SetState ns id (list_byte_of_string "true"))
           else (run DeleteState ns id ; SetStateMetadata ns id [])) w)).
Proof.
  intros [Hns Hm]. unfold marked. destruct gh; cbn.
  - split; [exact Hns|]. destruct (decide (id = K)) as [->|Hne].
    + apply lookup_insert_eq.
    + rewrite lookup_insert_ne by congruence. exact Hm.
  - destruct Hm as [Hs Ht]. split; [exact Hns|]. split.
    + destruct (decide (id = K)) as [->|Hne].
      * apply lookup_delete_eq.
      * rewrite lookup_delete_ne by congruence. exact Hs.
    + destruct (decide (id = K)) as [->|Hne].
      * apply lookup_insert_eq.
      * rewrite lookup_insert_ne by congruence. exact Ht.
Qed.

Lemma spend_round_marks (ns : string) (gh : bool) (K : string) (w : Translator) :
  namespace w = ns ->
  marked ns gh K
    (snd ((if gh
           then wrapM "failed to add serial number"
                      (SetState ns K (list_byte_of_string "true"))
           else (run DeleteState ns K ; SetStateMetadata ns K [])) w)).
Proof.
  intros Hns. unfold marked. destruct gh; cbn.
  - split; [exact Hns|]. apply lookup_insert_eq.
  - split; [exact Hns|]. split; [apply lookup_delete_eq|apply lookup_insert_eq].
Qed.

(** The two loops of [spendTokens] as one, by the mode. *)
Lemma spendTokens_rounds (ids : list string) (gh : bool) (w : Translator) :
  spendTokens ids gh w =
  forEach ids (fun id =>
    if gh
    then wrapM "failed to add serial number"
               (SetState (namespace w) id (list_byte_of_string "true"))
    else (run DeleteState (namespace w) id ;
          SetStateMetadata (namespace w) id [])) w.
Proof.
  unfold spendTokens, bind at 1, self. destruct gh; reflexivity.
Qed.

Lemma spend_round_Ok (ns : string) (gh : bool) (id : string) (w : Translator) :
  fst ((if gh
        then wrapM "failed to add serial number"
                   (SetState ns id (list_byte_of_string "true"))
        else (run DeleteState ns id ; SetStateMetadata ns id [])) w) = Ok tt.
Proof. destruct gh; reflexivity. Qed.

(** [spendTokens] marks every id it is given. *)
Lemma spendTokens_marks (gh : bool) (ids : list string) (w : Translator) (K : string) :
  K ∈ ids ->
  marked (namespace w) gh K (snd (spendTokens ids gh w)).
Proof.
  rewrite spendTokens_rounds.
  remember (namespace w) as ns eqn:Hns. symmetry in Hns.
  revert w Hns. induction ids as [|id ids IH]; intros w Hns HK; [inversion HK|].
  cbn [forEach]. apply elem_of_cons in HK as [<- | HK].
  - apply bind_inv.
    + now apply spend_round_marks.
    + intros _ w1 _ H1.
      apply forEach_inv; [|exact H1]. intros id w2 _ H2.
      now apply spend_round_marked.
  - unfold bind at 1.
    pose proof (spend_round_marks ns gh id w Hns) as [Hns1 _].
    destruct gh; cbn in Hns1; now apply IH.
Qed.

Lemma spendTokens_Ok (gh : bool) (ids : list string) (w : Translator) :
  fst (spendTokens ids gh w) = Ok tt.
Proof.
  rewrite spendTokens_rounds. generalize (namespace w) as ns. intros ns.
  revert w. induction ids as [|id ids IH]; intros w; [reflexivity|].
  cbn [forEach]. unfold bind at 1.
  destruct gh; cbn; apply IH.
Qed.

(** Writing the outputs of an action keeps [K] consumed when no output key
    is [K]. *)
Lemma commitIssueAction_keeps (gh : bool) (K : string) (a : IssueAction.t) (w : Translator) :
  no_output_at K w (Issue a) ->
  consumed (namespace w) gh K w ->
  consumed (namespace w) gh K (snd (commitIssueAction a w)).
Proof.
  intros Hno Hc. unfold commitIssueAction.
  apply bind_inv; [exact Hc|]. intros w0 w1 [= <- <-] _.
  apply bind_inv; [exact Hc|]. intros outputs w1 [= _ <-] _.
  apply bind_inv.
  - apply forEach_inv; [|exact Hc]. intros [i output] w2 _ H2.
    destruct (CreateTokenKey (TxID w) (int_add (counter w) i)) as [k|e|e] eqn:Hk;
      try exact H2.
    apply bind_inv.
    + apply SetState_other; [|exact H2]. intros ->. exact (Hno i Hk).
    + intros _ w3 _ H3. now apply SetStateMetadata_consumed.
  - intros _ w2 _ H2. apply bind_inv; [exact H2|]. intros w3 w4 [= <- <-] _.
    now apply set_counter_consumed.
Qed.

Lemma commitTransferAction_outputs_keep (gh : bool) (K : string) (t : TransferAction.t)
      (w w0 : Translator) (l : list Z) :
  no_output_at K w (Transfer t) ->
  consumed (namespace w) gh K w0 ->
  consumed (namespace w) gh K
    (snd (forEach l (fun i =>
        if negb (TransferAction.IsRedeemAt t i) then
          match CreateTokenKey (TxID w) (int_add (counter w) i) with
          | Ok outputID =>
              do bs <- lift (TransferAction.SerializeOutputAt t i) ;
              run SetState (namespace w) outputID bs ;
              SetStateMetadata (namespace w) outputID [(Action, ActionTransfer)]
          | _ => raise "error creating output ID"
          end
        else ret tt) w0)).
Proof.
  intros Hno Hc. apply forEach_inv; [|exact Hc]. intros i w2 _ H2.
  destruct (negb _); [|exact H2].
  destruct (CreateTokenKey (TxID w) (int_add (counter w) i)) as [k|e|e] eqn:Hk;
    try exact H2.
  apply bind_inv.
  - unfold lift. exact H2.
  - intros bs w3 _ H3. apply bind_inv.
    + apply SetState_other; [|exact H3]. intros ->. exact (Hno i Hk).
    + intros _ w4 _ H4. now apply SetStateMetadata_consumed.
Qed.

Lemma commitTransferAction_keeps (gh : bool) (K : string) (t : TransferAction.t) (w : Translator) :
  no_output_at K w (Transfer t) ->
  TransferAction.IsGraphHiding t = gh ->
  consumed (namespace w) gh K w ->
  consumed (namespace w) gh K (snd (commitTransferAction t w)).
Proof.
  intros Hno Hgh Hc. unfold commitTransferAction.
  apply bind_inv; [exact Hc|]. intros w0 w1 [= <- <-] _.
  apply bind_inv.
  - now apply commitTransferAction_outputs_keep.
  - intros _ w2 _ H2. apply bind_inv; [exact H2|]. intros ids w3 [= _ <-] _.
    apply bind_inv.
    + rewrite Hgh. destruct H2 as [Hns H2]. rewrite <- Hns.
      apply spendTokens_keeps. rewrite Hns. now split.
    + intros _ w3 _ H3. apply bind_inv; [exact H3|]. intros w4 w5 [= <- <-] _.
      now apply set_counter_consumed.
Qed.

Lemma commitSetupAction_keeps (gh : bool) (K : string) (a : SetupAction.t) (w : Translator) :
  no_output_at K w (Setup a) ->
  consumed (namespace w) gh K w ->
  consumed (namespace w) gh K (snd (commitSetupAction a w)).
Proof.
  intros Hno Hc. unfold commitSetupAction.
  apply bind_inv; [exact Hc|]. intros w0 w1 [= <- <-] _.
  apply bind_inv; [exact Hc|]. intros raw w1 [= _ <-] _.
  apply bind_inv; [exact Hc|]. intros k w1 [= Hk <-] _.
  apply SetState_other; [|exact Hc]. intros ->. exact (Hno Hk).
Qed.

Lemma Write_keeps (gh : bool) (K : string) (a : tokenAction) (w : Translator) :
  no_output_at K w a ->
  same_mode gh a ->
  consumed (namespace w) gh K w ->
  consumed (namespace w) gh K (snd (Write a w)).
Proof.
  intros Hno Hmode Hc. unfold Write, checkProcess, commitProcess.
  apply bind_inv.
  - rewrite checkAction_unchanged. exact Hc.
  - intros u w1 Hcheck _.
    assert (w1 = w) as ->.
    { pose proof (checkAction_unchanged a w) as H. rewrite Hcheck in H. exact H. }
    destruct a as [ia|ta|sa|]; cbn [commitAction].
    + now apply commitIssueAction_keeps.
    + now apply commitTransferAction_keeps.
    + now apply commitSetupAction_keeps.
    + exact Hc.
Qed.

Lemma CommitTokenRequest_keeps (gh : bool) (K : string) (raw : bytes) (w : Translator) :
  CreateTokenRequestKey (TxID w) <> Ok K ->
  consumed (namespace w) gh K w ->
  consumed (namespace w) gh K (snd (CommitTokenRequest raw w)).
Proof.
  intros Hno Hc. unfold CommitTokenRequest.
  apply bind_inv; [exact Hc|]. intros w0 w1 [= <- <-] _.
  destruct (CreateTokenRequestKey (TxID w)) as [k|e|e] eqn:Hk; try exact Hc.
  apply bind_inv.
  - rewrite snd_wrapM. exact Hc.
  - intros tr w1 Hg _.
    assert (w1 = w) as ->.
    { pose proof (snd_wrapM "failed to write token request"
                            (GetState (namespace w) k) w) as H.
      rewrite Hg in H. exact H. }
    destruct tr; [exact Hc|].
    rewrite snd_wrapM. apply SetState_other; [|exact Hc]. intros ->. now apply Hno.
Qed.

Lemma later_keeps (gh : bool) (K : string) (w w' : Translator) :
  later gh K w w' ->
  consumed (namespace w) gh K w ->
  consumed (namespace w) gh K w'.
Proof.
  induction 1 as [w | w w1 w2 a r HW Hno Hmode _ IH
                  | w w1 w2 raw r HC Hno _ IH]; intros Hc.
  - exact Hc.
  - pose proof (Write_keeps gh K a w Hno Hmode Hc) as H1. rewrite HW in H1.
    cbn in H1. destruct H1 as [Hns1 Hs1].
    rewrite <- Hns1. apply IH. rewrite Hns1. now split.
  - pose proof (CommitTokenRequest_keeps gh K raw w Hno Hc) as H1. rewrite HC in H1.
    cbn in H1. destruct H1 as [Hns1 Hs1].
    rewrite <- Hns1. apply IH. rewrite Hns1. now split.
Qed.

Lemma commitTransferAction_outputs_namespace (t : TransferAction.t)
      (w w0 : Translator) (l : list Z) :
  namespace
    (snd (forEach l (fun i =>
        if negb (TransferAction.IsRedeemAt t i) then
          match CreateTokenKey (TxID w) (int_add (counter w) i) with
          | Ok outputID =>
              do bs <- lift (TransferAction.SerializeOutputAt t i) ;
              run SetState (namespace w) outputID bs ;
              SetStateMetadata (namespace w) outputID [(Action, ActionTransfer)]
          | _ => raise "error creating output ID"
          end
        else ret tt) w0)) = namespace w0.
Proof.
  apply (forEach_inv (fun w' => namespace w' = namespace w0)); [|reflexivity].
  intros i w1 _ H1.
  destruct (negb _); [|exact H1].
  destruct (CreateTokenKey _ _); try exact H1.
  unfold bind, lift. destruct (TransferAction.SerializeOutputAt t i); exact H1.
Qed.

(** Committing a transfer consumes each of its inputs. *)
Lemma commitTransferAction_consumes (t : TransferAction.t) (w w' : Translator)
      (ids : list string) (K : string) :
  commitTransferAction t w = (Ok tt, w') ->
  TransferAction.GetInputs t = Ok ids ->
  K ∈ ids ->
  consumed (namespace w) (TransferAction.IsGraphHiding t) K w'.
Proof.
  intros H Hids HK. unfold commitTransferAction in H.
  apply bind_Ok in H as (w0 & w1 & [= <- <-] & H).
  apply bind_Ok in H as ([] & w2 & Hloop & H).
  apply bind_Ok in H as (ids' & w3 & Hl & H).
  unfold lift in Hl. rewrite Hids in Hl. injection Hl as <- <-.
  apply bind_Ok in H as ([] & w3 & Hspend & H).
  apply bind_Ok in H as (w4 & w5 & [= <- <-] & H).
  unfold set_counter in H. injection H as <-.
  assert (Hns2 : namespace w2 = namespace w).
  { pose proof (commitTransferAction_outputs_namespace t w w
                  (upto (TransferAction.NumOutputs t))) as Hinv.
    rewrite Hloop in Hinv. exact Hinv. }
  pose proof (spendTokens_marks (TransferAction.IsGraphHiding t) ids w2 K HK) as Hc.
  rewrite Hspend, Hns2 in Hc. cbn in Hc. apply marked_consumed in Hc.
  now apply set_counter_consumed.
Qed.

(** A consumed key fails the ledger check of every transfer that lists it. *)
Lemma checkTransfer_consumed (t : TransferAction.t) (w : Translator)
      (ids : list string) (K : string) :
  TransferAction.GetInputs t = Ok ids ->
  K ∈ ids ->
  spent (TransferAction.IsGraphHiding t) K w ->
  is_Err (fst (checkTransfer t w)) = true.
Proof.
  intros Hids HK Hs. unfold checkTransfer.
  unfold bind at 1. unfold self at 1. cbv beta iota.
  unfold bind at 1. unfold lift at 1. rewrite Hids. cbv beta iota.
  cbn [Wrapf].
  assert (Hloop : is_Err (fst ((if negb (TransferAction.IsGraphHiding t) then
         forEach ids (fun key =>
           do bs <- wrapM "invalid transfer: failed getting state"
                          (GetState (namespace w) key) ;
           if len bs =? 0
           then raise ("invalid transfer: input is already spent " ++ key)
           else ret tt)
       else
         forEach ids (fun key =>
           do bs <- wrapM "invalid transfer: failed getting state"
                          (GetState (namespace w) key) ;
           if negb (len bs =? 0)
           then raise ("invalid transfer: input is already spent " ++ key)
           else ret tt)) w)) = true).
  { unfold spent, holds in Hs.
    destruct (TransferAction.IsGraphHiding t); cbn [negb].
    - apply (forEach_check_fails _ _ _ K); [| |exact HK|].
      + intros y w0. unfold bind, wrapM, GetState; cbn.
        destruct (negb _); reflexivity.
      + intros y _. unfold bind, wrapM, GetState; cbn.
        destruct (negb _); [right|left]; reflexivity.
      + unfold bind, wrapM, GetState; cbn.
        destruct (len _ =? 0) eqn:E; [|reflexivity].
        apply Z.eqb_eq in E. contradiction.
    - apply (forEach_check_fails _ _ _ K); [| |exact HK|].
      + intros y w0. unfold bind, wrapM, GetState; cbn.
        destruct (_ =? _); reflexivity.
      + intros y _. unfold bind, wrapM, GetState; cbn.
        destruct (_ =? _); [right|left]; reflexivity.
      + unfold bind, wrapM, GetState; cbn.
        rewrite Hs. reflexivity. }
  unfold bind at 1.
  match goal with
  | H : is_Err (fst ?m) = true |- _ => destruct m as [[[]|e|e] w1]
  end; cbn in Hloop; try discriminate. reflexivity.
Qed.

(** *** What a run of writes leaves in the read-write set *)

Lemma puts_cons (ns : string) (md : list (string * bytes))
      (kv : option (string * bytes)) (kvs : list (option (string * bytes)))
      (w : Translator) :
  puts ns md (kv :: kvs) w =
  puts ns md kvs (match kv with
                  | Some (k, v) => put ns k v md w
                  | None => w
                  end).
Proof. reflexivity. Qed.

Lemma puts_fields (ns : string) (md : list (string * bytes))
      (kvs : list (option (string * bytes))) (w : Translator) :
  counter (puts ns md kvs w) = counter w
  /\ namespace (puts ns md kvs w) = namespace w
  /\ TxID (puts ns md kvs w) = TxID w.
Proof.
  revert w. induction kvs as [|kv kvs IH]; intros w; [auto|].
  rewrite puts_cons. destruct (IH (match kv with
                  | Some (k, v) => put ns k v md w
                  | None => w
                  end)) as (-> & -> & ->).
  destruct kv as [[k v]|]; auto.
Qed.

(** A key that no round writes keeps what it held. *)
Lemma puts_frame (ns : string) (md : list (string * bytes))
      (kvs : list (option (string * bytes))) (w : Translator) (ns' k : string) :
  (ns' <> ns \/ forall v, Some (k, v) ∉ kvs) ->
  state (rwSet (puts ns md kvs w)) !! (ns', k) = state (rwSet w) !! (ns', k)
  /\ metadata (rwSet (puts ns md kvs w)) !! (ns', k) = metadata (rwSet w) !! (ns', k).
Proof.
  revert w. induction kvs as [|kv kvs IH]; intros w Hno; [auto|].
  rewrite puts_cons.
  assert (Hno' : ns' <> ns \/ forall v, Some (k, v) ∉ kvs).
  { destruct Hno as [Hno|Hno]; [now left|right].
    intros v Hv. apply (Hno v). now right. }
  destruct kv as [[k0 v0]|]; [|now apply IH].
  assert (Hne : (ns, k0) <> (ns', k)).
  { intros [= -> ->]. destruct Hno as [Hno|Hno]; [congruence|].
    apply (Hno v0). left. }
  destruct (IH (put ns k0 v0 md w) Hno') as [-> ->].
  cbn. now rewrite !lookup_insert_ne by exact Hne.
Qed.

(** The last round that writes a key decides what it holds. *)
Lemma puts_last (ns : string) (md : list (string * bytes))
      (l1 l2 : list (option (string * bytes))) (w : Translator) (k : string) (v : bytes) :
  (forall v', Some (k, v') ∉ l2) ->
  state (rwSet (puts ns md (l1 ++ Some (k, v) :: l2) w)) !! (ns, k) = Some v
  /\ metadata (rwSet (puts ns md (l1 ++ Some (k, v) :: l2) w)) !! (ns, k) = Some md.
Proof.
  intros Hno. unfold puts. rewrite foldl_app. cbn [foldl].
  fold (puts ns md l1 w).
  fold (puts ns md l2 (put ns k v md (puts ns md l1 w))).
  destruct (puts_frame ns md l2 (put ns k v md (puts ns md l1 w)) ns k) as [-> ->];
    [now right|].
  cbn. now rewrite !lookup_insert_eq.
Qed.

(** The rounds of [for i, x := range l], split at one of them. *)
Lemma indexed_from_split {A} (l : list A) (j : Z) (i : nat) (x : A) :
  l !! i = Some x ->
  indexed_from j l =
  indexed_from j (take i l) ++ (j + Z.of_nat i, x) :: indexed_from (j + Z.of_nat i + 1) (drop (S i) l).
Proof.
  revert j i. induction l as [|y l IH]; intros j i Hi; [discriminate|].
  destruct i as [|i]; cbn in *.
  - injection Hi as ->. now rewrite Z.add_0_r.
  - rewrite (IH (j + 1) i Hi).
    replace (j + 1 + Z.of_nat i) with (j + Z.of_nat (S i)) by lia. reflexivity.
Qed.

Lemma elem_of_indexed_from {A} (l : list A) (j j' : Z) (x : A) :
  (j', x) ∈ indexed_from j l ->
  j <= j' < j + Z.of_nat (length l) /\ l !! Z.to_nat (j' - j) = Some x.
Proof.
  revert j. induction l as [|y l IH]; intros j H; [inversion H|].
  cbn in H. apply elem_of_cons in H as [[= -> ->] | H].
  - split; [cbn; lia|]. now rewrite Z.sub_diag.
  - apply IH in H as [Hr Hl]. split; [cbn; lia|].
    replace (Z.to_nat (j' - j)) with (S (Z.to_nat (j' - (j + 1)))) by lia.
    exact Hl.
Qed.

Lemma length_indexed_from {A} (l : list A) (j : Z) :
  length (indexed_from j l) = length l.
Proof. revert j. induction l as [|y l IH]; intros j; cbn; auto. Qed.

(** The rounds of [commitIssueAction], when all of them succeed. *)
Lemma commitIssueAction_rounds (w w0 w' : Translator) (l : list (Z * bytes)) :
  forEach l (fun '(i, output) =>
        match CreateTokenKey (TxID w) (int_add (counter w) i) with
        | Ok outputID =>
            run SetState (namespace w) outputID output ;
            SetStateMetadata (namespace w) outputID [(Action, ActionIssue)]
        | _ => raise "error creating output ID"
        end) w0 = (Ok tt, w') ->
  w' = puts (namespace w) [(Action, ActionIssue)] (issueOutput w <$> l) w0
  /\ forall x, x ∈ l -> is_Some (issueOutput w x).
Proof.
  intros H. split.
  - unfold puts. rewrite foldl_fmap.
    apply (forEach_Ok_fold
             (fun x w1 => match issueOutput w x with
                          | Some (k, v) => put (namespace w) k v [(Action, ActionIssue)] w1
                          | None => w1
                          end)) in H; [exact H|].
    intros [i out] w1 r w2 _. unfold issueOutput; cbn.
    destruct (CreateTokenKey _ _); cbn; try discriminate.
    intros [= _ <-]. reflexivity.
  - eapply forEach_Ok_all; [|exact H].
    intros [i out] w1 r w2 _. unfold issueOutput; cbn.
    destruct (CreateTokenKey _ _); cbn; try discriminate. eauto.
Qed.

(** The rounds of [commitTransferAction], when all of them succeed. *)
Lemma commitTransferAction_rounds (t : TransferAction.t) (w w0 w' : Translator) (l : list Z) :
  forEach l (fun i =>
        if negb (TransferAction.IsRedeemAt t i) then
          match CreateTokenKey (TxID w) (int_add (counter w) i) with
          | Ok outputID =>
              do bs <- lift (TransferAction.SerializeOutputAt t i) ;
              run SetState (namespace w) outputID bs ;
              SetStateMetadata (namespace w) outputID [(Action, ActionTransfer)]
          | _ => raise "error creating output ID"
          end
        else ret tt) w0 = (Ok tt, w') ->
  w' = puts (namespace w) [(Action, ActionTransfer)] (transferOutput w t <$> l) w0
  /\ forall i, i ∈ l -> TransferAction.IsRedeemAt t i = false ->
               is_Some (transferOutput w t i).
Proof.
  intros H. split.
  - unfold puts. rewrite foldl_fmap.
    apply (forEach_Ok_fold
             (fun i w1 => match transferOutput w t i with
                          | Some (k, v) => put (namespace w) k v [(Action, ActionTransfer)] w1
                          | None => w1
                          end)) in H; [exact H|].
    intros i w1 r w2 _. unfold transferOutput.
    destruct (negb _); [|intros [= _ <-]; reflexivity].
    destruct (CreateTokenKey _ _); cbn; try discriminate.
    unfold bind, lift.
    destruct (TransferAction.SerializeOutputAt t i); cbn; try discriminate.
    intros [= _ <-]. reflexivity.
  - intros i Hi Hred.
    eapply (forEach_Ok_all (fun i => TransferAction.IsRedeemAt t i = false ->
                                     is_Some (transferOutput w t i)));
      [|exact H|exact Hi|exact Hred].
    intros j w1 r w2 _. unfold transferOutput. intros Hb Hj.
    rewrite Hj in *. cbn in *.
    destruct (CreateTokenKey _ _); cbn in *; try discriminate.
    unfold bind, lift in Hb.
    destruct (TransferAction.SerializeOutputAt t j); cbn in *; try discriminate.
    eauto.
Qed.

(** Ids that [spendTokens] is not given keep what they held. *)
Lemma spendTokens_frame (gh : bool) (ids : list string) (w : Translator) (ns' K : string) :
  (ns' <> namespace w \/ K ∉ ids) ->
  state (rwSet (snd (spendTokens ids gh w))) !! (ns', K) = state (rwSet w) !! (ns', K)
  /\ metadata (rwSet (snd (spendTokens ids gh w))) !! (ns', K)
     = metadata (rwSet w) !! (ns', K).
Proof.
  intros HK. rewrite spendTokens_rounds.
  apply (forEach_inv (fun w' =>
    state (rwSet w') !! (ns', K) = state (rwSet w) !! (ns', K)
    /\ metadata (rwSet w') !! (ns', K) = metadata (rwSet w) !! (ns', K))); [|auto].
  intros id w1 Hid [H1 H2].
  assert (Hne : (namespace w, id) <> (ns', K)).
  { intros [= <- ->]. destruct HK as [HK|HK]; [congruence|contradiction]. }
  destruct gh; cbn.
  - rewrite lookup_insert_ne by exact Hne. auto.
  - rewrite lookup_delete_ne, lookup_insert_ne by exact Hne. auto.
Qed.

Lemma spendTokens_fields (gh : bool) (ids : list string) (w : Translator) :
  counter (snd (spendTokens ids gh w)) = counter w
  /\ namespace (snd (spendTokens ids gh w)) = namespace w.
Proof.
  rewrite spendTokens_rounds.
  apply (forEach_inv (fun w' => counter w' = counter w /\ namespace w' = namespace w));
    [|auto].
  intros id w1 _ H1. destruct gh; exact H1.
Qed.

Lemma issueOutput_Some (w : Translator) (i : Z) (out : bytes) (k : string) (v : bytes) :
  issueOutput w (i, out) = Some (k, v) <->
  CreateTokenKey (TxID w) (int_add (counter w) i) = Ok k /\ v = out.
Proof.
  unfold issueOutput; cbn. destruct (CreateTokenKey _ _); split;
    try (intros [= <- <-]; auto); try (intros [[= <-] ->]; auto);
    try discriminate; intros [[=] _].
Qed.

Lemma transferOutput_Some (w : Translator) (t : TransferAction.t) (i : Z)
      (k : string) (v : bytes) :
  transferOutput w t i = Some (k, v) <->
  TransferAction.IsRedeemAt t i = false
  /\ CreateTokenKey (TxID w) (int_add (counter w) i) = Ok k
  /\ TransferAction.SerializeOutputAt t i = Ok v.
Proof.
  unfold transferOutput.
  destruct (TransferAction.IsRedeemAt t i); cbn; [split; [discriminate|intros [[=] _]]|].
  destruct (CreateTokenKey _ _); cbn;
    try (split; [discriminate|intros (_ & [=] & _)]).
  destruct (TransferAction.SerializeOutputAt t i); cbn;
    try (split; [discriminate|intros (_ & _ & [=])]).
  split; [intros [= <- <-]; auto|intros (_ & [= <-] & [= <-]); auto].
Qed.

(** What a committed issue leaves: each output under the key of its position
    (unless a later output of the action takes the same key), tagged as
    issued; every other key as before; the index moved by the number of
    outputs. *)
Lemma commitIssueAction_spec (a : IssueAction.t) (w w' : Translator) (outputs : list bytes) :
  commitIssueAction a w = (Ok tt, w') ->
  IssueAction.GetSerializedOutputs a = Ok outputs ->
  counter w' = int_add (counter w) (Z.of_nat (length outputs))
  /\ (forall (i : nat) (out : bytes),
        outputs !! i = Some out ->
        exists k,
          CreateTokenKey (TxID w) (int_add (counter w) (Z.of_nat i)) = Ok k
          /\ ((forall j : nat, (i < j < length outputs)%nat ->
                 CreateTokenKey (TxID w) (int_add (counter w) (Z.of_nat j)) <> Ok k) ->
              holds w' k = Some out /\ tagged w' k = Some [(Action, ActionIssue)]))
  /\ (forall ns' k,
        (ns' <> namespace w
         \/ forall j : nat, (j < length outputs)%nat ->
              CreateTokenKey (TxID w) (int_add (counter w) (Z.of_nat j)) <> Ok k) ->
        state (rwSet w') !! (ns', k) = state (rwSet w) !! (ns', k)
        /\ metadata (rwSet w') !! (ns', k) = metadata (rwSet w) !! (ns', k)).
Proof.
  intros H Hout. unfold commitIssueAction in H.
  apply bind_Ok in H as (w0 & w1 & [= <- <-] & H).
  apply bind_Ok in H as (outputs' & w1 & Hl & H).
  unfold lift in Hl. rewrite Hout in Hl. injection Hl as <- <-.
  apply bind_Ok in H as ([] & w2 & Hloop & H).
  apply bind_Ok in H as (w3 & w4 & [= <- <-] & H).
  unfold set_counter in H. injection H as <-.
  apply commitIssueAction_rounds in Hloop as [-> Hkeys].
  set (md := [(Action, ActionIssue)]) in *.
  destruct (puts_fields (namespace w) md (issueOutput w <$> indexed outputs) w)
    as (Hc & Hns & _).
  split; [cbn; now rewrite Hc|]. split.
  - intros i out Hi.
    assert (Hin : (Z.of_nat i, out) ∈ indexed outputs).
    { unfold indexed. rewrite (indexed_from_split _ 0 i out Hi).
      apply elem_of_app. right. left. }
    destruct (Hkeys _ Hin) as [[k v] Hkv].
    pose proof Hkv as Hkv'. apply issueOutput_Some in Hkv' as [Hk ->].
    exists k. split; [exact Hk|]. intros Hlater.
    unfold holds, tagged. cbn. rewrite Hns.
    unfold indexed. rewrite (indexed_from_split _ 0 i out Hi), fmap_app, fmap_cons.
    rewrite (Z.add_0_l (Z.of_nat i)), Hkv. apply puts_last.
    intros v' Hv'. apply list_elem_of_fmap in Hv' as ([j out'] & Heq & Hj).
    symmetry in Heq. apply issueOutput_Some in Heq as [Hkj _].
    apply elem_of_indexed_from in Hj as [Hr Hj].
    rewrite length_drop in Hr.
    pose proof (lookup_lt_Some _ _ _ Hi) as Hlt.
    apply (Hlater (Z.to_nat j)); [lia|]. rewrite Z2Nat.id by lia. exact Hkj.
  - intros ns' k Hno. cbn.
    apply puts_frame. destruct Hno as [Hno|Hno]; [now left|right].
    intros v Hv. apply list_elem_of_fmap in Hv as ([j out'] & Heq & Hj).
    symmetry in Heq. apply issueOutput_Some in Heq as [Hkj _].
    apply elem_of_indexed_from in Hj as [Hr Hj].
    apply (Hno (Z.to_nat j)); [lia|]. rewrite Z2Nat.id by lia. exact Hkj.
Qed.

(** What a committed transfer leaves: each output that is not redeemed under
    the key of its position, tagged as transferred; each input consumed; every
    other key as before, so that a redeemed output writes none; the index
    moved by the number of outputs, redeemed ones included. *)
Lemma commitTransferAction_spec (t : TransferAction.t) (w w' : Translator) (ids : list string) :
  commitTransferAction t w = (Ok tt, w') ->
  TransferAction.GetInputs t = Ok ids ->
  counter w' = int_add (counter w) (TransferAction.NumOutputs t)
  /\ (forall i : Z,
        0 <= i < TransferAction.NumOutputs t ->
        TransferAction.IsRedeemAt t i = false ->
        exists k bs,
          CreateTokenKey (TxID w) (int_add (counter w) i) = Ok k
          /\ TransferAction.SerializeOutputAt t i = Ok bs
          /\ (k ∉ ids ->
              (forall j : Z, i < j < TransferAction.NumOutputs t ->
                 TransferAction.IsRedeemAt t j = false ->
                 CreateTokenKey (TxID w) (int_add (counter w) j) <> Ok k) ->
              holds w' k = Some bs /\ tagged w' k = Some [(Action, ActionTransfer)]))
  /\ (forall id : string,
        id ∈ ids ->
        if TransferAction.IsGraphHiding t
        then holds w' id = Some (list_byte_of_string "true")
        else holds w' id = None /\ tagged w' id = Some [])
  /\ (forall ns' k,
        (ns' <> namespace w
         \/ ((k ∉ ids)
             /\ forall j : Z, 0 <= j < TransferAction.NumOutputs t ->
                  TransferAction.IsRedeemAt t j = false ->
                  CreateTokenKey (TxID w) (int_add (counter w) j) <> Ok k)) ->
        state (rwSet w') !! (ns', k) = state (rwSet w) !! (ns', k)
        /\ metadata (rwSet w') !! (ns', k) = metadata (rwSet w) !! (ns', k)).
Proof.
  intros H Hids. unfold commitTransferAction in H.
  apply bind_Ok in H as (w0 & w1 & [= <- <-] & H).
  apply bind_Ok in H as ([] & w2 & Hloop & H).
  apply bind_Ok in H as (ids' & w3 & Hl & H).
  unfold lift in Hl. rewrite Hids in Hl. injection Hl as <- <-.
  apply bind_Ok in H as ([] & w3 & Hspend & H).
  apply bind_Ok in H as (w4 & w5 & [= <- <-] & H).
  unfold set_counter in H. injection H as <-.
  apply commitTransferAction_rounds in Hloop as [-> Hkeys].
  set (md := [(Action, ActionTransfer)]) in *.
  set (n := TransferAction.NumOutputs t) in *.
  set (gh := TransferAction.IsGraphHiding t) in *.
  remember (puts (namespace w) md (transferOutput w t <$> upto n) w) as w2 eqn:Hw2.
  destruct (puts_fields (namespace w) md (transferOutput w t <$> upto n) w)
    as (Hc & Hns & _).
  rewrite <- Hw2 in Hc, Hns.
  destruct (spendTokens_fields gh ids w2) as [Hc3 Hns3].
  rewrite Hspend in Hc3, Hns3. cbn in Hc3, Hns3.
  split; [cbn; now rewrite Hc3, Hc|]. split; [|split].
  - intros i Hi Hred.
    assert (Hin : i ∈ upto n) by (apply elem_of_seqZ; lia).
    destruct (Hkeys i Hin Hred) as [[k bs] Hkv].
    pose proof Hkv as Hkv'. apply transferOutput_Some in Hkv' as (_ & Hk & Hbs).
    exists k, bs. split; [exact Hk|]. split; [exact Hbs|]. intros Hnotin Hlater.
    unfold holds, tagged. cbn. rewrite Hns3, Hns.
    destruct (spendTokens_frame gh ids w2 (namespace w) k) as [Hs Hm]; [now right|].
    rewrite Hspend in Hs, Hm. cbn in Hs, Hm. rewrite Hs, Hm, Hw2.
    unfold upto.
    replace n with (i + (1 + (n - i - 1))) by lia.
    rewrite seqZ_app by lia. rewrite (seqZ_app (0 + i) 1) by lia.
    rewrite !fmap_app. change (seqZ (0 + i) 1) with [0 + i].
    rewrite fmap_cons, fmap_nil. cbn [app].
    rewrite (Z.add_0_l i), Hkv. apply puts_last.
    intros v' Hv'. apply list_elem_of_fmap in Hv' as (j & Heq & Hj).
    symmetry in Heq. apply transferOutput_Some in Heq as (Hrj & Hkj & _).
    apply elem_of_seqZ in Hj. apply (Hlater j); [lia|exact Hrj|exact Hkj].
  - intros id Hid.
    pose proof (spendTokens_marks gh ids w2 id Hid) as [_ Hm].
    rewrite Hspend in Hm. cbn in Hm. rewrite Hns in Hm.
    unfold holds, tagged. cbn. rewrite Hns3, Hns. exact Hm.
  - intros ns' k Hno. cbn.
    destruct (spendTokens_frame gh ids w2 ns' k) as [Hs Hm].
    { rewrite Hns. destruct Hno as [Hno|[Hno _]]; [now left|now right]. }
    rewrite Hspend in Hs, Hm. cbn in Hs, Hm. rewrite Hs, Hm, Hw2.
    apply puts_frame. destruct Hno as [Hno|[_ Hno]]; [now left|right].
    intros v Hv. apply list_elem_of_fmap in Hv as (j & Heq & Hj).
    symmetry in Heq. apply transferOutput_Some in Heq as (Hrj & Hkj & _).
    apply elem_of_seqZ in Hj. apply (Hno j); [lia|exact Hrj|exact Hkj].
Qed.

(** *** Key assignment at commit *)

(** C8. Outputs get the keys derived from the anchor and the running index
    plus their position, in action order, and each written token carries the
    tag of its action (issue or transfer); the inputs of a transfer are
    deleted (without graph hiding) or marked (with graph hiding); no other key
    changes, so a redeemed output writes none; and the running index advances
    by the action's number of outputs, the redeemed ones included.  An output
    keeps its key unless a later output of the same action (or, for a
    transfer, one of its inputs) is derived the same key. *)
Theorem commit_assigns_output_keys (w w' : Translator) :
  (forall (a : IssueAction.t) (outputs : list bytes),
     commitIssueAction a w = (Ok tt, w') ->
     IssueAction.GetSerializedOutputs a = Ok outputs ->
     counter w' = int_add (counter w) (Z.of_nat (length outputs))
     /\ (forall (i : nat) (out : bytes),
           outputs !! i = Some out ->
           exists k,
             CreateTokenKey (TxID w) (int_add (counter w) (Z.of_nat i)) = Ok k
             /\ ((forall j : nat, (i < j < length outputs)%nat ->
                    CreateTokenKey (TxID w) (int_add (counter w) (Z.of_nat j)) <> Ok k) ->
                 holds w' k = Some out /\ tagged w' k = Some [(Action, ActionIssue)]))
     /\ (forall ns' k,
           (ns' <> namespace w
            \/ forall j : nat, (j < length outputs)%nat ->
                 CreateTokenKey (TxID w) (int_add (counter w) (Z.of_nat j)) <> Ok k) ->
           state (rwSet w') !! (ns', k) = state (rwSet w) !! (ns', k)
           /\ metadata (rwSet w') !! (ns', k) = metadata (rwSet w) !! (ns', k)))
  /\ (forall (t : TransferAction.t) (ids : list string),
        commitTransferAction t w = (Ok tt, w') ->
        TransferAction.GetInputs t = Ok ids ->
        counter w' = int_add (counter w) (TransferAction.NumOutputs t)
        /\ (forall i : Z,
              0 <= i < TransferAction.NumOutputs t ->
              TransferAction.IsRedeemAt t i = false ->
              exists k bs,
                CreateTokenKey (TxID w) (int_add (counter w) i) = Ok k
                /\ TransferAction.SerializeOutputAt t i = Ok bs
                /\ (k ∉ ids ->
                    (forall j : Z, i < j < TransferAction.NumOutputs t ->
                       TransferAction.IsRedeemAt t j = false ->
                       CreateTokenKey (TxID w) (int_add (counter w) j) <> Ok k) ->
                    holds w' k = Some bs
                    /\ tagged w' k = Some [(Action, ActionTransfer)]))
        /\ (forall id : string,
              id ∈ ids ->
              if TransferAction.IsGraphHiding t
              then holds w' id = Some (list_byte_of_string "true")
              else holds w' id = None /\ tagged w' id = Some [])
        /\ (forall ns' k,
              (ns' <> namespace w
               \/ ((k ∉ ids)
                   /\ forall j : Z, 0 <= j < TransferAction.NumOutputs t ->
                        TransferAction.IsRedeemAt t j = false ->
                        CreateTokenKey (TxID w) (int_add (counter w) j) <> Ok k)) ->
              state (rwSet w') !! (ns', k) = state (rwSet w) !! (ns', k)
              /\ metadata (rwSet w') !! (ns', k) = metadata (rwSet w) !! (ns', k))).
Proof.
  split.
  - intros a outputs. apply commitIssueAction_spec.
  - intros t ids. apply commitTransferAction_spec.
Qed.

(** *** Double spending *)

(** C3. Once a transfer that lists [K] among its inputs is committed, [K] is
    consumed (it holds nothing without graph hiding, the marker with graph
    hiding), and in every translator reached later the ledger check of a
    transfer that lists [K] fails: [checkTransfer] returns an error, and so
    does [Write], which leaves the translator untouched. *)
Theorem double_spend_rejected (t t' : TransferAction.t) (w w1 w2 : Translator)
        (ids ids' : list string) (K : string) :
  commitTransferAction t w = (Ok tt, w1) ->
  TransferAction.GetInputs t = Ok ids ->
  K ∈ ids ->
  later (TransferAction.IsGraphHiding t) K w1 w2 ->
  TransferAction.GetInputs t' = Ok ids' ->
  K ∈ ids' ->
  TransferAction.IsGraphHiding t' = TransferAction.IsGraphHiding t ->
  spent (TransferAction.IsGraphHiding t) K w1
  /\ is_Err (fst (checkTransfer t' w2)) = true
  /\ is_Err (fst (Write (Transfer t') w2)) = true
  /\ snd (Write (Transfer t') w2) = w2.
Proof.
  intros Hcommit Hids HK Hlater Hids' HK' Hmode.
  pose proof (commitTransferAction_consumes t w w1 ids K Hcommit Hids HK) as [Hns1 Hs1].
  assert (Hc2 : consumed (namespace w1) (TransferAction.IsGraphHiding t) K w2).
  { apply later_keeps; [exact Hlater|]. now split. }
  destruct Hc2 as [_ Hs2]. rewrite <- Hmode in Hs2.
  pose proof (checkTransfer_consumed t' w2 ids' K Hids' HK' Hs2) as Hcheck.
  split; [exact Hs1|]. split; [exact Hcheck|].
  unfold Write, checkProcess, commitProcess, bind. cbn [checkAction].
  pose proof (checkTransfer_unchanged t' w2) as Hsame.
  destruct (checkTransfer t' w2) as [[[]|e|e] w3]; cbn in *; try discriminate.
  now split.
Qed.

(** *** Whole-request anti-replay *)

(** C7. [CommitTokenRequest] writes the raw request under the key derived from
    the anchor exactly when that key holds nothing; the write changes that key
    and nothing else, and when the key is taken the call returns an error and
    leaves the translator (its read-write set included) as it was. *)
Theorem CommitTokenRequest_writes_once (w : Translator) (raw : bytes) (key : string) :
  CreateTokenRequestKey (TxID w) = Ok key ->
  (state (rwSet w) !! (namespace w, key) = None <->
   fst (CommitTokenRequest raw w) = Ok tt)
  /\ (fst (CommitTokenRequest raw w) = Ok tt ->
      snd (CommitTokenRequest raw w) =
      with_rwSet w {| state := <[(namespace w, key) := raw]> (state (rwSet w));
                      metadata := metadata (rwSet w) |})
  /\ (fst (CommitTokenRequest raw w) <> Ok tt ->
      is_Err (fst (CommitTokenRequest raw w)) = true
      /\ snd (CommitTokenRequest raw w) = w).
Proof.
  intros Hkey.
  unfold CommitTokenRequest, bind, self, wrapM, GetState, SetState, raise.
  rewrite Hkey; cbn.
  destruct (state (rwSet w) !! (namespace w, key)) as [old|] eqn:Hold; cbn.
  - repeat split; try discriminate; try congruence.
  - repeat split; auto; congruence.
Qed.

(** *** Setup *)

(** C10. A setup action passes the check whatever the ledger holds, and
    [Write] of it stores the setup parameters under the setup key whether or
    not that key was set before; the output counter stays as it was. *)
Theorem Write_setup_overwrites (w : Translator) (a : SetupAction.t)
        (raw : bytes) (setupKey : string) :
  checkAction (Setup a) w = (Ok tt, w)
  /\ (SetupAction.GetSetupParameters a = Ok raw ->
      CreateSetupKey = Ok setupKey ->
      Write (Setup a) w =
      (Ok tt,
       with_rwSet w {| state := <[(namespace w, setupKey) := raw]> (state (rwSet w));
                       metadata := metadata (rwSet w) |})
      /\ state (rwSet (snd (Write (Setup a) w))) !! (namespace w, setupKey) = Some raw
      /\ counter (snd (Write (Setup a) w)) = counter w).
Proof.
  split; [reflexivity|].
  intros Hraw Hkey.
  assert (HW : Write (Setup a) w =
      (Ok tt,
       with_rwSet w {| state := <[(namespace w, setupKey) := raw]> (state (rwSet w));
                       metadata := metadata (rwSet w) |})).
  { unfold Write, checkProcess, commitProcess, checkAction, commitAction,
      commitSetupAction, bind, self, lift, ret, SetState.
    rewrite Hraw, Hkey. reflexivity. }
  rewrite HW; cbn. split; [reflexivity|]. split; [|reflexivity].
  apply lookup_insert_eq.
Qed.

(** The writes change the read-write set and the counter only. *)
Definition same_anchor (w w' : Translator) : Prop :=
  TxID w' = TxID w /\ namespace w' = namespace w
  /\ issuingValidator w' = issuingValidator w.

Lemma Write_same_anchor (a : tokenAction) (w : Translator) :
  same_anchor w (snd (Write a w)).
Proof.
  assert (Hrefl : same_anchor w w) by (repeat split).
  unfold Write, checkProcess, commitProcess.
  apply bind_inv; [rewrite checkAction_unchanged; exact Hrefl|].
  intros u w1 Hcheck _.
  assert (w1 = w) as ->.
  { pose proof (checkAction_unchanged a w) as H. rewrite Hcheck in H. exact H. }
  destruct a as [ia|ta|sa|]; cbn [commitAction]; [| | |exact Hrefl].
  - unfold commitIssueAction.
    apply bind_inv; [exact Hrefl|]. intros w0 w1 [= <- <-] _.
    apply bind_inv; [exact Hrefl|]. intros outputs w1 [= _ <-] _.
    apply bind_inv.
    + apply forEach_inv; [|exact Hrefl]. intros [i output] w2 _ H2.
      destruct (CreateTokenKey (TxID w) (int_add (counter w) i)); exact H2.
    + intros _ w2 _ H2. apply bind_inv; [exact H2|]. intros w3 w4 [= <- <-] _.
      exact H2.
  - unfold commitTransferAction.
    apply bind_inv; [exact Hrefl|]. intros w0 w1 [= <- <-] _.
    apply bind_inv.
    + apply forEach_inv; [|exact Hrefl]. intros i w2 _ H2.
      destruct (negb _); [|exact H2].
      destruct (CreateTokenKey (TxID w) (int_add (counter w) i)); try exact H2.
      apply bind_inv; [exact H2|]. intros bs w3 [= _ <-] _. exact H2.
    + intros _ w2 _ H2.
      apply bind_inv; [exact H2|]. intros ids w3 [= _ <-] _.
      apply bind_inv.
      * unfold spendTokens.
        apply bind_inv; [exact H2|]. intros w4 w5 [= <- <-] _.
        destruct (negb _); apply forEach_inv; try exact H2; intros id w6 _ H6;
          exact H6.
      * intros _ w4 _ H4. apply bind_inv; [exact H4|]. intros w5 w6 [= <- <-] _.
        exact H4.
  - unfold commitSetupAction.
    apply bind_inv; [exact Hrefl|]. intros w0 w1 [= <- <-] _.
    apply bind_inv; [exact Hrefl|]. intros raw w1 [= _ <-] _.
    apply bind_inv; [exact Hrefl|]. intros k w1 [= _ <-] _.
    exact Hrefl.
Qed.

(** *** Checks come first *)

Lemma forEach_check_Ok {A} (l : list A) (body : A -> M unit) (w : Translator) :
  (forall y w0, snd (body y w0) = w0) ->
  fst (forEach l body w) = Ok tt ->
  forall x, x ∈ l -> fst (body x w) = Ok tt.
Proof.
  intros Hro. induction l as [|y l IH]; intros H x Hx; [inversion Hx|].
  cbn in H. unfold bind in H.
  pose proof (Hro y w) as Hy.
  destruct (body y w) as [[[]|e|e] w1] eqn:Hb; cbn in *; try discriminate H.
  subst w1. apply elem_of_cons in Hx as [-> | Hx].
  - rewrite Hb. reflexivity.
  - apply IH; assumption.
Qed.

Lemma Write_rejected (a : tokenAction) (w : Translator) :
  fst (checkAction a w) <> Ok tt ->
  Write a w = (fst (checkAction a w), w).
Proof.
  intros Hcheck. pose proof (checkAction_unchanged a w) as Hsame.
  unfold Write, checkProcess, commitProcess, bind.
  destruct (checkAction a w) as [[[]|e|e] w1]; cbn in *; subst w1;
    [contradiction|reflexivity|reflexivity].
Qed.

(** An action that does not pass its checks is not written: [Write] returns
    what the check returned and the translator is as it was. *)
Theorem Write_rejected_writes_nothing (a : tokenAction) (w : Translator) :
  fst (checkAction a w) <> Ok tt ->
  Write a w = (fst (checkAction a w), w).
Proof. apply Write_rejected. Qed.

(** An issue is refused when the key of one of its outputs already holds a
    token: [Write] does not return nil and writes nothing. *)
Theorem Write_issue_existing_output_refused
        (a : IssueAction.t) (w : Translator) (i : Z) (k : string) :
  0 <= i < IssueAction.NumOutputs a ->
  CreateTokenKey (TxID w) (int_add (counter w) i) = Ok k ->
  len (holds w k) <> 0 ->
  is_Ok (fst (Write (Issue a) w)) = false /\ snd (Write (Issue a) w) = w.
Proof.
  intros Hi Hk Hholds.
  assert (Hcheck : fst (checkAction (Issue a) w) <> Ok tt).
  { cbn [checkAction]. intros Hok. unfold checkIssue, bind in Hok.
    destruct (wrapM _ (checkIssuePolicy a) w) as [[[]|e|e] w1] eqn:Hpol;
      try discriminate Hok.
    assert (w1 = w) as ->.
    { pose proof (snd_wrapM "invalid issue: verification of issue policy failed"
                            (checkIssuePolicy a) w) as Hs.
      rewrite Hpol in Hs. cbn in Hs. rewrite Hs.
      unfold checkIssuePolicy, bind, self, lift; cbn. reflexivity. }
    assert (Hround := forEach_check_Ok (upto (IssueAction.NumOutputs a)) _ w
                        (fun y w0 => ltac:(unfold bind, self; cbn;
                                           apply checkTokenDoesNotExist_unchanged))
                        Hok i ltac:(apply elem_of_seqZ; lia)).
    unfold bind, self in Hround. cbn in Hround.
    unfold checkTokenDoesNotExist, bind, self, lift, GetState in Hround.
    rewrite Hk in Hround. cbn in Hround.
    unfold holds in Hholds.
    destruct (Z.eqb_spec (len (state (rwSet w) !! (namespace w, k))) 0) as [H0|_];
      [contradiction|discriminate Hround]. }
  rewrite (Write_rejected _ _ Hcheck). cbn [fst snd]. split; [|reflexivity].
  destruct (fst (checkAction (Issue a) w)) as [[]|e|e];
    [contradiction|reflexivity|reflexivity].
Qed.

(** After a setup action is written, [ReadSetupParameters] returns its
    parameters and writes nothing. *)
Theorem ReadSetupParameters_after_setup
        (w w' : Translator) (a : SetupAction.t) (raw : bytes) :
  Write (Setup a) w = (Ok tt, w') ->
  SetupAction.GetSetupParameters a = Ok raw ->
  ReadSetupParameters w' = (Ok (Some raw), w').
Proof.
  intros HW Hraw.
  unfold Write, checkProcess, commitProcess, checkAction, commitAction,
    commitSetupAction, bind, self, lift, ret, SetState in HW.
  rewrite Hraw in HW. cbn in HW.
  destruct CreateSetupKey as [k|e|e] eqn:Hkey; try discriminate HW.
  injection HW as <-.
  unfold ReadSetupParameters, bind, self, lift, wrapM, GetState.
  rewrite Hkey. cbn. rewrite lookup_insert_eq. reflexivity.
Qed.

End Keys.

(** *** Runs on a concrete ledger

    A key derivation in the manner of package [keys] (composite keys of a
    prefix, the anchor and the index), and a ledger that holds one token of an
    earlier transaction. *)
Definition demoTokenKey (txID : string) (index : Z) : result string :=
  Ok ("ztoken/" ++ txID ++ "/" ++ pretty index)%string.

Definition demoRequestKey (txID : string) : result string :=
  Ok ("token_request/" ++ txID)%string.

Definition demoSetupKey : result string := Ok "setup"%string.

Definition demoLedger : RWSet :=
  {| state := {[ ("ns", "ztoken/tx0/0")%string := [x01; x02] ]};
     metadata := {[ ("ns", "ztoken/tx0/0")%string := [("action"%string, [x69])] ]} |}.

Definition demoTranslator : Translator :=
  New (fun _ _ => Ok tt) "tx1" demoLedger "ns".

(** A transfer of the token of [tx0] to one new owner, and a redeem of it. *)
Definition demoTransfer (graphHiding : bool) : TransferAction.t :=
  {| TransferAction.GetInputs := Ok ["ztoken/tx0/0"%string];
     TransferAction.IsGraphHiding := graphHiding;
     TransferAction.NumOutputs := 2;
     TransferAction.IsRedeemAt := fun i => i =? 1;
     TransferAction.SerializeOutputAt := fun i => Ok [x0a; x0b] |}.

Definition demoIssue : IssueAction.t :=
  {| IssueAction.NumOutputs := 2;
     IssueAction.GetSerializedOutputs := Ok [[x03]; [x04]];
     IssueAction.GetIssuer := [x49] |}.

Definition demoSetup : SetupAction.t :=
  {| SetupAction.GetSetupParameters := Ok [x70; x70] |}.

Abbreviation demoCommitTransfer :=
  (commitTransferAction demoTokenKey "action" [x74]).
Abbreviation demoCommitIssue :=
  (commitIssueAction demoTokenKey "action" [x69]).
Abbreviation demoWrite :=
  (Write demoTokenKey demoSetupKey "action" [x69] [x74]).

Lemma demoTokenKey_other (index : Z) :
  demoTokenKey "tx1" index <> Ok "ztoken/tx0/0"%string.
Proof. unfold demoTokenKey. cbn. discriminate. Qed.

(** C3, on the demo ledger: the token of [tx0] is spent by a transfer, an
    issue is written after it, and the transfer submitted again fails. *)
Lemma double_spend_rejected_witness :
  let w1 := snd (demoCommitTransfer (demoTransfer false) demoTranslator) in
  let w2 := snd (demoWrite (Issue demoIssue) w1) in
  spent false "ztoken/tx0/0" w1
  /\ is_Err (fst (checkTransfer demoTokenKey (demoTransfer false) w2)) = true
  /\ is_Err (fst (demoWrite (Transfer (demoTransfer false)) w2)) = true
  /\ snd (demoWrite (Transfer (demoTransfer false)) w2) = w2.
Proof.
  cbv zeta.
  apply (double_spend_rejected demoTokenKey demoRequestKey demoSetupKey
           "action" [x69] [x74]
           (demoTransfer false) (demoTransfer false) demoTranslator
           (snd (demoCommitTransfer (demoTransfer false) demoTranslator))
           (snd (demoWrite (Issue demoIssue)
                   (snd (demoCommitTransfer (demoTransfer false) demoTranslator))))
           ["ztoken/tx0/0"%string] ["ztoken/tx0/0"%string] "ztoken/tx0/0").
  - vm_compute. reflexivity.
  - reflexivity.
  - left.
  - apply later_Write
      with (a := Issue demoIssue)
           (r := fst (demoWrite (Issue demoIssue)
                        (snd (demoCommitTransfer (demoTransfer false) demoTranslator))))
           (w1 := snd (demoWrite (Issue demoIssue)
                         (snd (demoCommitTransfer (demoTransfer false) demoTranslator)))).
    + apply surjective_pairing.
    + intros i. apply demoTokenKey_other.
    + exact I.
    + apply later_now.
  - reflexivity.
  - left.
  - reflexivity.
Defined.

(** C7, on the demo ledger: the first commit of the request writes it, the
    second is refused. *)
Lemma CommitTokenRequest_writes_once_witness :
  let w1 := snd (CommitTokenRequest demoRequestKey [x01] demoTranslator) in
  fst (CommitTokenRequest demoRequestKey [x01] demoTranslator) = Ok tt
  /\ holds w1 "token_request/tx1" = Some [x01]
  /\ is_Err (fst (CommitTokenRequest demoRequestKey [x02] w1)) = true
  /\ snd (CommitTokenRequest demoRequestKey [x02] w1) = w1.
Proof.
  cbv zeta.
  destruct (CommitTokenRequest_writes_once demoRequestKey demoTranslator [x01]
              "token_request/tx1" eq_refl) as (H1 & H2 & _).
  destruct (CommitTokenRequest_writes_once demoRequestKey
              (snd (CommitTokenRequest demoRequestKey [x01] demoTranslator)) [x02]
              "token_request/tx1" eq_refl) as (_ & _ & H3).
  split; [apply H1; reflexivity|].
  split; [rewrite H2 by (apply H1; reflexivity); reflexivity|].
  apply H3. vm_compute. discriminate.
Defined.

(** C10, on the demo ledger: setup parameters are written, and written over. *)
Lemma Write_setup_overwrites_witness :
  let w1 := snd (demoWrite (Setup demoSetup) demoTranslator) in
  demoWrite (Setup demoSetup) w1 =
  (Ok tt,
   with_rwSet w1 {| state := <[("ns", "setup")%string := [x70; x70]]> (state (rwSet w1));
                    metadata := metadata (rwSet w1) |})
  /\ state (rwSet (snd (demoWrite (Setup demoSetup) w1))) !! ("ns", "setup")%string
     = Some [x70; x70]
  /\ counter (snd (demoWrite (Setup demoSetup) w1)) = counter w1.
Proof.
  cbv zeta.
  apply (Write_setup_overwrites demoTokenKey demoSetupKey "action" [x69] [x74]
           (snd (demoWrite (Setup demoSetup) demoTranslator)) demoSetup
           [x70; x70] "setup"); reflexivity.
Defined.

(** C8, on the demo ledger: an issue of two outputs, then a transfer whose
    second output is redeemed. *)
Lemma commit_assigns_output_keys_witness :
  let wi := snd (demoCommitIssue demoIssue demoTranslator) in
  let wt := snd (demoCommitTransfer (demoTransfer false) wi) in
  (counter wi = 2
   /\ holds wi "ztoken/tx1/0" = Some [x03]
   /\ tagged wi "ztoken/tx1/0" = Some [("action"%string, [x69])])
  /\ (counter wt = 4
      /\ holds wt "ztoken/tx1/2" = Some [x0a; x0b]
      /\ tagged wt "ztoken/tx1/2" = Some [("action"%string, [x74])]
      /\ holds wt "ztoken/tx0/0" = None
      /\ holds wt "ztoken/tx1/3" = holds wi "ztoken/tx1/3").
Proof.
  cbv zeta. split.
  - destruct (commit_assigns_output_keys demoTokenKey "action" [x69] [x74]
                demoTranslator (snd (demoCommitIssue demoIssue demoTranslator)))
      as [HI _].
    destruct (HI demoIssue [[x03]; [x04]]) as (Hc & Hout & _);
      [vm_compute; reflexivity|reflexivity|].
    split; [exact Hc|].
    destruct (Hout 0%nat [x03] eq_refl) as (k & Hk & Hholds).
    injection Hk as <-. apply Hholds.
    intros j Hj. assert (j = 1%nat) as -> by (cbn in Hj; lia).
    vm_compute. discriminate.
  - destruct (commit_assigns_output_keys demoTokenKey "action" [x69] [x74]
                (snd (demoCommitIssue demoIssue demoTranslator))
                (snd (demoCommitTransfer (demoTransfer false)
                        (snd (demoCommitIssue demoIssue demoTranslator)))))
      as [_ HT].
    destruct (HT (demoTransfer false) ["ztoken/tx0/0"%string])
      as (Hc & Hout & Hin & Hframe); [vm_compute; reflexivity|reflexivity|].
    split; [exact Hc|].
    destruct (Hout 0) as (k & bs & Hk & Hbs & Hholds); [cbn; lia|reflexivity|].
    injection Hk as <-. injection Hbs as <-.
    destruct Hholds as [Hh Ht].
    { vm_compute. intros H. apply list_elem_of_singleton in H. discriminate. }
    { intros j Hj Hred. cbn in Hj, Hred. apply Z.eqb_neq in Hred. lia. }
    split; [exact Hh|]. split; [exact Ht|].
    split; [apply (Hin "ztoken/tx0/0"%string); left|].
    unfold holds. apply Hframe. right. split.
    + intros H. apply list_elem_of_singleton in H. discriminate.
    + intros j Hj Hred. cbn in Hj, Hred. apply Z.eqb_neq in Hred.
      assert (j = 0) as -> by lia. vm_compute. discriminate.
Defined.

(** A transfer whose input is not on the demo ledger. *)
Definition absentTransfer : TransferAction.t :=
  {| TransferAction.GetInputs := Ok ["ztoken/tx9/0"%string];
     TransferAction.IsGraphHiding := false;
     TransferAction.NumOutputs := 1;
     TransferAction.IsRedeemAt := fun _ => false;
     TransferAction.SerializeOutputAt := fun i => Ok [x0c] |}.

Lemma Write_rejected_writes_nothing_witness :
  demoWrite (Transfer absentTransfer) demoTranslator
  = (Err "invalid transfer: input is already spent ztoken/tx9/0", demoTranslator).
Proof.
  apply (Write_rejected_writes_nothing demoTokenKey demoSetupKey "action" [x69] [x74]
           (Transfer absentTransfer) demoTranslator).
  vm_compute. discriminate.
Defined.

(** The demo ledger read by the transaction [tx0], whose first output key is
    taken. *)
Definition replayTranslator : Translator :=
  New (fun _ _ => Ok tt) "tx0" demoLedger "ns".

Lemma Write_issue_existing_output_refused_witness :
  is_Ok (fst (demoWrite (Issue demoIssue) replayTranslator)) = false
  /\ snd (demoWrite (Issue demoIssue) replayTranslator) = replayTranslator.
Proof.
  apply (Write_issue_existing_output_refused demoTokenKey demoSetupKey "action"
           [x69] [x74] demoIssue replayTranslator 0 "ztoken/tx0/0").
  - cbn. lia.
  - vm_compute. reflexivity.
  - vm_compute. discriminate.
Defined.

Lemma ReadSetupParameters_after_setup_witness :
  ReadSetupParameters demoSetupKey
    (snd (demoWrite (Setup demoSetup) demoTranslator))
  = (Ok (Some [x70; x70]), snd (demoWrite (Setup demoSetup) demoTranslator)).
Proof.
  apply (ReadSetupParameters_after_setup demoTokenKey demoSetupKey "action"
           [x69] [x74] demoTranslator
           (snd (demoWrite (Setup demoSetup) demoTranslator)) demoSetup [x70; x70]).
  - reflexivity.
  - reflexivity.
Defined.

End translator.

(** ** Package token (token/request.go): assembling a transfer *)
Module token.

(** [view.Identity]: bytes, none when empty. *)
Abbreviation Identity := bytes.
Definition IsNone (id : Identity) : bool := (length id =? 0)%nat.

(** Package token2 (token/token): ids, tokens, quantities.  A [Quantity] is
    the number it holds; the nil interface value is [None]. *)
Record Id : Type := {
  TxId : string;
  Index : Z
}.

Record Owner : Type := {
  Raw : Identity
}.

Record Token : Type := {
  Owner_ : Owner;
  Type_ : string;
  Quantity : string
}.

Abbreviation Quantity_t := (option Z).

Definition NewQuantityFromUInt64 (v : Z) : Z := v.

(** [uint64] sums wrap around. *)
Definition uint64_add (a b : Z) : Z := (a + b) mod 2 ^ 64.

Record OwnerWallet : Type := {
  GetRecipientIdentity : result Identity;
  ID : string
}.

(** [Selector.Select(wallet, amount, type)]. *)
Definition Selector : Type :=
  OwnerWallet -> string -> string -> result (list Id * Quantity_t).

Record TransferOptions : Type := {
  Selector_ : option Selector;
  TokenIDs : list Id
}.

Definition TransferOption : Type := TransferOptions -> result TransferOptions.

Definition WithTokenSelector (selector : Selector) : TransferOption :=
  fun o => Ok {| Selector_ := Some selector; TokenIDs := TokenIDs o |}.

Definition WithTokenIDs (ids : list Id) : TransferOption :=
  fun o => Ok {| Selector_ := Selector_ o; TokenIDs := ids |}.

Fixpoint applyOptions (opts : list TransferOption) (o : TransferOptions)
  : result TransferOptions :=
  match opts with
  | [] => Ok o
  | opt :: rest => let? o' := opt o in applyOptions rest o'
  end.

Definition compileTransferOptions (opts : list TransferOption) : result TransferOptions :=
  applyOptions opts {| Selector_ := None; TokenIDs := [] |}.

Section Services.

(** What the request consumes of the token service: the vault's query
    engine, the certification client, the selector manager, and the quantity
    encoding of package token2 ([None] is the call's error). *)
Variable GetTokens : list Id -> result (list Token).
Variable RequestCertification : list Id -> result unit.
Variable NewSelector : string -> result Selector.
Variable ToQuantity : string -> Z -> option Z.
Variable Decimal : Z -> string.

(** The loop of [parseInputIDs].  Where the types differ it returns
    [errors.WithMessagef(err, ...)] with the [err] of [GetTokens], which is
    nil at that point: the function returns nil values and a nil error. *)
Fixpoint parseTokens (inputs : list Id) (inputTokens : list Token) (typ : string) (sum : Z)
  : result (list Id * Quantity_t * string) :=
  match inputTokens with
  | [] => Ok (inputs, Some sum, typ)
  | tok :: rest =>
      let typ := if (String.length typ =? 0)%nat then Type_ tok else typ in
      if negb (String.eqb typ (Type_ tok)) then Ok ([], None, ""%string)
      else
        match ToQuantity (Quantity tok) 65 with
        | None => Err "failed unmarshalling token quantity"
        | Some q => parseTokens inputs rest typ (sum + q)
        end
  end.

Definition parseInputIDs (inputs : list Id) : result (list Id * Quantity_t * string) :=
  let? inputTokens := Wrapf "failed querying tokens ids" (GetTokens inputs) in
  parseTokens inputs inputTokens "" (NewQuantityFromUInt64 0).

(** [for _, owner := range owners]. *)
Fixpoint checkOwners (redeem : bool) (owners : list Identity) : result unit :=
  match owners with
  | [] => Ok tt
  | owner :: rest =>
      if redeem then
        if negb (IsNone owner) then Err "all recipients must be nil"
        else checkOwners redeem rest
      else
        if IsNone owner then Err "all recipients should be defined"
        else checkOwners redeem rest
  end.

(** [for i, value := range values]: the sum of the values and the tokens. *)
Fixpoint outputs (typ : string) (values : list Z) (owners : list Identity) (i : Z)
         (outputSum : Z) (outputTokens : list Token) : result (Z * list Token) :=
  match values with
  | [] => Ok (outputSum, outputTokens)
  | value :: rest =>
      let outputSum := uint64_add outputSum value in
      let? owner := index owners i in
      outputs typ rest owners (i + 1) outputSum
              (outputTokens ++ [{| Owner_ := {| Raw := owner |}; Type_ := typ;
                                   Quantity := Decimal (NewQuantityFromUInt64 value) |}])
  end.

(** [q.Cmp(r)] on a receiver that may be the nil interface. *)
Definition Cmp (q : Quantity_t) (r : Z) : result comparison :=
  match q with
  | Some a => Ok (a ?= r)
  | None => Panic "invalid memory address or nil pointer dereference"
  end.

Definition prepareTransfer (txID : string) (redeem : bool) (wallet : OwnerWallet)
           (typ : string) (values : list Z) (owners : list Identity)
           (opts : list TransferOption) : result (list Id * list Token) :=
  let? transferOpts := Wrapf "failed compiling transfer options"
                             (compileTransferOptions opts) in
  let? _ := checkOwners redeem owners in
  (* if inputs have been passed, parse and certify them *)
  let? parsed :=
    if negb (length (TokenIDs transferOpts) =? 0)%nat then
      let? r := Wrapf "failed parsing passed input tokens"
                      (parseInputIDs (TokenIDs transferOpts)) in
      let? _ := Wrapf "failed certifiying inputs"
                      (RequestCertification (fst (fst r))) in
      Ok r
    else Ok ([], None, typ) in
  let tokenIDs := fst (fst parsed) in
  let inputSum := snd (fst parsed) in
  let typ := snd parsed in
  (* compute output tokens *)
  let? out := outputs typ values owners 0 0 [] in
  let outputSum := fst out in
  let outputTokens := snd out in
  let qOutputSum := NewQuantityFromUInt64 outputSum in
  (* select input tokens, if not passed as opt *)
  let? selected :=
    if (length (TokenIDs transferOpts) =? 0)%nat then
      let? selector :=
        match Selector_ transferOpts with
        | Some selector => Ok selector
        | None => Wrapf "failed getting default selector" (NewSelector txID)
        end in
      Wrapf "failed selecting tokens"
            (selector wallet (Decimal (NewQuantityFromUInt64 outputSum)) typ)
    else Ok (tokenIDs, inputSum) in
  let tokenIDs := fst selected in
  let inputSum := snd selected in
  (* is there a rest? *)
  let? c := Cmp inputSum qOutputSum in
  match c, inputSum with
  | Gt, Some a =>
      let diff := a - qOutputSum in
      let? pseudonym := Wrapf "failed getting recipient identity for the rest"
                              (GetRecipientIdentity wallet) in
      Ok (tokenIDs,
          outputTokens ++ [{| Owner_ := {| Raw := pseudonym |}; Type_ := typ;
                              Quantity := Decimal diff |}])
  | _, _ => Ok (tokenIDs, outputTokens)
  end.

(** [Request.Transfer]: the driver ([TokenService.tms]) is handed what
    [prepareTransfer] returns; it builds the action and its proofs. *)
Record TokenRequest : Type := {
  Issues : list bytes;
  Transfers : list bytes;
  Signatures : list bytes;
  AuditorSignature : bytes
}.

Record Request (Metadata : Type) : Type := {
  TxID : string;
  Actions : TokenRequest;
  Metadata_Transfers : list Metadata
}.
Arguments TxID {Metadata}.
Arguments Actions {Metadata}.
Arguments Metadata_Transfers {Metadata}.

Section Driver.
Variable Action : Type.
Variable Metadata : Type.
Variable tms_Transfer :
  string -> OwnerWallet -> list Id -> list Token -> result (Action * Metadata).
Variable tms_VerifyTransfer : Action -> Metadata -> result unit.
Variable Serialize : Action -> result bytes.

Definition Transfer (t : Request Metadata) (wallet : OwnerWallet) (typ : string)
           (values : list Z) (owners : list Identity) (opts : list TransferOption)
  : result (Request Metadata * Action) :=
  let? prepared := Wrapf "failed preparing transfer"
                         (prepareTransfer (TxID t) false wallet typ values owners opts) in
  let? tm := Wrapf "failed creating transfer action"
                   (tms_Transfer (TxID t) wallet (fst prepared) (snd prepared)) in
  let? _ := Wrapf "failed checking generated proof"
                  (tms_VerifyTransfer (fst tm) (snd tm)) in
  let? raw := Wrapf "failed serializing transfer action" (Serialize (fst tm)) in
  Ok ({| TxID := TxID t;
         Actions := {| Issues := Issues (Actions t);
                       Transfers := Transfers (Actions t) ++ [raw];
                       Signatures := Signatures (Actions t);
                       AuditorSignature := AuditorSignature (Actions t) |};
         Metadata_Transfers := Metadata_Transfers t ++ [snd tm] |},
      fst tm).

End Driver.

(** The output tokens asked for, in order. *)
Definition requested (typ : string) (values : list Z) (owners : list Identity) : list Token :=
  (fun vo => {| Owner_ := {| Raw := snd vo |}; Type_ := typ;
                Quantity := Decimal (fst vo) |}) <$> zip values owners.

(** [outputSum] after the loop: the sum of the values modulo [2^64]. *)
Definition sum64 (values : list Z) : Z := foldl uint64_add 0 values.

(** The value of the output added for the sender when the inputs exceed the
    outputs. *)
Definition change (typ : string) (pseudonym : Identity) (diff : Z) : Token :=
  {| Owner_ := {| Raw := pseudonym |}; Type_ := typ; Quantity := Decimal diff |}.

Lemma outputs_spec (typ : string) (values : list Z) (owners : list Identity)
      (i : nat) (outputSum : Z) (outputTokens : list Token) :
  (i + length values <= length owners)%nat ->
  outputs typ values owners (Z.of_nat i) outputSum outputTokens =
  Ok (foldl uint64_add outputSum values,
      outputTokens ++ requested typ values (drop i owners)).
Proof.
  revert i outputSum outputTokens.
  induction values as [|value rest IH]; intros i outputSum outputTokens Hlen.
  - cbn. unfold requested. cbn. now rewrite app_nil_r.
  - cbn [outputs length] in *.
    unfold index. destruct (Z.ltb_spec (Z.of_nat i) 0) as [Hneg|_]; [lia|].
    rewrite Nat2Z.id.
    destruct (owners !! i) as [owner|] eqn:Ho.
    2: { apply lookup_ge_None in Ho. lia. }
    cbn [rbind].
    replace (Z.of_nat i + 1) with (Z.of_nat (S i)) by lia.
    rewrite IH by lia. rewrite <- app_assoc. cbn [foldl app].
    rewrite (drop_S _ _ _ Ho). reflexivity.
Qed.

(** A sum that does not reach [2^64] is the sum. *)
Lemma sum64_exact (values : list Z) :
  Forall (fun v => 0 <= v) values ->
  foldr Z.add 0 values < 2 ^ 64 ->
  sum64 values = foldr Z.add 0 values.
Proof.
  unfold sum64. intros Hpos Hlt.
  assert (H : forall acc, 0 <= acc -> acc + foldr Z.add 0 values < 2 ^ 64 ->
                          foldl uint64_add acc values = acc + foldr Z.add 0 values).
  { clear Hlt. induction Hpos as [|v rest Hv Hrest IH]; intros acc Hacc Hlt; cbn in *.
    - lia.
    - assert (0 <= foldr Z.add 0 rest).
      { clear -Hrest. induction Hrest; cbn; lia. }
      unfold uint64_add at 2. rewrite Z.mod_small by lia.
      rewrite IH by lia. lia. }
  rewrite H by lia. lia.
Qed.

(** *** Conservation before proving *)

(** C2, as the code has it.  For inputs passed by id that parse to one type
    and a sum, with recipients that pass the check and a certification that
    succeeds, [prepareTransfer] refuses nothing on account of the sums: it
    returns the requested outputs, in the inputs' type, and, when the inputs
    exceed the outputs, one more output of the difference for the sender (or
    the error of the wallet that cannot name the sender).  With the change the
    outputs total the inputs; outputs that exceed the inputs are returned as
    they are. *)
Theorem prepareTransfer_balances_by_change
        (txID : string) (redeem : bool) (wallet : OwnerWallet) (typ : string)
        (values : list Z) (owners : list Identity) (opts : list TransferOption)
        (transferOpts : TransferOptions) (ids : list Id) (inputSum : Z) (typ' : string) :
  compileTransferOptions opts = Ok transferOpts ->
  TokenIDs transferOpts <> [] ->
  checkOwners redeem owners = Ok tt ->
  parseInputIDs (TokenIDs transferOpts) = Ok (ids, Some inputSum, typ') ->
  RequestCertification ids = Ok tt ->
  (length values <= length owners)%nat ->
  prepareTransfer txID redeem wallet typ values owners opts =
  (if inputSum >? sum64 values then
     let? pseudonym := Wrapf "failed getting recipient identity for the rest"
                             (GetRecipientIdentity wallet) in
     Ok (ids, requested typ' values owners
              ++ [change typ' pseudonym (inputSum - sum64 values)])
   else Ok (ids, requested typ' values owners))
  /\ (Forall (fun v => 0 <= v) values ->
      foldr Z.add 0 values < 2 ^ 64 ->
      foldr Z.add 0 values <= inputSum ->
      foldr Z.add 0 (values ++ [inputSum - sum64 values]) = inputSum).
Proof.
  intros Hopts Hids Howners Hparse Hcert Hlen. split.
  - unfold prepareTransfer. rewrite Hopts, Howners. cbn [Wrapf rbind].
    destruct (TokenIDs transferOpts) as [|id0 rest] eqn:Hti; [contradiction|].
    cbn [length Nat.eqb negb].
    rewrite Hparse. cbn [Wrapf rbind fst snd]. rewrite Hcert.
    cbn [Wrapf rbind fst snd].
    change 0 with (Z.of_nat 0) at 1.
    rewrite (outputs_spec typ' values owners 0 0 []) by (cbn; lia).
    cbn [rbind fst snd app drop length Nat.eqb Cmp].
    fold (sum64 values). unfold NewQuantityFromUInt64, change.
    unfold Z.gtb. destruct (inputSum ?= sum64 values); cbn; reflexivity.
  - intros Hpos Hlt Hle. rewrite sum64_exact by assumption.
    rewrite foldr_app. cbn.
    assert (H : forall l acc, foldr Z.add acc l = foldr Z.add 0 l + acc).
    { induction l as [|x l IH]; intros acc; cbn; [lia|]. rewrite IH. lia. }
    rewrite H. lia.
Qed.

(** *** The other paths of [prepareTransfer] *)

(** The loop over the owners stops at the first one of the wrong kind. *)
Lemma checkOwners_refuses (redeem : bool) (owners : list Identity) :
  Exists (fun owner => IsNone owner = negb redeem) owners ->
  checkOwners redeem owners =
  Err (if redeem then "all recipients must be nil"
       else "all recipients should be defined").
Proof.
  induction 1 as [owner rest Hbad|owner rest _ IH].
  - cbn. rewrite Hbad. destruct redeem; reflexivity.
  - cbn. rewrite IH.
    destruct redeem, (IsNone owner); reflexivity.
Qed.

(** [owners[i]] with no owner left at [i]. *)
Lemma outputs_out_of_range (typ : string) (values : list Z) (owners : list Identity)
      (i : nat) (outputSum : Z) (outputTokens : list Token) :
  (i <= length owners < i + length values)%nat ->
  outputs typ values owners (Z.of_nat i) outputSum outputTokens
  = Panic "index out of range".
Proof.
  revert i outputSum outputTokens.
  induction values as [|value rest IH]; intros i outputSum outputTokens Hlen.
  - cbn in Hlen. lia.
  - cbn [outputs length] in *.
    unfold index. destruct (Z.ltb_spec (Z.of_nat i) 0) as [Hneg|_]; [lia|].
    rewrite Nat2Z.id.
    destruct (owners !! i) as [owner|] eqn:Ho; [|reflexivity].
    apply lookup_lt_Some in Ho. cbn [rbind].
    replace (Z.of_nat i + 1) with (Z.of_nat (S i)) by lia.
    apply IH. lia.
Qed.

(** A recipient of the wrong kind stops [prepareTransfer] before the
    vault, the certifier or a selector is asked anything: a redeem with a
    recipient that is not nil, or a transfer with a nil recipient, returns the
    error of the recipient check. *)
Theorem prepareTransfer_checks_recipients
        (txID : string) (redeem : bool) (wallet : OwnerWallet) (typ : string)
        (values : list Z) (owners : list Identity) (opts : list TransferOption)
        (transferOpts : TransferOptions) :
  compileTransferOptions opts = Ok transferOpts ->
  Exists (fun owner => IsNone owner = negb redeem) owners ->
  prepareTransfer txID redeem wallet typ values owners opts =
  Err (if redeem then "all recipients must be nil"
       else "all recipients should be defined").
Proof.
  intros Hopts Hbad. unfold prepareTransfer.
  rewrite Hopts, (checkOwners_refuses _ _ Hbad). reflexivity.
Qed.

(** With no inputs passed, [prepareTransfer] asks the selector (the one
    of the options, or the default one of the transaction) for the sum of the
    values modulo [2^64], in the type of the call.  It returns the tokens the
    selector picked with the requested outputs, and, when the selector's sum
    exceeds the amount asked for, one more output of the difference for the
    sender. *)
Theorem prepareTransfer_asks_selector
        (txID : string) (redeem : bool) (wallet : OwnerWallet) (typ : string)
        (values : list Z) (owners : list Identity) (opts : list TransferOption)
        (transferOpts : TransferOptions) (selector : Selector)
        (ids : list Id) (inputSum : Z) :
  compileTransferOptions opts = Ok transferOpts ->
  TokenIDs transferOpts = [] ->
  match Selector_ transferOpts with
  | Some selector => Ok selector
  | None => NewSelector txID
  end = Ok selector ->
  checkOwners redeem owners = Ok tt ->
  (length values <= length owners)%nat ->
  selector wallet (Decimal (sum64 values)) typ = Ok (ids, Some inputSum) ->
  prepareTransfer txID redeem wallet typ values owners opts =
  (if inputSum >? sum64 values then
     let? pseudonym := Wrapf "failed getting recipient identity for the rest"
                             (GetRecipientIdentity wallet) in
     Ok (ids, requested typ values owners
              ++ [change typ pseudonym (inputSum - sum64 values)])
   else Ok (ids, requested typ values owners)).
Proof.
  intros Hopts Hids Hsel Howners Hlen Hpick.
  unfold prepareTransfer. rewrite Hopts, Howners. cbn [Wrapf rbind].
  rewrite Hids. cbn [length Nat.eqb negb rbind fst snd].
  change 0 with (Z.of_nat 0) at 1.
  rewrite (outputs_spec typ values owners 0 0 []) by (cbn; lia).
  cbn [rbind fst snd app drop]. fold (sum64 values).
  unfold NewQuantityFromUInt64.
  replace (let? selector0 := match Selector_ transferOpts with
                             | Some selector0 => Ok selector0
                             | None => Wrapf "failed getting default selector"
                                             (NewSelector txID)
                             end in
           Wrapf "failed selecting tokens"
                 (selector0 wallet (Decimal (sum64 values)) typ))
    with (Ok (ids, Some inputSum) : result (list Id * Quantity_t)).
  2: { destruct (Selector_ transferOpts) as [s|].
       - injection Hsel as ->. cbn [rbind]. rewrite Hpick. reflexivity.
       - rewrite Hsel. cbn [Wrapf rbind]. rewrite Hpick. reflexivity. }
  cbn [rbind fst snd Cmp]. unfold change, Z.gtb.
  destruct (inputSum ?= sum64 values); cbn; reflexivity.
Qed.

(** [Request.Transfer] with more values than recipients, and no inputs
    passed: the recipients pass the check, and the loop over the values reads
    past the end of the recipients.  The call panics; it returns no error. *)
Theorem Transfer_panics_on_missing_recipient
        (Action Metadata : Type)
        (tms_Transfer : string -> OwnerWallet -> list Id -> list Token
                        -> result (Action * Metadata))
        (tms_VerifyTransfer : Action -> Metadata -> result unit)
        (Serialize : Action -> result bytes)
        (t : Request Metadata) (wallet : OwnerWallet) (typ : string)
        (values : list Z) (owners : list Identity) (opts : list TransferOption)
        (transferOpts : TransferOptions) :
  compileTransferOptions opts = Ok transferOpts ->
  TokenIDs transferOpts = [] ->
  checkOwners false owners = Ok tt ->
  (length owners < length values)%nat ->
  Transfer Action Metadata tms_Transfer tms_VerifyTransfer Serialize
           t wallet typ values owners opts
  = Panic "index out of range".
Proof.
  intros Hopts Hids Howners Hlen.
  unfold Transfer, prepareTransfer. rewrite Hopts, Howners. cbn [Wrapf rbind].
  rewrite Hids. cbn [length Nat.eqb negb rbind fst snd].
  change 0 with (Z.of_nat 0) at 1.
  rewrite (outputs_out_of_range typ values owners 0 0 []) by (cbn; lia).
  reflexivity.
Qed.

End Services.

(** *** Runs on a concrete vault *)

(** Quantities written in decimal. *)
Fixpoint parseDigits (s : string) (acc : Z) : option Z :=
  match s with
  | EmptyString => Some acc
  | String c s' =>
      let n := Z.of_nat (Ascii.nat_of_ascii c) - 48 in
      if (0 <=? n) && (n <=? 9) then parseDigits s' (10 * acc + n) else None
  end.

Definition demoToQuantity (s : string) (precision : Z) : option Z :=
  match s with
  | EmptyString => None
  | _ => match parseDigits s 0 with
         | Some z => if z <? 2 ^ precision then Some z else None
         | None => None
         end
  end.

Definition demoDecimal (z : Z) : string := pretty z.

Definition id0 : Id := {| TxId := "tx0"; Index := 0 |}.
Definition id1 : Id := {| TxId := "tx0"; Index := 1 |}.
Definition alice : Identity := [x61].
Definition bob : Identity := [x62].
Definition carol : Identity := [x63].

Definition demoToken (owner : Identity) (typ : string) (quantity : string) : Token :=
  {| Owner_ := {| Raw := owner |}; Type_ := typ; Quantity := quantity |}.

(** The vault holds 70 and 30 of type ABC for alice. *)
Definition demoVault (inputs : list Id) : result (list Token) :=
  match inputs with
  | [a; b] =>
      if (String.eqb (TxId a) "tx0" && (Index a =? 0)
          && String.eqb (TxId b) "tx0" && (Index b =? 1))%bool
      then Ok [demoToken alice "ABC" "70"; demoToken alice "ABC" "30"]
      else Err "token not found"
  | _ => Err "token not found"
  end.

(** A vault whose two tokens differ in type. *)
Definition mixedVault (inputs : list Id) : result (list Token) :=
  Ok [demoToken alice "ABC" "70"; demoToken alice "XYZ" "30"].

Definition demoWallet : OwnerWallet :=
  {| GetRecipientIdentity := Ok alice; ID := "alice" |}.

Abbreviation demoPrepareTransfer :=
  (prepareTransfer demoVault (fun _ => Ok tt) (fun _ => Err "no selector")
                   demoToQuantity demoDecimal).

(** A driver that builds the action from whatever it is handed. *)
Definition demoDriver (txID : string) (wallet : OwnerWallet) (ids : list Id)
           (outputTokens : list Token) : result (list Token * unit) :=
  Ok (outputTokens, tt).

Definition emptyRequest : Request unit :=
  {| TxID := "tx1";
     Actions := {| Issues := []; Transfers := []; Signatures := [];
                   AuditorSignature := [] |};
     Metadata_Transfers := [] |}.

(** C2, refuted as stated: the inputs 70 and 30 are passed by id and the
    outputs 65 and 36 are asked for.  The sums differ (100 against 101), and
    [prepareTransfer] returns the two outputs for proving; the request hands
    them to the driver and records the action it gets back. *)
Lemma prepareTransfer_accepts_unbalanced :
  parseInputIDs demoVault demoToQuantity [id0; id1] = Ok ([id0; id1], Some 100, "ABC"%string)
  /\ sum64 [65; 36] = 101
  /\ demoPrepareTransfer "tx1" false demoWallet "ABC" [65; 36] [bob; carol]
                         [WithTokenIDs [id0; id1]]
     = Ok ([id0; id1], [demoToken bob "ABC" "65"; demoToken carol "ABC" "36"])
  /\ is_Ok (Transfer demoVault (fun _ => Ok tt) (fun _ => Err "no selector")
                     demoToQuantity demoDecimal (list Token) unit demoDriver
                     (fun _ _ => Ok tt) (fun _ => Ok [x01])
                     emptyRequest demoWallet "ABC" [65; 36] [bob; carol]
                     [WithTokenIDs [id0; id1]]) = true.
Proof. repeat split; vm_compute; reflexivity. Qed.

(** C2 as amended, on the demo vault: 65 and 30 are asked for against inputs
    of 100, and the sender gets an output of 5. *)
Lemma prepareTransfer_balances_by_change_witness :
  demoPrepareTransfer "tx1" false demoWallet "ABC" [65; 30] [bob; carol]
                      [WithTokenIDs [id0; id1]]
  = Ok ([id0; id1], [demoToken bob "ABC" "65"; demoToken carol "ABC" "30";
                     demoToken alice "ABC" "5"])
  /\ foldr Z.add 0 ([65; 30] ++ [100 - sum64 [65; 30]]) = 100.
Proof.
  destruct (prepareTransfer_balances_by_change
              demoVault (fun _ => Ok tt) (fun _ => Err "no selector")
              demoToQuantity demoDecimal
              "tx1" false demoWallet "ABC" [65; 30] [bob; carol]
              [WithTokenIDs [id0; id1]]
              {| Selector_ := None; TokenIDs := [id0; id1] |}
              [id0; id1] 100 "ABC") as [Heq Hsum].
  - reflexivity.
  - discriminate.
  - reflexivity.
  - vm_compute. reflexivity.
  - reflexivity.
  - cbn. lia.
  - split.
    + rewrite Heq. vm_compute. reflexivity.
    + apply Hsum; [repeat constructor; lia|cbn; lia|cbn; lia].
Defined.

(** The slip that the amended claim leaves out: where the types of the
    inputs differ, [parseInputIDs] wraps a nil error, so that it returns
    without one, and [prepareTransfer] goes on to compare a nil quantity. *)
Lemma parseInputIDs_differing_types :
  parseInputIDs mixedVault demoToQuantity [id0; id1] = Ok ([], None, ""%string)
  /\ prepareTransfer mixedVault (fun _ => Ok tt) (fun _ => Err "no selector")
                     demoToQuantity demoDecimal
                     "tx1" false demoWallet "ABC" [65; 35] [bob; carol]
                     [WithTokenIDs [id0; id1]]
     = Panic "invalid memory address or nil pointer dereference".
Proof. split; vm_compute; reflexivity. Qed.

(** A redeem that names a recipient is refused by the recipient check. *)
Lemma prepareTransfer_checks_recipients_witness :
  demoPrepareTransfer "tx1" true demoWallet "ABC" [65] [bob] []
  = Err "all recipients must be nil".
Proof.
  apply (prepareTransfer_checks_recipients
           demoVault (fun _ => Ok tt) (fun _ => Err "no selector")
           demoToQuantity demoDecimal
           "tx1" true demoWallet "ABC" [65] [bob] []
           {| Selector_ := None; TokenIDs := [] |}).
  - reflexivity.
  - constructor. reflexivity.
Defined.

(** A selector that picks the two tokens of the demo vault, worth 100. *)
Definition bothTokens : Selector :=
  fun _ _ _ => Ok ([id0; id1], Some 100).

(** 65 and 30 are asked for with that selector: the sender gets 5 back. *)
Lemma prepareTransfer_asks_selector_witness :
  demoPrepareTransfer "tx1" false demoWallet "ABC" [65; 30] [bob; carol]
                      [WithTokenSelector bothTokens]
  = Ok ([id0; id1], [demoToken bob "ABC" "65"; demoToken carol "ABC" "30";
                     demoToken alice "ABC" "5"]).
Proof.
  rewrite (prepareTransfer_asks_selector
             demoVault (fun _ => Ok tt) (fun _ => Err "no selector")
             demoToQuantity demoDecimal
             "tx1" false demoWallet "ABC" [65; 30] [bob; carol]
             [WithTokenSelector bothTokens]
             {| Selector_ := Some bothTokens; TokenIDs := [] |}
             bothTokens [id0; id1] 100).
  - vm_compute. reflexivity.
  - reflexivity.
  - reflexivity.
  - reflexivity.
  - reflexivity.
  - cbn. lia.
  - reflexivity.
Defined.

(** Two values for one recipient. *)
Lemma Transfer_panics_on_missing_recipient_witness :
  Transfer demoVault (fun _ => Ok tt) (fun _ => Err "no selector")
           demoToQuantity demoDecimal (list Token) unit demoDriver
           (fun _ _ => Ok tt) (fun _ => Ok [x01])
           emptyRequest demoWallet "ABC" [65; 36] [bob] []
  = Panic "index out of range".
Proof.
  apply (Transfer_panics_on_missing_recipient
           demoVault (fun _ => Ok tt) (fun _ => Err "no selector")
           demoToQuantity demoDecimal (list Token) unit demoDriver
           (fun _ _ => Ok tt) (fun _ => Ok [x01])
           emptyRequest demoWallet "ABC" [65; 36] [bob] []
           {| Selector_ := None; TokenIDs := [] |}).
  - reflexivity.
  - reflexivity.
  - reflexivity.
  - cbn. lia.
Defined.

End token.

(** ** Package api (token/api): the metadata of a request *)
Module api.

Module IssueMetadata.
Record t : Type := {
  Issuer : token.Identity;
  Outputs : list bytes;
  TokenInfo : list bytes;
  Receivers : list token.Identity;
  AuditInfos : list bytes
}.
End IssueMetadata.

Module TransferMetadata.
Record t : Type := {
  TokenIDs : list token.Id;
  Outputs : list bytes;
  TokenInfo : list bytes;
  Senders : list token.Identity;
  SenderAuditInfos : list bytes;
  Receivers : list token.Identity;
  ReceiverIsSender : list bool;
  ReceiverAuditInfos : list bytes
}.
End TransferMetadata.

Record TokenRequestMetadata : Type := {
  Issues : list IssueMetadata.t;
  Transfers : list TransferMetadata.t
}.

Definition TokenInfos (m : TokenRequestMetadata) : list bytes :=
  let res := foldl (fun res issue => res ++ IssueMetadata.TokenInfo issue) [] (Issues m) in
  foldl (fun res transfer => res ++ TransferMetadata.TokenInfo transfer) res (Transfers m).

(** [for i, output := range outputs { if bytes.Equal(output, tokenRaw) {
    return infos[i] } }]; [None] when the loop ends without returning. *)
Fixpoint lookFor (tokenRaw : bytes) (outputs infos : list bytes) (i : Z)
  : result (option bytes) :=
  match outputs with
  | [] => Ok None
  | output :: rest =>
      if Equal output tokenRaw then
        let? info := index infos i in Ok (Some info)
      else lookFor tokenRaw rest infos (i + 1)
  end.

(** The outer loops: the first entry whose inner loop returns. *)
Fixpoint firstFound {A} (look : A -> result (option bytes)) (l : list A)
  : result (option bytes) :=
  match l with
  | [] => Ok None
  | x :: rest =>
      let? found := look x in
      match found with
      | Some info => Ok (Some info)
      | None => firstFound look rest
      end
  end.

(** The nil slice that is returned when nothing is found is the empty list. *)
Definition GetTokenInfo (m : TokenRequestMetadata) (tokenRaw : bytes) : result bytes :=
  let? found :=
    firstFound (fun issue => lookFor tokenRaw (IssueMetadata.Outputs issue)
                                     (IssueMetadata.TokenInfo issue) 0)
               (Issues m) in
  match found with
  | Some info => Ok info
  | None =>
      let? found :=
        firstFound (fun transfer => lookFor tokenRaw (TransferMetadata.Outputs transfer)
                                            (TransferMetadata.TokenInfo transfer) 0)
                   (Transfers m) in
      match found with
      | Some info => Ok info
      | None => Ok []
      end
  end.

Definition Inputs (m : TokenRequestMetadata) : list token.Id :=
  foldl (fun res transfer => res ++ TransferMetadata.TokenIDs transfer) [] (Transfers m).

(** The outputs of the metadata beside their infos, issues first. *)
Definition recorded (m : TokenRequestMetadata) : list (bytes * bytes) :=
  concat ((fun issue => zip (IssueMetadata.Outputs issue) (IssueMetadata.TokenInfo issue))
            <$> Issues m)
  ++ concat ((fun transfer => zip (TransferMetadata.Outputs transfer)
                                  (TransferMetadata.TokenInfo transfer))
               <$> Transfers m).

(** Every output of the metadata has an info. *)
Definition covered (m : TokenRequestMetadata) : Prop :=
  Forall (fun issue => (length (IssueMetadata.Outputs issue)
                        <= length (IssueMetadata.TokenInfo issue))%nat) (Issues m)
  /\ Forall (fun transfer => (length (TransferMetadata.Outputs transfer)
                              <= length (TransferMetadata.TokenInfo transfer))%nat)
            (Transfers m).

Lemma foldl_app_concat {A B} (f : A -> list B) (l : list A) (acc : list B) :
  foldl (fun res x => res ++ f x) acc l = acc ++ concat (f <$> l).
Proof.
  revert acc. induction l as [|x l IH]; intros acc; cbn.
  - now rewrite app_nil_r.
  - rewrite IH. now rewrite <- app_assoc.
Qed.

Lemma TokenInfos_concat (m : TokenRequestMetadata) :
  TokenInfos m = concat (IssueMetadata.TokenInfo <$> Issues m)
                 ++ concat (TransferMetadata.TokenInfo <$> Transfers m).
Proof. unfold TokenInfos. now rewrite !foldl_app_concat. Qed.

Lemma find_app_first {A} (P : A -> bool) (l1 l2 : list A) :
  find P (l1 ++ l2) = match find P l1 with
                      | Some x => Some x
                      | None => find P l2
                      end.
Proof.
  induction l1 as [|x l1 IH]; [reflexivity|].
  cbn. destruct (P x); [reflexivity|exact IH].
Qed.

Lemma lookFor_find (tokenRaw : bytes) (outputs infos : list bytes) (i : nat) :
  (i + length outputs <= length infos)%nat ->
  lookFor tokenRaw outputs infos (Z.of_nat i)
  = Ok (snd <$> find (fun p => Equal (fst p) tokenRaw) (zip outputs (drop i infos))).
Proof.
  revert i. induction outputs as [|output rest IH]; intros i Hlen; [reflexivity|].
  cbn [lookFor length] in *.
  destruct (infos !! i) as [info|] eqn:Hi.
  2: { apply lookup_ge_None in Hi. lia. }
  rewrite (drop_S _ _ _ Hi). cbn [zip zip_with find fst].
  destruct (Equal output tokenRaw).
  - rewrite (index_lookup _ _ _ Hi). reflexivity.
  - replace (Z.of_nat i + 1) with (Z.of_nat (S i)) by lia.
    apply IH. lia.
Qed.

Lemma firstFound_find {A} (look : A -> result (option bytes))
      (pairs : A -> list (bytes * bytes)) (P : bytes * bytes -> bool) (l : list A) :
  Forall (fun x => look x = Ok (snd <$> find P (pairs x))) l ->
  firstFound look l = Ok (snd <$> find P (concat (pairs <$> l))).
Proof.
  induction 1 as [|x l Hx _ IH]; [reflexivity|].
  cbn. rewrite Hx. cbn. rewrite find_app_first.
  destruct (find P (pairs x)); [reflexivity|exact IH].
Qed.

(** In metadata where every output has an info, [GetTokenInfo] returns the
    info recorded beside the first output equal to the token, the issues
    before the transfers, and nil when no output is equal to it. *)
Theorem GetTokenInfo_first_recorded (m : TokenRequestMetadata) (tokenRaw : bytes) :
  covered m ->
  GetTokenInfo m tokenRaw
  = Ok (match find (fun p => Equal (fst p) tokenRaw) (recorded m) with
        | Some p => snd p
        | None => []
        end).
Proof.
  intros [Hissues Htransfers]. unfold GetTokenInfo, recorded.
  rewrite (firstFound_find _
             (fun issue => zip (IssueMetadata.Outputs issue)
                               (IssueMetadata.TokenInfo issue))
             (fun p => Equal (fst p) tokenRaw)).
  2: { eapply Forall_impl; [exact Hissues|]. intros issue Hlen. cbn beta in *.
       change 0 with (Z.of_nat 0). rewrite lookFor_find by (cbn; lia).
       reflexivity. }
  rewrite (firstFound_find _
             (fun transfer => zip (TransferMetadata.Outputs transfer)
                                  (TransferMetadata.TokenInfo transfer))
             (fun p => Equal (fst p) tokenRaw)).
  2: { eapply Forall_impl; [exact Htransfers|]. intros transfer Hlen. cbn beta in *.
       change 0 with (Z.of_nat 0). rewrite lookFor_find by (cbn; lia).
       reflexivity. }
  cbn [rbind]. rewrite find_app_first.
  destruct (find _ (concat (_ <$> Issues m))) as [p|]; [reflexivity|].
  cbn. destruct (find _ _) as [p|]; reflexivity.
Qed.

(** Metadata of one issue and one transfer that record the same output. *)
Definition demoMetadata : TokenRequestMetadata :=
  {| Issues := [ {| IssueMetadata.Issuer := token.alice;
                    IssueMetadata.Outputs := [[x01]; [x02]];
                    IssueMetadata.TokenInfo := [[x11]; [x12]];
                    IssueMetadata.Receivers := [token.bob];
                    IssueMetadata.AuditInfos := [[x21]] |} ];
     Transfers := [ {| TransferMetadata.TokenIDs := [token.id0];
                       TransferMetadata.Outputs := [[x02]; [x03]];
                       TransferMetadata.TokenInfo := [[x32]; [x33]];
                       TransferMetadata.Senders := [token.alice];
                       TransferMetadata.SenderAuditInfos := [[x21]];
                       TransferMetadata.Receivers := [token.bob; token.carol];
                       TransferMetadata.ReceiverIsSender := [false; false];
                       TransferMetadata.ReceiverAuditInfos := [[x22]; [x23]] |} ] |}.

(** The output [02] is recorded twice; the info of the issue is returned. *)
Lemma GetTokenInfo_first_recorded_witness :
  GetTokenInfo demoMetadata [x02] = Ok [x12]
  /\ GetTokenInfo demoMetadata [x03] = Ok [x33]
  /\ GetTokenInfo demoMetadata [x04] = Ok [].
Proof.
  assert (H : covered demoMetadata).
  { split; repeat (constructor; [cbn; lia|]); constructor. }
  split; [|split]; rewrite (GetTokenInfo_first_recorded demoMetadata _ H);
    vm_compute; reflexivity.
Defined.

End api.

(** ** Package token, request.go: the request and its checks *)
Module request.

(** The actions of the driver are interfaces; an action is the record of
    what its methods return.  An output of [GetOutputs] is what its
    [Serialize] returns. *)
Module IssueAction.
Record t : Type := {
  Serialize : result bytes;
  NumOutputs : Z;
  GetSerializedOutputs : result (list bytes);
  GetOutputs : list (result bytes)
}.
End IssueAction.

Module TransferAction.
Record t : Type := {
  Serialize : result bytes;
  NumOutputs : Z;
  GetOutputs : list (result bytes)
}.
End TransferAction.

Record IssuerWallet : Type := {
  GetIssuerIdentity : string -> result token.Identity
}.

Record Request : Type := {
  TxID : string;
  Actions : token.TokenRequest;
  Metadata : api.TokenRequestMetadata
}.

(** The fields that [Inputs] and [Outputs] set. *)
Module Input.
Record t : Type := {
  ActionIndex : Z;
  Id : token.Id;
  Owner : token.Identity;
  EnrollmentID : string
}.
End Input.

Module Output.
Record t : Type := {
  ActionIndex : Z;
  Owner : token.Identity;
  EnrollmentID : string;
  Type_ : string;
  Quantity : string
}.
End Output.

Definition NewRequest (txid : string) : Request :=
  {| TxID := txid;
     Actions := {| token.Issues := []; token.Transfers := [];
                   token.Signatures := []; token.AuditorSignature := [] |};
     Metadata := {| api.Issues := []; api.Transfers := [] |} |}.

(** [t.Actions.Issues = append(t.Actions.Issues, raw)]. *)
Definition appendIssue (t : Request) (raw : bytes) : Request :=
  {| TxID := TxID t;
     Actions := {| token.Issues := token.Issues (Actions t) ++ [raw];
                   token.Transfers := token.Transfers (Actions t);
                   token.Signatures := token.Signatures (Actions t);
                   token.AuditorSignature := token.AuditorSignature (Actions t) |};
     Metadata := Metadata t |}.

(** [t.Metadata.Issues = append(t.Metadata.Issues, md)]. *)
Definition appendIssueMetadata (t : Request) (md : api.IssueMetadata.t) : Request :=
  {| TxID := TxID t;
     Actions := Actions t;
     Metadata := {| api.Issues := api.Issues (Metadata t) ++ [md];
                    api.Transfers := api.Transfers (Metadata t) |} |}.

(** [if err != nil { return nil, err }] in a method that has changed the
    request: the request is returned as it is at that point. *)
Definition orReturn {A B} (r : result A) (t : Request)
           (k : A -> result B * Request) : result B * Request :=
  match r with
  | Ok a => k a
  | Err e => (Err e, t)
  | Panic e => (Panic e, t)
  end.

(** [Request.Import]: four loops that append one element each round. *)
Definition Import (t request : Request) : Request :=
  {| TxID := TxID t;
     Actions :=
       {| token.Issues :=
            foldl (fun issues issue => issues ++ [issue])
                  (token.Issues (Actions t)) (token.Issues (Actions request));
          token.Transfers :=
            foldl (fun transfers transfer => transfers ++ [transfer])
                  (token.Transfers (Actions t)) (token.Transfers (Actions request));
          token.Signatures := token.Signatures (Actions t);
          token.AuditorSignature := token.AuditorSignature (Actions t) |};
     Metadata :=
       {| api.Issues :=
            foldl (fun issues issue => issues ++ [issue])
                  (api.Issues (Metadata t)) (api.Issues (Metadata request));
          api.Transfers :=
            foldl (fun transfers transfer => transfers ++ [transfer])
                  (api.Transfers (Metadata t)) (api.Transfers (Metadata request)) |} |}.

Section Driver.

(** What the request consumes of the driver ([TokenService.tms]). *)
Variable tms_Issue :
  token.Identity -> string -> list Z -> list bytes
  -> result (IssueAction.t * list bytes * token.Identity).
Variable GetAuditInfo : token.Identity -> result bytes.
Variable DeserializeIssueAction : bytes -> result IssueAction.t.
Variable DeserializeTransferAction : bytes -> result TransferAction.t.
Variable VerifyIssue : IssueAction.t -> list bytes -> result unit.
Variable VerifyTransfer : TransferAction.t -> list bytes -> result unit.
Variable DeserializeToken : bytes -> bytes -> result token.Token.
Variable GetEnrollmentID : bytes -> result string.
Variable AuditorCheck :
  token.TokenRequest -> api.TokenRequestMetadata -> string -> result unit.

(** [Request.Issue]: the action is appended as soon as it is serialized; its
    metadata is appended at the end. *)
Definition Issue (t : Request) (wallet : IssuerWallet) (receiver : token.Identity)
           (typ : string) (q : Z) : result IssueAction.t * Request :=
  if token.IsNone receiver then (Err "all recipients should be defined", t)
  else
    orReturn (Wrapf "failed getting issuer identity for type"
                    (GetIssuerIdentity wallet typ)) t (fun id =>
    orReturn (tms_Issue id typ [q] [receiver]) t (fun issued =>
    let issue := fst (fst issued) in
    let tokenInfos := snd (fst issued) in
    let issuer := snd issued in
    orReturn (IssueAction.Serialize issue) t (fun raw =>
    let t := appendIssue t raw in
    orReturn (IssueAction.GetSerializedOutputs issue) t (fun outputs =>
    orReturn (GetAuditInfo receiver) t (fun auditInfo =>
    (Ok issue,
     appendIssueMetadata t
       {| api.IssueMetadata.Issuer := issuer;
          api.IssueMetadata.Outputs := outputs;
          api.IssueMetadata.TokenInfo := tokenInfos;
          api.IssueMetadata.Receivers := [receiver];
          api.IssueMetadata.AuditInfos := [auditInfo] |})))))).

(** [for j, id := range meta.TokenIDs]. *)
Fixpoint inputsOf (i : Z) (meta : api.TransferMetadata.t) (ids : list token.Id) (j : Z)
  : result (list Input.t) :=
  match ids with
  | [] => Ok []
  | id :: rest =>
      let? info := index (api.TransferMetadata.SenderAuditInfos meta) j in
      let? eID := Wrapf "failed getting enrollment id" (GetEnrollmentID info) in
      let? owner := index (api.TransferMetadata.Senders meta) j in
      let? more := inputsOf i meta rest (j + 1) in
      Ok ({| Input.ActionIndex := i; Input.Id := id; Input.Owner := owner;
             Input.EnrollmentID := eID |} :: more)
  end.

(** [for i := range t.Actions.Transfers]. *)
Fixpoint inputsFrom (md : list api.TransferMetadata.t) (transfers : list bytes) (i : Z)
  : result (list Input.t) :=
  match transfers with
  | [] => Ok []
  | _ :: rest =>
      let? meta := index md i in
      let? inputs := inputsOf i meta (api.TransferMetadata.TokenIDs meta) 0 in
      let? more := inputsFrom md rest (i + 1) in
      Ok (inputs ++ more)
  end.

Definition Inputs (t : Request) : result (list Input.t) :=
  inputsFrom (api.Transfers (Metadata t)) (token.Transfers (Actions t)) 0.

(** [for j, output := range action.GetOutputs()], of an issue. *)
Fixpoint issueOutputs (md : list api.IssueMetadata.t) (i : Z)
         (outputs : list (result bytes)) (j : Z) : result (list Output.t) :=
  match outputs with
  | [] => Ok []
  | output :: rest =>
      let? raw := Wrapf "failed deserializing issue action output" output in
      let? meta := index md i in
      let? info := index (api.IssueMetadata.TokenInfo meta) j in
      let? tok := Wrapf "failed getting issue action output in the clear"
                        (DeserializeToken raw info) in
      let? auditInfo := index (api.IssueMetadata.AuditInfos meta) j in
      let? eID := Wrapf "failed getting enrollment id" (GetEnrollmentID auditInfo) in
      let? more := issueOutputs md i rest (j + 1) in
      Ok ({| Output.ActionIndex := i;
             Output.Owner := token.Raw (token.Owner_ tok);
             Output.EnrollmentID := eID;
             Output.Type_ := token.Type_ tok;
             Output.Quantity := token.Quantity tok |} :: more)
  end.

(** The same loop of a transfer: an output without owner has no enrollment
    id. *)
Fixpoint transferOutputs (md : list api.TransferMetadata.t) (i : Z)
         (outputs : list (result bytes)) (j : Z) : result (list Output.t) :=
  match outputs with
  | [] => Ok []
  | output :: rest =>
      let? raw := Wrapf "failed deserializing transfer action output" output in
      let? meta := index md i in
      let? info := index (api.TransferMetadata.TokenInfo meta) j in
      let? tok := Wrapf "failed getting transfer action output in the clear"
                        (DeserializeToken raw info) in
      let? eID :=
        if negb (length (token.Raw (token.Owner_ tok)) =? 0)%nat then
          let? auditInfo := index (api.TransferMetadata.ReceiverAuditInfos meta) j in
          Wrapf "failed getting enrollment id" (GetEnrollmentID auditInfo)
        else Ok ""%string in
      let? more := transferOutputs md i rest (j + 1) in
      Ok ({| Output.ActionIndex := i;
             Output.Owner := token.Raw (token.Owner_ tok);
             Output.EnrollmentID := eID;
             Output.Type_ := token.Type_ tok;
             Output.Quantity := token.Quantity tok |} :: more)
  end.

Fixpoint outputsOfIssues (md : list api.IssueMetadata.t) (issues : list bytes) (i : Z)
  : result (list Output.t) :=
  match issues with
  | [] => Ok []
  | issue :: rest =>
      let? action := Wrapf "failed deserializing issue action"
                           (DeserializeIssueAction issue) in
      let? outputs := issueOutputs md i (IssueAction.GetOutputs action) 0 in
      let? more := outputsOfIssues md rest (i + 1) in
      Ok (outputs ++ more)
  end.

Fixpoint outputsOfTransfers (md : list api.TransferMetadata.t) (transfers : list bytes)
         (i : Z) : result (list Output.t) :=
  match transfers with
  | [] => Ok []
  | transfer :: rest =>
      let? action := Wrapf "failed deserializing transfer action"
                           (DeserializeTransferAction transfer) in
      let? outputs := transferOutputs md i (TransferAction.GetOutputs action) 0 in
      let? more := outputsOfTransfers md rest (i + 1) in
      Ok (outputs ++ more)
  end.

Definition Outputs (t : Request) : result (list Output.t) :=
  let? issued := outputsOfIssues (api.Issues (Metadata t))
                                 (token.Issues (Actions t)) 0 in
  let? transferred := outputsOfTransfers (api.Transfers (Metadata t))
                                         (token.Transfers (Actions t)) 0 in
  Ok (issued ++ transferred).

(** [for i, issue := range t.Actions.Issues], of [Verify]. *)
Fixpoint verifyIssues (md : list api.IssueMetadata.t) (issues : list bytes) (i : Z)
  : result unit :=
  match issues with
  | [] => Ok tt
  | issue :: rest =>
      let? action := Wrapf "failed deserializing issue action"
                           (DeserializeIssueAction issue) in
      let? meta := index md i in
      let? _ := Wrapf "failed verifying issue action"
                      (VerifyIssue action (api.IssueMetadata.TokenInfo meta)) in
      verifyIssues md rest (i + 1)
  end.

Fixpoint verifyTransfers (md : list api.TransferMetadata.t) (transfers : list bytes)
         (i : Z) : result unit :=
  match transfers with
  | [] => Ok tt
  | transfer :: rest =>
      let? action := Wrapf "failed deserializing transfer action"
                           (DeserializeTransferAction transfer) in
      let? meta := index md i in
      let? _ := Wrapf "failed verifying transfer action"
                      (VerifyTransfer action (api.TransferMetadata.TokenInfo meta)) in
      verifyTransfers md rest (i + 1)
  end.

Definition Verify (t : Request) : result unit :=
  let? _ := verifyIssues (api.Issues (Metadata t)) (token.Issues (Actions t)) 0 in
  let? _ := verifyTransfers (api.Transfers (Metadata t))
                            (token.Transfers (Actions t)) 0 in
  let? _ := Wrapf "failed verifying inputs" (Inputs t) in
  let? _ := Wrapf "failed verifying outputs" (Outputs t) in
  Ok tt.

(** [countOutputs]: the sum is an [int]. *)
Fixpoint countIssues (issues : list bytes) (sum : Z) : result Z :=
  match issues with
  | [] => Ok sum
  | i :: rest =>
      let? action := DeserializeIssueAction i in
      countIssues rest (int_add sum (IssueAction.NumOutputs action))
  end.

Fixpoint countTransfers (transfers : list bytes) (sum : Z) : result Z :=
  match transfers with
  | [] => Ok sum
  | t :: rest =>
      let? action := DeserializeTransferAction t in
      countTransfers rest (int_add sum (TransferAction.NumOutputs action))
  end.

Definition countOutputs (t : Request) : result Z :=
  let? sum := countIssues (token.Issues (Actions t)) 0 in
  countTransfers (token.Transfers (Actions t)) sum.

Definition IsValid (t : Request) : result unit :=
  let? numTokens := Wrapf "failed extracting tokens" (countOutputs t) in
  let tis := api.TokenInfos (Metadata t) in
  if negb (numTokens =? Z.of_nat (length tis)) then
    Err "invalid transaction, the number of tokens differs from the number of token info"
  else Verify t.

Definition AuditCheck (t : Request) : result unit :=
  let? _ := Verify t in
  AuditorCheck (Actions t) (Metadata t) (TxID t).

(** *** What a verified request has been checked for *)

Lemma Wrapf_Ok {A} (msg : string) (r : result A) (a : A) :
  Wrapf msg r = Ok a -> r = Ok a.
Proof. destruct r; cbn; congruence. Qed.

Lemma index_Ok {A} (l : list A) (k : nat) (x : A) :
  index l (Z.of_nat k) = Ok x -> l !! k = Some x.
Proof.
  unfold index. destruct (Z.ltb_spec (Z.of_nat k) 0) as [?|_]; [discriminate|].
  rewrite Nat2Z.id. destruct (l !! k); congruence.
Qed.

Lemma index_past {A} (l : list A) (k : nat) :
  (length l <= k)%nat -> index l (Z.of_nat k) = Panic "index out of range".
Proof.
  intros Hk. unfold index.
  destruct (Z.ltb_spec (Z.of_nat k) 0) as [?|_]; [reflexivity|].
  rewrite Nat2Z.id, (lookup_ge_None_2 l k Hk). reflexivity.
Qed.

Lemma verifyIssues_Ok (md : list api.IssueMetadata.t) (issues : list bytes) (k : nat) :
  verifyIssues md issues (Z.of_nat k) = Ok tt ->
  forall (j : nat) (raw : bytes), issues !! j = Some raw ->
    exists action meta,
      DeserializeIssueAction raw = Ok action
      /\ md !! (k + j)%nat = Some meta
      /\ VerifyIssue action (api.IssueMetadata.TokenInfo meta) = Ok tt.
Proof.
  revert k. induction issues as [|issue rest IH]; intros k H j raw Hj.
  - rewrite lookup_nil in Hj. discriminate Hj.
  - cbn [verifyIssues] in H.
    apply rbind_Ok in H as (action & Ha & H). apply Wrapf_Ok in Ha.
    apply rbind_Ok in H as (meta & Hm & H). apply index_Ok in Hm.
    apply rbind_Ok in H as ([] & Hv & H). apply Wrapf_Ok in Hv.
    replace (Z.of_nat k + 1) with (Z.of_nat (S k)) in H by lia.
    destruct j as [|j]; cbn in Hj.
    + injection Hj as <-. exists action, meta. rewrite Nat.add_0_r. auto.
    + destruct (IH _ H j raw Hj) as (a & m & Ha' & Hm' & Hv').
      exists a, m. replace (k + S j)%nat with (S k + j)%nat by lia. auto.
Qed.

Lemma verifyTransfers_Ok (md : list api.TransferMetadata.t) (transfers : list bytes)
      (k : nat) :
  verifyTransfers md transfers (Z.of_nat k) = Ok tt ->
  forall (j : nat) (raw : bytes), transfers !! j = Some raw ->
    exists action meta,
      DeserializeTransferAction raw = Ok action
      /\ md !! (k + j)%nat = Some meta
      /\ VerifyTransfer action (api.TransferMetadata.TokenInfo meta) = Ok tt.
Proof.
  revert k. induction transfers as [|transfer rest IH]; intros k H j raw Hj.
  - rewrite lookup_nil in Hj. discriminate Hj.
  - cbn [verifyTransfers] in H.
    apply rbind_Ok in H as (action & Ha & H). apply Wrapf_Ok in Ha.
    apply rbind_Ok in H as (meta & Hm & H). apply index_Ok in Hm.
    apply rbind_Ok in H as ([] & Hv & H). apply Wrapf_Ok in Hv.
    replace (Z.of_nat k + 1) with (Z.of_nat (S k)) in H by lia.
    destruct j as [|j]; cbn in Hj.
    + injection Hj as <-. exists action, meta. rewrite Nat.add_0_r. auto.
    + destruct (IH _ H j raw Hj) as (a & m & Ha' & Hm' & Hv').
      exists a, m. replace (k + S j)%nat with (S k + j)%nat by lia. auto.
Qed.

(** A request that [Verify] accepts: each of its actions deserializes, has
    metadata at its own position, and is verified by the driver against the
    token infos of that metadata; its inputs and outputs can be listed. *)
Theorem Verify_checks_every_action (t : Request) :
  Verify t = Ok tt ->
  (forall (i : nat) (raw : bytes), token.Issues (Actions t) !! i = Some raw ->
     exists action meta,
       DeserializeIssueAction raw = Ok action
       /\ api.Issues (Metadata t) !! i = Some meta
       /\ VerifyIssue action (api.IssueMetadata.TokenInfo meta) = Ok tt)
  /\ (forall (i : nat) (raw : bytes), token.Transfers (Actions t) !! i = Some raw ->
        exists action meta,
          DeserializeTransferAction raw = Ok action
          /\ api.Transfers (Metadata t) !! i = Some meta
          /\ VerifyTransfer action (api.TransferMetadata.TokenInfo meta) = Ok tt)
  /\ is_Ok (Inputs t) = true
  /\ is_Ok (Outputs t) = true.
Proof.
  unfold Verify. intros H.
  apply rbind_Ok in H as ([] & Hi & H).
  apply rbind_Ok in H as ([] & Ht & H).
  apply rbind_Ok in H as (ins & Hins & H). apply Wrapf_Ok in Hins.
  apply rbind_Ok in H as (outs & Houts & _). apply Wrapf_Ok in Houts.
  change 0 with (Z.of_nat 0) in Hi, Ht.
  split; [|split; [|split]].
  - intros i raw Hraw. exact (verifyIssues_Ok _ _ 0 Hi i raw Hraw).
  - intros i raw Hraw. exact (verifyTransfers_Ok _ _ 0 Ht i raw Hraw).
  - rewrite Hins. reflexivity.
  - rewrite Houts. reflexivity.
Qed.

Lemma verifyIssues_past (md : list api.IssueMetadata.t) (verified : list bytes)
      (raw : bytes) (rest : list bytes) (action : IssueAction.t) (k : nat) :
  Forall2 (fun issue meta =>
             exists a, DeserializeIssueAction issue = Ok a
                       /\ VerifyIssue a (api.IssueMetadata.TokenInfo meta) = Ok tt)
          verified (drop k md) ->
  DeserializeIssueAction raw = Ok action ->
  verifyIssues md (verified ++ raw :: rest) (Z.of_nat k) = Panic "index out of range".
Proof.
  intros Hall Hraw. revert k Hall.
  induction verified as [|issue verified IH]; intros k Hall.
  - apply Forall2_nil_inv_l in Hall.
    cbn [app verifyIssues]. rewrite Hraw. cbn [Wrapf rbind].
    rewrite index_past; [reflexivity|].
    apply (f_equal length) in Hall. rewrite length_drop in Hall. cbn in Hall. lia.
  - apply Forall2_cons_inv_l in Hall as (meta & mds & (a & Ha & Hv) & Hall & Hmd).
    assert (Hk : md !! k = Some meta).
    { rewrite <- (Nat.add_0_r k), <- lookup_drop, Hmd. reflexivity. }
    cbn [app verifyIssues]. rewrite Ha. cbn [Wrapf rbind].
    rewrite (index_lookup _ _ _ Hk). cbn [rbind]. rewrite Hv. cbn [Wrapf rbind].
    replace (Z.of_nat k + 1) with (Z.of_nat (S k)) by lia.
    apply IH.
    replace (drop (S k) md) with mds; [exact Hall|].
    rewrite (drop_S _ _ _ Hk) in Hmd. congruence.
Qed.

(** [Verify] does not compare the number of actions with the number of
    metadata.  Where every issue metadata has its action, verified, and one
    more issue action follows that deserializes, [Verify] reads past the end
    of the metadata and panics; it returns no error. *)
Theorem Verify_panics_past_metadata (t : Request) (verified : list bytes)
        (raw : bytes) (rest : list bytes) (action : IssueAction.t) :
  token.Issues (Actions t) = verified ++ raw :: rest ->
  Forall2 (fun issue meta =>
             exists a, DeserializeIssueAction issue = Ok a
                       /\ VerifyIssue a (api.IssueMetadata.TokenInfo meta) = Ok tt)
          verified (api.Issues (Metadata t)) ->
  DeserializeIssueAction raw = Ok action ->
  Verify t = Panic "index out of range"
  /\ AuditCheck t = Panic "index out of range".
Proof.
  intros Hissues Hall Hraw.
  assert (H : Verify t = Panic "index out of range").
  { unfold Verify. rewrite Hissues. change 0 with (Z.of_nat 0) at 1.
    rewrite (verifyIssues_past _ _ _ _ action 0); [reflexivity|exact Hall|exact Hraw]. }
  split; [exact H|]. unfold AuditCheck. rewrite H. reflexivity.
Qed.

(** *** [Issue] and the alignment of actions and metadata *)

(** [Issue] appends the action before it asks for the serialized outputs and
    for the audit info of the receiver.  When one of these two calls fails,
    [Issue] returns the error and leaves the request with the new action and
    without metadata for it. *)
Theorem Issue_failure_keeps_action
        (t : Request) (wallet : IssuerWallet) (receiver : token.Identity)
        (typ : string) (q : Z) (id : token.Identity) (issue : IssueAction.t)
        (tokenInfos : list bytes) (issuer : token.Identity) (raw : bytes) (e : string) :
  token.IsNone receiver = false ->
  GetIssuerIdentity wallet typ = Ok id ->
  tms_Issue id typ [q] [receiver] = Ok (issue, tokenInfos, issuer) ->
  IssueAction.Serialize issue = Ok raw ->
  IssueAction.GetSerializedOutputs issue = Err e
  \/ (is_Ok (IssueAction.GetSerializedOutputs issue) = true
      /\ GetAuditInfo receiver = Err e) ->
  Issue t wallet receiver typ q = (Err e, appendIssue t raw)
  /\ token.Issues (Actions (appendIssue t raw)) = token.Issues (Actions t) ++ [raw]
  /\ Metadata (appendIssue t raw) = Metadata t.
Proof.
  intros Hrecv Hid Hissue Hraw Hfail. split; [|split; reflexivity].
  unfold Issue. rewrite Hrecv, Hid. cbn [Wrapf orReturn].
  rewrite Hissue. cbn [orReturn fst snd]. rewrite Hraw. cbn [orReturn].
  destruct Hfail as [Houts|[Houts Haudit]].
  - rewrite Houts. reflexivity.
  - destruct (IssueAction.GetSerializedOutputs issue) as [outputs| |];
      [|discriminate Houts|discriminate Houts].
    cbn [orReturn]. rewrite Haudit. reflexivity.
Qed.

(** An [Issue] that returns an action has appended its serialization to the
    issue actions and one metadata to the issue metadata, with the receiver
    as its only receiver, the outputs and token infos of the driver, and one
    audit info; the transfers are untouched. *)
Theorem Issue_appends_action_and_metadata
        (t t' : Request) (wallet : IssuerWallet) (receiver : token.Identity)
        (typ : string) (q : Z) (issue : IssueAction.t) :
  Issue t wallet receiver typ q = (Ok issue, t') ->
  token.IsNone receiver = false
  /\ exists raw md,
       IssueAction.Serialize issue = Ok raw
       /\ token.Issues (Actions t') = token.Issues (Actions t) ++ [raw]
       /\ api.Issues (Metadata t') = api.Issues (Metadata t) ++ [md]
       /\ api.IssueMetadata.Receivers md = [receiver]
       /\ IssueAction.GetSerializedOutputs issue = Ok (api.IssueMetadata.Outputs md)
       /\ length (api.IssueMetadata.AuditInfos md) = 1%nat
       /\ token.Transfers (Actions t') = token.Transfers (Actions t)
       /\ api.Transfers (Metadata t') = api.Transfers (Metadata t).
Proof.
  unfold Issue. intros H.
  destruct (token.IsNone receiver); [discriminate H|]. split; [reflexivity|].
  destruct (Wrapf _ (GetIssuerIdentity wallet typ)) as [id| |]; cbn [orReturn] in H;
    [|discriminate H|discriminate H].
  destruct (tms_Issue id typ [q] [receiver]) as [[[issue0 tokenInfos] issuer]| |];
    cbn [orReturn fst snd] in H; [|discriminate H|discriminate H].
  destruct (IssueAction.Serialize issue0) as [raw| |] eqn:Hraw; cbn [orReturn] in H;
    [|discriminate H|discriminate H].
  destruct (IssueAction.GetSerializedOutputs issue0) as [outputs| |] eqn:Houts;
    cbn [orReturn] in H; [|discriminate H|discriminate H].
  destruct (GetAuditInfo receiver) as [auditInfo| |]; cbn [orReturn] in H;
    [|discriminate H|discriminate H].
  injection H as <- <-.
  eexists raw, _. repeat split; try reflexivity; assumption.
Qed.

(** *** The inputs of a request *)

Lemma inputsOf_ids (i : Z) (meta : api.TransferMetadata.t) (ids : list token.Id)
      (j : Z) (inputs : list Input.t) :
  inputsOf i meta ids j = Ok inputs ->
  Input.Id <$> inputs = ids /\ Forall (fun input => Input.ActionIndex input = i) inputs.
Proof.
  revert j inputs. induction ids as [|id rest IH]; intros j inputs H.
  - injection H as <-. split; constructor.
  - cbn [inputsOf] in H.
    apply rbind_Ok in H as (info & _ & H).
    apply rbind_Ok in H as (eID & _ & H).
    apply rbind_Ok in H as (owner & _ & H).
    apply rbind_Ok in H as (more & Hmore & H).
    injection H as <-. destruct (IH _ _ Hmore) as [Hids Hidx].
    split; [cbn; now rewrite Hids|constructor; [reflexivity|exact Hidx]].
Qed.

Lemma inputsFrom_ids (md : list api.TransferMetadata.t) (transfers : list bytes)
      (k : nat) (inputs : list Input.t) :
  inputsFrom md transfers (Z.of_nat k) = Ok inputs ->
  (k + length transfers <= length md \/ transfers = [])%nat
  /\ Input.Id <$> inputs
     = concat (api.TransferMetadata.TokenIDs <$> take (length transfers) (drop k md)).
Proof.
  revert k inputs. induction transfers as [|transfer rest IH]; intros k inputs H.
  - injection H as <-. split; [now right|reflexivity].
  - cbn [inputsFrom] in H.
    apply rbind_Ok in H as (meta & Hm & H). apply index_Ok in Hm.
    apply rbind_Ok in H as (ins & Hins & H).
    apply rbind_Ok in H as (more & Hmore & H).
    injection H as <-.
    replace (Z.of_nat k + 1) with (Z.of_nat (S k)) in Hmore by lia.
    destruct (IH _ _ Hmore) as [Hlen Hids].
    apply inputsOf_ids in Hins as [Hins _].
    split.
    + left. cbn [length]. apply lookup_lt_Some in Hm.
      destruct Hlen as [Hlen| ->]; cbn [length]; lia.
    + rewrite (drop_S _ _ _ Hm). cbn [length take fmap list_fmap concat].
      rewrite fmap_app, Hins, Hids. reflexivity.
Qed.

(** The inputs that [Request.Inputs] returns are the token ids of the
    transfer metadata, in order, of as many metadata as there are transfer
    actions; there are at least that many metadata.  With one metadata per
    transfer action they are the ids that the metadata's own [Inputs]
    lists. *)
Theorem Inputs_lists_metadata_ids (t : Request) (inputs : list Input.t) :
  Inputs t = Ok inputs ->
  (length (token.Transfers (Actions t)) <= length (api.Transfers (Metadata t)))%nat
  /\ Input.Id <$> inputs
     = concat (api.TransferMetadata.TokenIDs
                 <$> take (length (token.Transfers (Actions t)))
                          (api.Transfers (Metadata t)))
  /\ (length (token.Transfers (Actions t)) = length (api.Transfers (Metadata t)) ->
      Input.Id <$> inputs = api.Inputs (Metadata t)).
Proof.
  unfold Inputs. change 0 with (Z.of_nat 0). intros H.
  apply inputsFrom_ids in H as [Hlen Hids]. rewrite drop_0 in Hids.
  split; [|split].
  - destruct Hlen as [Hlen|Hnil]; [lia|]. rewrite Hnil. cbn. lia.
  - exact Hids.
  - intros Heq. rewrite Hids, Heq, firstn_all.
    unfold api.Inputs. rewrite api.foldl_app_concat. reflexivity.
Qed.

(** *** Importing a request *)

Lemma foldl_snoc {A} (l acc : list A) :
  foldl (fun acc x => acc ++ [x]) acc l = acc ++ l.
Proof.
  revert acc. induction l as [|x l IH]; intros acc; cbn.
  - now rewrite app_nil_r.
  - rewrite IH, <- app_assoc. reflexivity.
Qed.

Lemma wrap_int_mod (z : Z) :
  exists c, wrap_int z = z + 2 ^ 64 * c /\ - 2 ^ 63 <= wrap_int z < 2 ^ 63.
Proof.
  unfold wrap_int. exists (- ((z + 2 ^ 63) / 2 ^ 64)).
  pose proof (Z.div_mod (z + 2 ^ 63) (2 ^ 64) ltac:(lia)) as Hdm.
  pose proof (Z.mod_pos_bound (z + 2 ^ 63) (2 ^ 64) ltac:(lia)) as Hb.
  lia.
Qed.

Lemma countIssues_app (a b : list bytes) (sum : Z) :
  countIssues (a ++ b) sum = let? sum' := countIssues a sum in countIssues b sum'.
Proof.
  revert sum. induction a as [|i a IH]; intros sum; [reflexivity|].
  cbn. destruct (DeserializeIssueAction i); cbn; [apply IH|reflexivity|reflexivity].
Qed.

Lemma countTransfers_app (a b : list bytes) (sum : Z) :
  countTransfers (a ++ b) sum
  = let? sum' := countTransfers a sum in countTransfers b sum'.
Proof.
  revert sum. induction a as [|i a IH]; intros sum; [reflexivity|].
  cbn. destruct (DeserializeTransferAction i); cbn; [apply IH|reflexivity|reflexivity].
Qed.

(** A count that succeeds adds the same number, modulo [2^64], to any sum. *)
Lemma countIssues_adds (l : list bytes) (sum n : Z) :
  countIssues l sum = Ok n ->
  exists d, forall sum', - 2 ^ 63 <= sum' < 2 ^ 63 ->
    exists n' c, countIssues l sum' = Ok n'
                 /\ n' = sum' + d + 2 ^ 64 * c /\ - 2 ^ 63 <= n' < 2 ^ 63.
Proof.
  revert sum n. induction l as [|i l IH]; intros sum n H.
  - exists 0. intros sum' Hr. exists sum', 0. split; [reflexivity|lia].
  - cbn [countIssues] in H. apply rbind_Ok in H as (action & Ha & H).
    destruct (IH _ _ H) as (d & Hd).
    exists (IssueAction.NumOutputs action + d). intros sum' Hr.
    cbn [countIssues]. rewrite Ha. cbn [rbind]. unfold int_add.
    destruct (wrap_int_mod (sum' + IssueAction.NumOutputs action)) as (c1 & Hc1 & Hr1).
    destruct (Hd _ Hr1) as (n' & c2 & Hn' & Heq & Hr').
    exists n', (c1 + c2). split; [exact Hn'|]. lia.
Qed.

Lemma countTransfers_adds (l : list bytes) (sum n : Z) :
  countTransfers l sum = Ok n ->
  exists d, forall sum', - 2 ^ 63 <= sum' < 2 ^ 63 ->
    exists n' c, countTransfers l sum' = Ok n'
                 /\ n' = sum' + d + 2 ^ 64 * c /\ - 2 ^ 63 <= n' < 2 ^ 63.
Proof.
  revert sum n. induction l as [|i l IH]; intros sum n H.
  - exists 0. intros sum' Hr. exists sum', 0. split; [reflexivity|lia].
  - cbn [countTransfers] in H. apply rbind_Ok in H as (action & Ha & H).
    destruct (IH _ _ H) as (d & Hd).
    exists (TransferAction.NumOutputs action + d). intros sum' Hr.
    cbn [countTransfers]. rewrite Ha. cbn [rbind]. unfold int_add.
    destruct (wrap_int_mod (sum' + TransferAction.NumOutputs action))
      as (c1 & Hc1 & Hr1).
    destruct (Hd _ Hr1) as (n' & c2 & Hn' & Heq & Hr').
    exists n', (c1 + c2). split; [exact Hn'|]. lia.
Qed.

(** [Import] adds up what [IsValid] compares: where the outputs of two
    requests can be counted, and the two counts together are in the range of
    [int], the count of the request that has imported the other is their sum;
    its token infos are as many as those of the two requests together.  So a
    request made of two that pass the comparison of [IsValid] passes it, and
    [IsValid] goes on to [Verify]. *)
Theorem Import_adds_counts (t request : Request) (n k : Z) :
  countOutputs t = Ok n ->
  countOutputs request = Ok k ->
  - 2 ^ 63 <= n + k < 2 ^ 63 ->
  countOutputs (Import t request) = Ok (n + k)
  /\ length (api.TokenInfos (Metadata (Import t request)))
     = (length (api.TokenInfos (Metadata t))
        + length (api.TokenInfos (Metadata request)))%nat
  /\ (n = Z.of_nat (length (api.TokenInfos (Metadata t))) ->
      k = Z.of_nat (length (api.TokenInfos (Metadata request))) ->
      IsValid (Import t request) = Verify (Import t request)).
Proof.
  intros Ht Hr Hrange.
  assert (Hcount : countOutputs (Import t request) = Ok (n + k)
                   /\ length (api.TokenInfos (Metadata (Import t request)))
                      = (length (api.TokenInfos (Metadata t))
                         + length (api.TokenInfos (Metadata request)))%nat);
    [|destruct Hcount as [Hcount Hinfos]; split; [exact Hcount|split; [exact Hinfos|]];
      intros Hn Hk; unfold IsValid; rewrite Hcount; cbn [Wrapf rbind];
      rewrite Hinfos;
      destruct (Z.eqb_spec (n + k)
                  (Z.of_nat (length (api.TokenInfos (Metadata t))
                             + length (api.TokenInfos (Metadata request)))));
      [reflexivity|lia]].
  split.
  - unfold countOutputs in *. cbn [Import Actions token.Issues token.Transfers].
    rewrite !foldl_snoc, countIssues_app.
    apply rbind_Ok in Ht as (s1 & Hit & Htt).
    apply rbind_Ok in Hr as (s2 & Hir & Htr).
    destruct (countIssues_adds _ _ _ Hit) as (dit & Hdit).
    destruct (countTransfers_adds _ _ _ Htt) as (dtt & Hdtt).
    destruct (countIssues_adds _ _ _ Hir) as (dir & Hdir).
    destruct (countTransfers_adds _ _ _ Htr) as (dtr & Hdtr).
    assert (H0 : - 2 ^ 63 <= 0 < 2 ^ 63) by lia.
    destruct (Hdit 0 H0) as (s1' & c1 & E1 & Q1 & R1).
    rewrite Hit in E1. injection E1 as <-.
    destruct (Hdtt s1 R1) as (n' & c2 & E2 & Q2 & R2).
    rewrite Htt in E2. injection E2 as <-.
    destruct (Hdir 0 H0) as (s2' & c3 & E3 & Q3 & R3).
    rewrite Hir in E3. injection E3 as <-.
    destruct (Hdtr s2 R3) as (k' & c4 & E4 & Q4 & R4).
    rewrite Htr in E4. injection E4 as <-.
    rewrite Hit. cbn [rbind].
    destruct (Hdir s1 R1) as (a & c5 & E5 & Q5 & R5). rewrite E5. cbn [rbind].
    rewrite countTransfers_app.
    destruct (Hdtt a R5) as (b & c6 & E6 & Q6 & R6). rewrite E6. cbn [rbind].
    destruct (Hdtr b R6) as (m & c7 & E7 & Q7 & R7). rewrite E7.
    f_equal. lia.
  - rewrite !api.TokenInfos_concat. cbn [Import Metadata api.Issues api.Transfers].
    rewrite !foldl_snoc, !fmap_app, !concat_app, !length_app. lia.
Qed.

End Driver.

(** *** Runs with a concrete driver *)

(** A driver whose actions have one output and serialize to the bytes they
    were made from. *)
Definition demoAction (raw : bytes) : IssueAction.t :=
  {| IssueAction.Serialize := Ok raw;
     IssueAction.NumOutputs := 1;
     IssueAction.GetSerializedOutputs := Ok [raw];
     IssueAction.GetOutputs := [Ok raw] |}.

Definition demoTransferAction (raw : bytes) : TransferAction.t :=
  {| TransferAction.Serialize := Ok raw;
     TransferAction.NumOutputs := 1;
     TransferAction.GetOutputs := [Ok raw] |}.

Definition demoIssue (id : token.Identity) (typ : string) (values : list Z)
           (owners : list bytes)
  : result (IssueAction.t * list bytes * token.Identity) :=
  Ok (demoAction [x01], [[x11]], id).

Definition demoDeserializeToken (raw info : bytes) : result token.Token :=
  Ok {| token.Owner_ := {| token.Raw := token.bob |};
        token.Type_ := "ABC"; token.Quantity := "1" |}.

Definition demoWallet : IssuerWallet :=
  {| GetIssuerIdentity := fun _ => Ok token.alice |}.

Abbreviation demoVerify :=
  (Verify (fun raw => Ok (demoAction raw)) (fun raw => Ok (demoTransferAction raw))
          (fun _ _ => Ok tt) (fun _ _ => Ok tt)
          demoDeserializeToken (fun _ => Ok "alice"%string)).

Abbreviation demoAuditCheck :=
  (AuditCheck (fun raw => Ok (demoAction raw)) (fun raw => Ok (demoTransferAction raw))
              (fun _ _ => Ok tt) (fun _ _ => Ok tt)
              demoDeserializeToken (fun _ => Ok "alice"%string)
              (fun _ _ _ => Ok tt)).

Abbreviation demoIsValid :=
  (IsValid (fun raw => Ok (demoAction raw)) (fun raw => Ok (demoTransferAction raw))
           (fun _ _ => Ok tt) (fun _ _ => Ok tt)
           demoDeserializeToken (fun _ => Ok "alice"%string)).

Abbreviation demoCountOutputs :=
  (countOutputs (fun raw => Ok (demoAction raw))
                (fun raw => Ok (demoTransferAction raw))).

(** A fresh request after an issue to bob. *)
Definition issued : Request :=
  snd (Issue demoIssue (fun _ => Ok [x21]) (NewRequest "tx1") demoWallet
             token.bob "ABC" 1).

(** The same issue where the audit info of bob cannot be had. *)
Definition orphaned : Request :=
  snd (Issue demoIssue (fun _ => Err "no audit info") (NewRequest "tx1") demoWallet
             token.bob "ABC" 1).

(** A request of one issue and one transfer, with the metadata of [api]. *)
Definition demoRequest : Request :=
  {| TxID := "tx1";
     Actions := {| token.Issues := [[x01]]; token.Transfers := [[x02]];
                   token.Signatures := []; token.AuditorSignature := [] |};
     Metadata := api.demoMetadata |}.

Lemma Verify_checks_every_action_witness :
  demoVerify issued = Ok tt
  /\ exists action meta,
       action = demoAction [x01]
       /\ api.Issues (Metadata issued) !! 0%nat = Some meta
       /\ api.IssueMetadata.TokenInfo meta = [[x11]].
Proof.
  assert (H : demoVerify issued = Ok tt) by (vm_compute; reflexivity).
  split; [exact H|].
  destruct (Verify_checks_every_action _ _ _ _ _ _ issued H) as [Hissues _].
  destruct (Hissues 0%nat [x01] eq_refl) as (action & meta & Ha & Hm & _).
  exists action, meta. split; [cbn beta in Ha; congruence|]. split; [exact Hm|].
  vm_compute in Hm. injection Hm as <-. reflexivity.
Defined.

(** The request that the failed issue leaves behind makes [Verify] panic. *)
Lemma Verify_panics_past_metadata_witness :
  demoVerify orphaned = Panic "index out of range"
  /\ demoAuditCheck orphaned = Panic "index out of range".
Proof.
  apply (Verify_panics_past_metadata
           (fun raw => Ok (demoAction raw)) (fun raw => Ok (demoTransferAction raw))
           (fun _ _ => Ok tt) (fun _ _ => Ok tt)
           demoDeserializeToken (fun _ => Ok "alice"%string) (fun _ _ _ => Ok tt)
           orphaned [] [x01] [] (demoAction [x01])).
  - reflexivity.
  - constructor.
  - reflexivity.
Defined.

Lemma Issue_failure_keeps_action_witness :
  Issue demoIssue (fun _ => Err "no audit info") (NewRequest "tx1") demoWallet
        token.bob "ABC" 1
  = (Err "no audit info", appendIssue (NewRequest "tx1") [x01])
  /\ token.Issues (Actions (appendIssue (NewRequest "tx1") [x01]))
     = token.Issues (Actions (NewRequest "tx1")) ++ [[x01]]
  /\ Metadata (appendIssue (NewRequest "tx1") [x01]) = Metadata (NewRequest "tx1").
Proof.
  apply (Issue_failure_keeps_action
           demoIssue (fun _ => Err "no audit info") (NewRequest "tx1") demoWallet
           token.bob "ABC" 1 token.alice (demoAction [x01]) [[x11]] token.alice
           [x01] "no audit info").
  - reflexivity.
  - reflexivity.
  - reflexivity.
  - reflexivity.
  - right. split; reflexivity.
Defined.

Lemma Issue_appends_action_and_metadata_witness :
  Issue demoIssue (fun _ => Ok [x21]) (NewRequest "tx1") demoWallet token.bob "ABC" 1
  = (Ok (demoAction [x01]), issued)
  /\ token.IsNone token.bob = false.
Proof.
  assert (H : Issue demoIssue (fun _ => Ok [x21]) (NewRequest "tx1") demoWallet
                    token.bob "ABC" 1
              = (Ok (demoAction [x01]), issued)) by reflexivity.
  split; [exact H|].
  exact (proj1 (Issue_appends_action_and_metadata _ _ _ _ _ _ _ _ _ H)).
Defined.

Lemma Inputs_lists_metadata_ids_witness :
  Inputs (fun _ => Ok "alice"%string) demoRequest
  = Ok [{| Input.ActionIndex := 0; Input.Id := token.id0;
           Input.Owner := token.alice; Input.EnrollmentID := "alice" |}]
  /\ [token.id0] = api.Inputs (Metadata demoRequest).
Proof.
  assert (H : Inputs (fun _ => Ok "alice"%string) demoRequest
              = Ok [{| Input.ActionIndex := 0; Input.Id := token.id0;
                       Input.Owner := token.alice; Input.EnrollmentID := "alice" |}])
    by reflexivity.
  split; [exact H|].
  destruct (Inputs_lists_metadata_ids _ demoRequest _ H) as (_ & _ & Hids).
  exact (Hids eq_refl).
Defined.

(** The request of one issue imports itself: two outputs, two infos. *)
Lemma Import_adds_counts_witness :
  demoCountOutputs (Import issued issued) = Ok (1 + 1)
  /\ demoIsValid (Import issued issued) = demoVerify (Import issued issued).
Proof.
  destruct (Import_adds_counts
              (fun raw => Ok (demoAction raw)) (fun raw => Ok (demoTransferAction raw))
              (fun _ _ => Ok tt) (fun _ _ => Ok tt)
              demoDeserializeToken (fun _ => Ok "alice"%string)
              issued issued 1 1) as (Hcount & _ & Hvalid).
  - vm_compute. reflexivity.
  - vm_compute. reflexivity.
  - lia.
  - split; [exact Hcount|]. apply Hvalid; reflexivity.
Defined.

End request.

(** ** Package translator, continued: reading tokens by their ids

    [QueryTokens] takes ids of package token2, which is modelled above. *)
Module queries.
Import translator.

Section Keys.
Variable CreateTokenKey : string -> Z -> result string.

(** A call whose error the caller looks at instead of returning it. *)
Definition attempt {A} (m : M A) : M (result A) :=
  fun w =>
    match m w with
    | (Panic e, w') => (Panic e, w')
    | (r, w') => (Ok r, w')
    end.

(** The loop of [QueryTokens]: the outputs found and the errors met. *)
Fixpoint queryLoop (ids : list token.Id) (res : list bytes) (errs : list string)
  : M (list bytes * list string) :=
  match ids with
  | [] => ret (res, errs)
  | id :: rest =>
      do w <- self ;
      match CreateTokenKey (token.TxId id) (wrap_int (token.Index id)) with
      | Ok outputID =>
          do r <- attempt (GetState (namespace w) outputID) ;
          match r with
          | Ok bs =>
              if len bs =? 0
              then queryLoop rest res
                     (errs ++ ["output for key [" ++ outputID ++ "] does not exist"]%string)
              else queryLoop rest (res ++ [default [] bs]) errs
          | Err e =>
              queryLoop rest res
                (errs ++ ["failed getting output for [" ++ outputID ++ "]: " ++ e]%string)
          | Panic e => lift (Panic e)
          end
      | Err e => queryLoop rest res (errs ++ ["error creating output ID: " ++ e]%string)
      | Panic e => lift (Panic e)
      end
  end.

(** [QueryTokens]; the message of its error gives the number of errors met
    (the ids and the errors, which Go prints with [%v], are left out). *)
Definition QueryTokens (ids : list token.Id) : M (list bytes) :=
  do r <- queryLoop ids [] [] ;
  if negb (length (snd r) =? 0)%nat
  then raise ("failed quering tokens with errs [" ++ pretty (length (snd r)) ++ "]")
  else ret (fst r).

(** The token of [id] is on the ledger: its key holds the bytes [bs], which
    are not empty. *)
Definition stored (w : Translator) (id : token.Id) (bs : bytes) : Prop :=
  exists k, CreateTokenKey (token.TxId id) (wrap_int (token.Index id)) = Ok k
            /\ holds w k = Some bs /\ bs <> [].

Lemma queryLoop_spec (w : Translator) (ids : list token.Id) :
  forall (res0 : list bytes) (errs0 : list string),
  exists r,
    queryLoop ids res0 errs0 w = (r, w)
    /\ (forall res errs,
          r = Ok (res, errs) ->
          exists bss es,
            res = res0 ++ bss /\ errs = errs0 ++ es
            /\ (es = [] -> Forall2 (stored w) ids bss))
    /\ (forall bss, Forall2 (stored w) ids bss -> r = Ok (res0 ++ bss, errs0)).
Proof.
  induction ids as [|id rest IH]; intros res0 errs0.
  - exists (Ok (res0, errs0)). split; [reflexivity|]. split.
    + intros res errs [= <- <-]. exists [], []. rewrite !app_nil_r.
      repeat split. constructor.
    + intros bss H. inversion H. rewrite app_nil_r. reflexivity.
  - cbn [queryLoop]. unfold bind at 1, self at 1.
    destruct (CreateTokenKey (token.TxId id) (wrap_int (token.Index id)))
      as [k|e|e] eqn:Hk.
    + unfold bind at 1, attempt, GetState. cbn [fst snd].
      fold (holds w k).
      destruct (holds w k) as [bs|] eqn:Hh; cbn [len].
      * destruct (Z.eqb_spec (Z.of_nat (length bs)) 0) as [H0|H0].
        -- destruct (IH res0 (errs0 ++ ["output for key [" ++ k ++ "] does not exist"]%string))
             as (r & Hr & Hfw & Hbw).
           exists r. split; [exact Hr|]. split.
           ++ intros res errs Heq. destruct (Hfw res errs Heq) as (bss & es & -> & -> & _).
              exists bss, (("output for key [" ++ k ++ "] does not exist")%string :: es).
              split; [reflexivity|]. split; [rewrite <- app_assoc; reflexivity|].
              discriminate.
           ++ intros bss H. inversion H as [|? b ? bss' (k' & Hk' & Hh' & Hne) ?]; subst.
              rewrite Hk in Hk'. injection Hk' as <-. rewrite Hh in Hh'.
              injection Hh' as <-. destruct bs; [contradiction|discriminate H0].
        -- destruct (IH (res0 ++ [bs]) errs0) as (r & Hr & Hfw & Hbw).
           exists r. split; [exact Hr|]. split.
           ++ intros res errs Heq. destruct (Hfw res errs Heq) as (bss & es & -> & -> & Hall).
              exists (bs :: bss), es.
              split; [rewrite <- app_assoc; reflexivity|]. split; [reflexivity|].
              intros Hes. constructor; [|apply Hall, Hes].
              exists k. split; [exact Hk|]. split; [exact Hh|].
              intros ->. apply H0. reflexivity.
           ++ intros bss H. inversion H as [|? b ? bss' (k' & Hk' & Hh' & Hne) Hrest]; subst.
              rewrite Hk in Hk'. injection Hk' as <-. rewrite Hh in Hh'.
              injection Hh' as <-. rewrite (Hbw bss' Hrest), <- app_assoc. reflexivity.
      * cbn [Z.eqb].
        destruct (IH res0 (errs0 ++ ["output for key [" ++ k ++ "] does not exist"]%string))
          as (r & Hr & Hfw & Hbw).
        exists r. split; [exact Hr|]. split.
        -- intros res errs Heq. destruct (Hfw res errs Heq) as (bss & es & -> & -> & _).
           exists bss, (("output for key [" ++ k ++ "] does not exist")%string :: es).
           split; [reflexivity|]. split; [rewrite <- app_assoc; reflexivity|].
           discriminate.
        -- intros bss H. inversion H as [|? b ? bss' (k' & Hk' & Hh' & Hne) ?]; subst.
           rewrite Hk in Hk'. injection Hk' as <-. rewrite Hh in Hh'. discriminate Hh'.
    + destruct (IH res0 (errs0 ++ ["error creating output ID: " ++ e]%string))
        as (r & Hr & Hfw & Hbw).
      exists r. split; [exact Hr|]. split.
      * intros res errs Heq. destruct (Hfw res errs Heq) as (bss & es & -> & -> & _).
        exists bss, (("error creating output ID: " ++ e)%string :: es).
        split; [reflexivity|]. split; [rewrite <- app_assoc; reflexivity|].
        discriminate.
      * intros bss H. inversion H as [|? b ? bss' (k' & Hk' & _) ?]; subst.
        rewrite Hk in Hk'. discriminate Hk'.
    + exists (Panic e). split; [reflexivity|]. split.
      * intros res errs Heq. discriminate Heq.
      * intros bss H. inversion H as [|? b ? bss' (k' & Hk' & _) ?]; subst.
        rewrite Hk in Hk'. discriminate Hk'.
Qed.

(** [QueryTokens] writes nothing, and it returns outputs exactly when every
    id derives a key that holds a token: the outputs are those tokens, in the
    order of the ids.  One id without a token makes the whole query fail. *)
Theorem QueryTokens_all_or_nothing (ids : list token.Id) (w : Translator) :
  snd (QueryTokens ids w) = w
  /\ forall res, fst (QueryTokens ids w) = Ok res <-> Forall2 (stored w) ids res.
Proof.
  destruct (queryLoop_spec w ids [] []) as (r & Hr & Hfw & Hbw).
  unfold QueryTokens, bind. rewrite Hr.
  destruct r as [[res errs]|e|e]; cbn [fst snd].
  - destruct (Hfw res errs eq_refl) as (bss & es & Hres & Herrs & Hall).
    cbn in Hres, Herrs. subst res errs.
    destruct es as [|m es]; cbn.
    + split; [reflexivity|]. intros res. split.
      * intros [= <-]. apply Hall. reflexivity.
      * intros H. apply Hbw in H. injection H as ->. reflexivity.
    + split; [reflexivity|]. intros res. split; [discriminate|].
      intros H. apply Hbw in H. discriminate H.
  - split; [reflexivity|]. intros res. split; [discriminate|].
    intros H. apply Hbw in H. discriminate H.
  - split; [reflexivity|]. intros res. split; [discriminate|].
    intros H. apply Hbw in H. discriminate H.
Qed.

End Keys.

End queries.

(** ** Package selector (token/services/selector)

    The selector picks unspent tokens of a type until their sum reaches the
    amount asked for, locking each one for its transaction.  The vault, the
    locker, the certification client and the quantities of package token2 are
    interfaces: what they answer is given, round by round. *)
Module selector.

Record UnspentToken : Type := {
  Id : token.Id;
  Owner : token.Owner;
  Type_ : string;
  Quantity_ : string
}.

(** [c <= 0] and [c != 0] for the result [c] of [Cmp]. *)
Definition le0 (c : comparison) : bool :=
  match c with Gt => false | _ => true end.
Definition ne0 (c : comparison) : bool :=
  match c with Eq => false | _ => true end.

Section Services.

(** Package token2: quantities. *)
Variable Quantity : Type.
Variable ToQuantity : string -> Z -> result Quantity.
Variable NewZeroQuantity : Z -> Quantity.
Variable Add : Quantity -> Quantity -> Quantity.
Variable Cmp : Quantity -> Quantity -> comparison.

(** How [%s] prints a quantity, and the messages of the errors of package
    token that a failed selection is reported with. *)
Variable Show : Quantity -> string.
Variable SelectorSufficientFundsButConcurrencyIssue : string.
Variable SelectorSufficientButLockedFunds : string.
Variable SelectorSufficientButNotCertifiedFunds : string.
Variable SelectorInsufficientFunds : string.

(** The locker and its state. *)
Variable Locker : Type.
Variable Lock : token.Id -> string -> Locker -> result string * Locker.
Variable UnlockIDs : list token.Id -> Locker -> Locker.

(** The query service and the certification client, at round [i]. *)
Variable ListUnspentTokens : nat -> result (list UnspentToken).
Variable GetTokens : nat -> list token.Id -> result unit.

Record CertClient : Type := {
  IsCertified : nat -> token.Id -> bool;
  RequestCertification : nat -> list token.Id -> result unit
}.

Record selector : Type := {
  txID : string;
  certClient : option CertClient;
  precision : Z;
  numRetry : Z;
  requestCertification : bool
}.

(** What a round has gathered. *)
Record picks : Type := {
  toBeSpent : list token.Id;
  sum : Quantity;
  potentialSumWithLocked : Quantity;
  potentialSumWithNonCertified : Quantity;
  toBeCertified : list token.Id;
  locked : list token.Id
}.

Definition noPicks (s : selector) : picks :=
  {| toBeSpent := [];
     sum := NewZeroQuantity (precision s);
     potentialSumWithLocked := NewZeroQuantity (precision s);
     potentialSumWithNonCertified := NewZeroQuantity (precision s);
     toBeCertified := [];
     locked := [] |}.

(** [s.certClient != nil && !s.certClient.IsCertified(t.Id)]. *)
Definition notCertified (s : selector) (i : nat) (id : token.Id) : bool :=
  match certClient s with
  | Some c => negb (IsCertified c i id)
  | None => false
  end.

(** [for _, t := range unspentTokens.Tokens] of round [i]. *)
Fixpoint selectTokens (s : selector) (Contains : token.Identity -> bool)
         (target : Quantity) (tokenType : string) (i : nat)
         (tokens : list UnspentToken) (st : picks) (lk : Locker)
  : result picks * Locker :=
  match tokens with
  | [] => (Ok st, lk)
  | t :: rest =>
      match ToQuantity (Quantity_ t) (precision s) with
      | Ok q =>
          (* check type and ownership *)
          if negb (String.eqb (Type_ t) tokenType)
          then selectTokens s Contains target tokenType i rest st lk
          else if negb (Contains (token.Raw (Owner t)))
          then selectTokens s Contains target tokenType i rest st lk
          else
            (* lock the token *)
            match Lock (Id t) (txID s) lk with
            | (Ok _, lk') =>
                (* check certification, if needed *)
                if notCertified s i (Id t) then
                  selectTokens s Contains target tokenType i rest
                    {| toBeSpent := toBeSpent st;
                       sum := sum st;
                       potentialSumWithLocked := potentialSumWithLocked st;
                       potentialSumWithNonCertified :=
                         Add (potentialSumWithNonCertified st) q;
                       toBeCertified := toBeCertified st ++ [Id t];
                       locked := locked st |} lk'
                else
                  (* append token *)
                  let st' :=
                    {| toBeSpent := toBeSpent st ++ [Id t];
                       sum := Add (sum st) q;
                       potentialSumWithLocked := Add (potentialSumWithLocked st) q;
                       potentialSumWithNonCertified :=
                         Add (potentialSumWithNonCertified st) q;
                       toBeCertified := toBeCertified st;
                       locked := locked st |} in
                  if le0 (Cmp target (sum st')) then (Ok st', lk')
                  else selectTokens s Contains target tokenType i rest st' lk'
            | (Err _, lk') =>
                selectTokens s Contains target tokenType i rest
                  {| toBeSpent := toBeSpent st;
                     sum := sum st;
                     potentialSumWithLocked := Add (potentialSumWithLocked st) q;
                     potentialSumWithNonCertified := potentialSumWithNonCertified st;
                     toBeCertified := toBeCertified st;
                     locked := locked st ++ [Id t] |} lk'
            | (Panic e, lk') => (Panic e, lk')
            end
      | Err e =>
          (Err ("failed to convert quantity: " ++ e),
           UnlockIDs (toBeCertified st) (UnlockIDs (toBeSpent st) lk))
      | Panic e => (Panic e, lk)
      end
  end.

Definition concurrencyCheck (i : nat) (ids : list token.Id) : result unit :=
  GetTokens i ids.

(** How a round that found no tokens to return fails when no retry is left:
    [errors.WithMessagef(err, format, ...)] puts the formatted text in front
    of the message of [err]. *)
Definition failure (concurrencyIssue : bool) (target : Quantity) (tokenType : string)
           (st : picks) : string :=
  if concurrencyIssue then
    ("token selection failed: sufficient funs but concurrency issue, potential ["
       ++ Show (potentialSumWithLocked st) ++ "] tokens of type [" ++ tokenType
       ++ "] were available: " ++ SelectorSufficientFundsButConcurrencyIssue)%string
  else if le0 (Cmp target (potentialSumWithLocked st))
          && ne0 (Cmp (potentialSumWithLocked st) (sum st)) then
    ("token selection failed: sufficient but partially locked funds, potential ["
       ++ Show (potentialSumWithLocked st) ++ "] tokens of type [" ++ tokenType
       ++ "] are available: " ++ SelectorSufficientButLockedFunds)%string
  else if le0 (Cmp target (potentialSumWithNonCertified st))
          && ne0 (Cmp (potentialSumWithNonCertified st) (sum st)) then
    ("token selection failed: sufficient but partially not certified, potential ["
       ++ Show (potentialSumWithNonCertified st) ++ "] tokens of type ["
       ++ tokenType ++ "] are available: " ++ SelectorSufficientButNotCertifiedFunds)%string
  else
    ("token selection failed: insufficient funds, only [" ++ Show (sum st)
       ++ "] tokens of type [" ++ tokenType ++ "] are available: "
       ++ SelectorInsufficientFunds)%string.

(** The part of a round after the tokens are gone through: the tokens to
    return, or whether a concurrency issue was met. *)
Definition conclude (s : selector) (target : Quantity) (i : nat) (st : picks)
  : result (option (list token.Id * Quantity) * bool) :=
  let first :=
    if le0 (Cmp target (sum st)) then
      match concurrencyCheck i (toBeSpent st) with
      | Ok _ => Ok (Some (toBeSpent st, sum st), false)
      | Err _ => Ok (None, true)
      | Panic e => Panic e
      end
    else Ok (None, false) in
  let? r := first in
  match r with
  | (Some found, _) => Ok (Some found, false)
  | (None, concurrencyIssue) =>
      (* maybe it is a certification issue? *)
      if negb concurrencyIssue
         && le0 (Cmp target (potentialSumWithNonCertified st))
         && requestCertification s then
        match certClient s with
        | None => Panic "invalid memory address or nil pointer dereference"
        | Some c =>
            match RequestCertification c i (toBeCertified st) with
            | Ok _ =>
                let ids := toBeSpent st ++ toBeCertified st in
                match concurrencyCheck i ids with
                | Ok _ => Ok (Some (ids, potentialSumWithNonCertified st), false)
                | Err _ => Ok (None, true)
                | Panic e => Panic e
                end
            | Err _ => Ok (None, concurrencyIssue)
            | Panic e => Panic e
            end
        end
      else Ok (None, concurrencyIssue)
  end.

(** The rounds of [Select]: round [i], with [retries] rounds left after it
    ([i++; if i >= s.numRetry] fails when none is left). *)
Fixpoint rounds (s : selector) (Contains : token.Identity -> bool)
         (target : Quantity) (tokenType : string) (retries : nat) (i : nat)
         (lk : Locker) : result (list token.Id * Quantity) * Locker :=
  match Wrapf "token selection failed" (ListUnspentTokens i) with
  | Ok tokens =>
      match selectTokens s Contains target tokenType i tokens (noPicks s) lk with
      | (Ok st, lk1) =>
          match conclude s target i st with
          | Ok (Some found, _) => (Ok found, lk1)
          | Ok (None, concurrencyIssue) =>
              (* unlock and check the conditions for a retry *)
              let lk2 := UnlockIDs (toBeCertified st) (UnlockIDs (toBeSpent st) lk1) in
              match retries with
              | O => (Err (failure concurrencyIssue target tokenType st), lk2)
              | S retries' => rounds s Contains target tokenType retries' (S i) lk2
              end
          | Err e => (Err e, lk1)
          | Panic e => (Panic e, lk1)
          end
      | (Err e, lk1) => (Err e, lk1)
      | (Panic e, lk1) => (Panic e, lk1)
      end
  | Err e => (Err e, lk)
  | Panic e => (Panic e, lk)
  end.

(** [Select]; a nil [ownerFilter] is the filter [allOwners]. *)
Definition Select (s : selector) (ownerFilter : option (token.Identity -> bool))
           (q tokenType : string) (lk : Locker)
  : result (list token.Id * Quantity) * Locker :=
  let Contains := default (fun _ => true) ownerFilter in
  match ToQuantity q (precision s) with
  | Ok target =>
      rounds s Contains target tokenType (Z.to_nat (numRetry s - 1)) 0 lk
  | Err e => (Err ("failed to convert quantity: " ++ e), lk)
  | Panic e => (Panic e, lk)
  end.

(** *** What a selection returns *)

(** The token of [id] is listed, of the type asked for and of an owner that
    the filter contains. *)
Definition eligible (Contains : token.Identity -> bool) (tokenType : string)
           (tokens : list UnspentToken) (id : token.Id) : Prop :=
  exists t, t ∈ tokens /\ Id t = id /\ Type_ t = tokenType
            /\ Contains (token.Raw (Owner t)) = true.

(** [Lock] took the token of [id] for the transaction of [s]. *)
Definition lockedFor (s : selector) (id : token.Id) : Prop :=
  exists lk0 r lk1, Lock id (txID s) lk0 = (Ok r, lk1).

Lemma selectTokens_picks (s : selector) (Contains : token.Identity -> bool)
      (target : Quantity) (tokenType : string) (i : nat) (all : list UnspentToken) :
  forall (tokens : list UnspentToken) (st st' : picks) (lk lk' : Locker),
    selectTokens s Contains target tokenType i tokens st lk = (Ok st', lk') ->
    (forall t, t ∈ tokens -> t ∈ all) ->
    (forall id, id ∈ toBeSpent st ++ toBeCertified st ->
                eligible Contains tokenType all id /\ lockedFor s id) ->
    forall id, id ∈ toBeSpent st' ++ toBeCertified st' ->
               eligible Contains tokenType all id /\ lockedFor s id.
Proof.
  induction tokens as [|t rest IH]; intros st st' lk lk' H Hall Hst.
  - cbn in H. injection H as <- <-. exact Hst.
  - cbn [selectTokens] in H.
    assert (Hrest : forall t', t' ∈ rest -> t' ∈ all)
      by (intros t' Ht'; apply Hall; right; exact Ht').
    destruct (ToQuantity (Quantity_ t) (precision s)) as [q|e|e]; try discriminate H.
    destruct (String.eqb_spec (Type_ t) tokenType) as [Hty|_]; cbn [negb] in H;
      [|eapply IH; eassumption].
    destruct (Contains (token.Raw (Owner t))) eqn:Hown; cbn [negb] in H;
      [|eapply IH; eassumption].
    assert (Ht : forall r lk1, Lock (Id t) (txID s) lk = (Ok r, lk1) ->
                 eligible Contains tokenType all (Id t) /\ lockedFor s (Id t)).
    { intros r lk1 Hl. split.
      - exists t. split; [apply Hall; left|]. repeat split; assumption.
      - exists lk, r, lk1. exact Hl. }
    destruct (Lock (Id t) (txID s) lk) as [[r|e|e] lk1] eqn:Hlock;
      [|eapply IH; eassumption|discriminate H].
    specialize (Ht r lk1 eq_refl).
    destruct (notCertified s i (Id t)).
    + eapply IH; [exact H|exact Hrest|]. cbn [toBeSpent toBeCertified].
      intros id Hid. rewrite app_assoc in Hid.
      apply elem_of_app in Hid as [Hid|Hid]; [apply Hst, Hid|].
      apply list_elem_of_singleton in Hid as ->. exact Ht.
    + assert (Hst' : forall id,
                id ∈ (toBeSpent st ++ [Id t]) ++ toBeCertified st ->
                eligible Contains tokenType all id /\ lockedFor s id).
      { intros id Hid. apply elem_of_app in Hid as [Hid|Hid].
        - apply elem_of_app in Hid as [Hid|Hid];
            [apply Hst, elem_of_app; left; exact Hid|].
          apply list_elem_of_singleton in Hid as ->. exact Ht.
        - apply Hst, elem_of_app. right. exact Hid. }
      match type of H with
      | (if ?c then _ else _) = _ => destruct c
      end.
      * injection H as <- <-. exact Hst'.
      * eapply IH; [exact H|exact Hrest|exact Hst'].
Qed.

Lemma conclude_found (s : selector) (target : Quantity) (i : nat) (st : picks)
      (ids : list token.Id) (total : Quantity) (b : bool) :
  conclude s target i st = Ok (Some (ids, total), b) ->
  le0 (Cmp target total) = true
  /\ GetTokens i ids = Ok tt
  /\ forall id, id ∈ ids -> id ∈ toBeSpent st ++ toBeCertified st.
Proof.
  unfold conclude, concurrencyCheck. intros H.
  destruct (le0 (Cmp target (sum st))) eqn:Hsum.
  - destruct (GetTokens i (toBeSpent st)) as [[]|e|e] eqn:Hcheck; cbn in H.
    + injection H as <- <- <-. split; [exact Hsum|]. split; [exact Hcheck|].
      intros id Hid. apply elem_of_app. left. exact Hid.
    + discriminate H.
    + discriminate H.
  - cbn in H.
    destruct (le0 (Cmp target (potentialSumWithNonCertified st))) eqn:Hpot;
      cbn in H; [|discriminate H].
    destruct (requestCertification s); [|discriminate H].
    destruct (certClient s) as [c|]; [|discriminate H].
    destruct (RequestCertification c i (toBeCertified st)) as [u|e|e];
      try discriminate H.
    destruct (GetTokens i (toBeSpent st ++ toBeCertified st)) as [[]|e|e] eqn:Hcheck;
      try discriminate H.
    injection H as <- <- <-. split; [exact Hpot|]. split; [exact Hcheck|].
    intros id Hid. exact Hid.
Qed.

Lemma rounds_found (s : selector) (Contains : token.Identity -> bool)
      (target : Quantity) (tokenType : string) (retries : nat) :
  forall (i : nat) (lk lk' : Locker) (ids : list token.Id) (total : Quantity),
    rounds s Contains target tokenType retries i lk = (Ok (ids, total), lk') ->
    exists (j : nat) (tokens : list UnspentToken),
      (i <= j <= i + retries)%nat
      /\ ListUnspentTokens j = Ok tokens
      /\ le0 (Cmp target total) = true
      /\ GetTokens j ids = Ok tt
      /\ forall id, id ∈ ids ->
                    eligible Contains tokenType tokens id /\ lockedFor s id.
Proof.
  induction retries as [|retries IH]; intros i lk lk' ids total H;
    cbn [rounds] in H;
    destruct (ListUnspentTokens i) as [tokens|e|e] eqn:Hlist; cbn [Wrapf] in H;
    try discriminate H;
    destruct (selectTokens s Contains target tokenType i tokens (noPicks s) lk)
      as [[st|e|e] lk1] eqn:Hsel; try discriminate H;
    destruct (conclude s target i st) as [[[[ids' total']|] b]|e|e] eqn:Hcon;
    try discriminate H.
  1, 2: injection H as <- <- <-; exists i, tokens;
    apply conclude_found in Hcon as (Hle & Hcheck & Hin);
    split; [lia|]; split; [exact Hlist|]; split; [exact Hle|];
    split; [exact Hcheck|];
    intros id Hid;
    apply (selectTokens_picks s Contains target tokenType i tokens tokens
             (noPicks s) st lk lk1 Hsel);
    [intros t Ht; exact Ht|intros id' Hid'; inversion Hid'|apply Hin, Hid].
  apply IH in H as (j & tokens' & Hj & Hrest). exists j, tokens'.
  split; [lia|exact Hrest].
Qed.

(** When [Select] returns tokens, their sum is at least the amount asked for
    ([target.Cmp(sum) <= 0]); they were found in one round, among the first
    [numRetry] (or in the first), in which the vault confirmed them; and each
    of them is a listed token of the type asked for, of an owner in the
    filter, that [Lock] took for the transaction. *)
Theorem Select_returns_enough (s : selector)
        (ownerFilter : option (token.Identity -> bool)) (q tokenType : string)
        (lk lk' : Locker) (ids : list token.Id) (total : Quantity) :
  Select s ownerFilter q tokenType lk = (Ok (ids, total), lk') ->
  exists (target : Quantity) (j : nat) (tokens : list UnspentToken),
    ToQuantity q (precision s) = Ok target
    /\ le0 (Cmp target total) = true
    /\ Z.of_nat j < Z.max 1 (numRetry s)
    /\ ListUnspentTokens j = Ok tokens
    /\ GetTokens j ids = Ok tt
    /\ forall id, id ∈ ids ->
                  eligible (default (fun _ => true) ownerFilter) tokenType tokens id
                  /\ lockedFor s id.
Proof.
  unfold Select. intros H.
  destruct (ToQuantity q (precision s)) as [target|e|e]; try discriminate H.
  apply rounds_found in H as (j & tokens & Hj & Hlist & Hle & Hcheck & Hids).
  exists target, j, tokens. split; [reflexivity|]. split; [exact Hle|].
  split; [lia|]. split; [exact Hlist|]. split; [exact Hcheck|exact Hids].
Qed.

(** *** Without a certification client *)

Section NoPanics.
Hypothesis ToQuantity_returns : forall q p e, ToQuantity q p <> Panic e.
Hypothesis Lock_returns : forall id tx lk e, fst (Lock id tx lk) <> Panic e.
Hypothesis ListUnspentTokens_returns : forall i e, ListUnspentTokens i <> Panic e.
Hypothesis GetTokens_returns : forall i ids e, GetTokens i ids <> Panic e.
Variable s : selector.
Hypothesis no_client : certClient s = None.

(** Nothing is set aside for certification, and the sum with the uncertified
    tokens is the sum. *)
Definition plain (st : picks) : Prop :=
  potentialSumWithNonCertified st = sum st /\ toBeCertified st = [].

Lemma selectTokens_plain (Contains : token.Identity -> bool) (target : Quantity)
      (tokenType : string) (i : nat) :
  forall (tokens : list UnspentToken) (st : picks) (lk : Locker),
    plain st ->
    match selectTokens s Contains target tokenType i tokens st lk with
    | (Ok st', _) => plain st'
    | (Err _, _) => True
    | (Panic _, _) => False
    end.
Proof.
  induction tokens as [|t rest IH]; intros st lk Hst; cbn [selectTokens];
    [exact Hst|].
  pose proof (ToQuantity_returns (Quantity_ t) (precision s)) as HQ.
  destruct (ToQuantity (Quantity_ t) (precision s)) as [q|e|e];
    [|exact I|exact (HQ e eq_refl)].
  destruct (negb (String.eqb (Type_ t) tokenType)); [apply IH, Hst|].
  destruct (negb (Contains (token.Raw (Owner t)))); [apply IH, Hst|].
  pose proof (Lock_returns (Id t) (txID s) lk) as HL.
  destruct (Lock (Id t) (txID s) lk) as [[r|e|e] lk1]; cbn [fst] in HL;
    [| |exact (HL e eq_refl)].
  - unfold notCertified. rewrite no_client.
    destruct Hst as [Hsum Hcert].
    assert (Hst' : plain
              {| toBeSpent := toBeSpent st ++ [Id t];
                 sum := Add (sum st) q;
                 potentialSumWithLocked := Add (potentialSumWithLocked st) q;
                 potentialSumWithNonCertified := Add (potentialSumWithNonCertified st) q;
                 toBeCertified := toBeCertified st;
                 locked := locked st |})
      by (split; cbn; [rewrite Hsum; reflexivity|exact Hcert]).
    match goal with
    | |- context [if ?c then _ else _] => destruct c
    end; [exact Hst'|apply IH, Hst'].
  - apply IH. destruct Hst as [Hsum Hcert]. split; cbn; assumption.
Qed.

Lemma conclude_plain (target : Quantity) (i : nat) (st : picks) (e : string) :
  plain st -> conclude s target i st <> Panic e.
Proof.
  intros [Hsum _]. unfold conclude, concurrencyCheck. rewrite Hsum.
  destruct (le0 (Cmp target (sum st))).
  - pose proof (GetTokens_returns i (toBeSpent st)) as HG.
    destruct (GetTokens i (toBeSpent st)) as [[]|e'|e']; cbn;
      [discriminate|discriminate|exact (fun _ => HG e' eq_refl)].
  - cbn. discriminate.
Qed.

Lemma rounds_plain (Contains : token.Identity -> bool) (target : Quantity)
      (tokenType : string) (retries : nat) (e : string) :
  forall (i : nat) (lk : Locker),
    fst (rounds s Contains target tokenType retries i lk) <> Panic e.
Proof.
  induction retries as [|retries IH]; intros i lk; cbn [rounds];
    pose proof (ListUnspentTokens_returns i) as HU;
    destruct (ListUnspentTokens i) as [tokens|e'|e']; cbn [Wrapf];
    try (cbn; discriminate); try (exfalso; exact (HU e' eq_refl));
    pose proof (selectTokens_plain Contains target tokenType i tokens (noPicks s) lk
                  ltac:(split; reflexivity)) as Hsel;
    destruct (selectTokens s Contains target tokenType i tokens (noPicks s) lk)
      as [[st|e'|e'] lk1]; try (cbn; discriminate); try contradiction;
    pose proof (conclude_plain target i st) as Hcon;
    destruct (conclude s target i st) as [[[found|] b]|e'|e'];
    try (cbn; discriminate); try (exfalso; exact (Hcon e' Hsel eq_refl)).
  apply IH.
Qed.

(** A selector without a certification client never asks it for anything:
    when the services it calls return, [Select] returns too (there is no nil
    dereference), whether or not [requestCertification] is set. *)
Theorem Select_without_client_returns
        (ownerFilter : option (token.Identity -> bool)) (q tokenType : string)
        (lk : Locker) (e : string) :
  fst (Select s ownerFilter q tokenType lk) <> Panic e.
Proof.
  unfold Select. pose proof (ToQuantity_returns q (precision s)) as HQ.
  destruct (ToQuantity q (precision s)) as [target|e'|e'];
    [apply rounds_plain|cbn; discriminate|exfalso; exact (HQ e' eq_refl)].
Qed.

End NoPanics.

End Services.

(** *** A selection on a concrete vault

    Quantities are numbers written in decimal; the locker is the list of the
    ids it holds; the vault lists 30 ABC and 80 ABC of alice and 50 XYZ of
    bob, and confirms every token; there is no certification client. *)
Definition sameId (a b : token.Id) : bool :=
  String.eqb (token.TxId a) (token.TxId b) && (token.Index a =? token.Index b).

Definition demoToQuantity (q : string) (precision : Z) : result Z :=
  match token.demoToQuantity q precision with
  | Some z => Ok z
  | None => Err "invalid quantity"
  end.

Definition demoLock (id : token.Id) (tx : string) (lk : list token.Id)
  : result string * list token.Id :=
  if existsb (sameId id) lk then (Err "already locked", lk) else (Ok tx, id :: lk).

Definition demoUnlockIDs (ids : list token.Id) (lk : list token.Id) : list token.Id :=
  List.filter (fun x => negb (existsb (sameId x) ids)) lk.

Definition demoUnspent : list UnspentToken :=
  [ {| Id := token.id0; Owner := {| token.Raw := token.alice |};
       Type_ := "ABC"; Quantity_ := "30" |};
    {| Id := token.id1; Owner := {| token.Raw := token.bob |};
       Type_ := "XYZ"; Quantity_ := "50" |};
    {| Id := {| token.TxId := "tx1"; token.Index := 0 |};
       Owner := {| token.Raw := token.alice |};
       Type_ := "ABC"; Quantity_ := "80" |} ].

Definition demoSelector : selector :=
  {| txID := "tx7"; certClient := None; precision := 64; numRetry := 3;
     requestCertification := true |}.

Abbreviation demoSelect :=
  (Select Z demoToQuantity (fun _ => 0) Z.add Z.compare pretty
          "sufficient funds but concurrency issue"
          "sufficient but partially locked funds"
          "sufficient but not certified funds"
          "insufficient funds"
          (list token.Id) demoLock demoUnlockIDs
          (fun _ => Ok demoUnspent) (fun _ _ => Ok tt)).

(** 100 ABC are asked for: the tokens of alice are taken, 110 together. *)
Lemma Select_returns_enough_witness :
  exists (target : Z) (j : nat) (tokens : list UnspentToken),
    demoToQuantity "100" 64 = Ok target
    /\ le0 (target ?= 110) = true
    /\ Z.of_nat j < Z.max 1 3
    /\ Ok demoUnspent = Ok tokens
    /\ Ok tt = Ok tt
    /\ forall id,
         id ∈ [token.id0; {| token.TxId := "tx1"; token.Index := 0 |}] ->
         eligible (default (fun _ => true) None) "ABC" tokens id
         /\ lockedFor (list token.Id) demoLock demoSelector id.
Proof.
  apply (Select_returns_enough Z demoToQuantity (fun _ => 0) Z.add Z.compare pretty
           "sufficient funds but concurrency issue"
           "sufficient but partially locked funds"
           "sufficient but not certified funds"
           "insufficient funds"
           (list token.Id) demoLock demoUnlockIDs
           (fun _ => Ok demoUnspent) (fun _ _ => Ok tt)
           demoSelector None "100" "ABC" []
           [{| token.TxId := "tx1"; token.Index := 0 |}; token.id0]
           [token.id0; {| token.TxId := "tx1"; token.Index := 0 |}] 110).
  vm_compute. reflexivity.
Defined.

Lemma Select_without_client_returns_witness :
  fst (demoSelect demoSelector None "100" "ABC" []) <> Panic "nil".
Proof.
  apply (Select_without_client_returns Z demoToQuantity (fun _ => 0) Z.add Z.compare
           pretty
           "sufficient funds but concurrency issue"
           "sufficient but partially locked funds"
           "sufficient but not certified funds"
           "insufficient funds"
           (list token.Id) demoLock demoUnlockIDs
           (fun _ => Ok demoUnspent) (fun _ _ => Ok tt)).
  - intros q p e. unfold demoToQuantity.
    destruct (token.demoToQuantity q p); discriminate.
  - intros id tx lk e. unfold demoLock.
    destruct (existsb (sameId id) lk); cbn; discriminate.
  - intros i e. discriminate.
  - intros i ids e. discriminate.
  - reflexivity.
Defined.

End selector.

(** ** Package selector, provider.go: the provider of selector managers *)
Module provider.

Section Provider.

Variable Locker : Type.
Variable QueryService : Type.
Variable CertificationClient : Type.

(** What [SelectorManager] reads of the management service that
    [token.GetManagementService] returns for a network, a channel and a
    namespace. *)
Record ManagementService : Type := {
  Network : string;
  Channel : string;
  Namespace : string;
  NewQueryEngine : unit -> QueryService;
  CertificationClient_ : CertificationClient
}.

(** [token.GetManagementService] panics where it has no service to return. *)
Variable GetManagementService : string -> string -> string -> result ManagementService.

(** [LockerProvider.New]. *)
Variable New : string -> string -> string -> Locker.

Record selectorService : Type := {
  numRetry : Z;
  timeout : Z;
  requestCertification : bool;
  lockers : gmap string Locker
}.

Definition NewProvider (numRetry timeout : Z) : selectorService :=
  {| lockers := ∅; numRetry := numRetry; timeout := timeout;
     requestCertification := true |}.

(** What [newManager] is called with. *)
Record manager : Type := {
  locker : Locker;
  queryService : unit -> QueryService;
  certClient : CertificationClient;
  manager_numRetry : Z;
  manager_timeout : Z;
  manager_requestCertification : bool
}.

(** [SelectorManager], under its lock: the outcome and the service after the
    call. *)
Definition SelectorManager (s : selectorService) (network channel namespace : string)
  : result manager * selectorService :=
  match GetManagementService network channel namespace with
  | Ok tms =>
      let key := (Network tms ++ Channel tms ++ Namespace tms)%string in
      let ls :=
        match lockers s !! key with
        | Some locker => (locker, s)
        | None =>
            let locker := New network channel namespace in
            (locker,
             {| lockers := <[key := locker]> (lockers s);
                numRetry := numRetry s; timeout := timeout s;
                requestCertification := requestCertification s |})
        end in
      (Ok {| locker := fst ls;
             queryService := NewQueryEngine tms;
             certClient := CertificationClient_ tms;
             manager_numRetry := numRetry s;
             manager_timeout := timeout s;
             manager_requestCertification := requestCertification s |},
       snd ls)
  | Err e => (Err e, s)
  | Panic e => (Panic e, s)
  end.

(** The key of a locker is the concatenation of the network, the channel and
    the namespace of the management service.  After a call of
    [SelectorManager], a call whose management service concatenates to the
    same key gets the locker of the first call, also where the three names
    are not the same, and leaves the lockers as they are. *)
Theorem SelectorManager_one_locker_per_key
        (s : selectorService) (network channel namespace : string)
        (network' channel' namespace' : string) (tms tms' : ManagementService) :
  GetManagementService network channel namespace = Ok tms ->
  GetManagementService network' channel' namespace' = Ok tms' ->
  (Network tms ++ Channel tms ++ Namespace tms
   = Network tms' ++ Channel tms' ++ Namespace tms')%string ->
  exists m m',
    fst (SelectorManager s network channel namespace) = Ok m
    /\ SelectorManager (snd (SelectorManager s network channel namespace))
                       network' channel' namespace'
       = (Ok m', snd (SelectorManager s network channel namespace))
    /\ locker m' = locker m.
Proof.
  intros Htms Htms' Hkey. unfold SelectorManager.
  rewrite Htms. cbn [fst snd]. rewrite Htms', <- Hkey.
  destruct (lockers s !! (Network tms ++ Channel tms ++ Namespace tms)%string)
    as [l|] eqn:Hl; cbn [fst snd lockers].
  - rewrite Hl. cbn [fst snd].
    eexists _, _. split; [reflexivity|]. split; reflexivity.
  - rewrite lookup_insert_eq. cbn [fst snd].
    eexists _, _. split; [reflexivity|]. split; reflexivity.
Qed.

End Provider.

(** A provider of lockers that names them after what they were made for. *)
Definition demoManagementService (network channel namespace : string)
  : result (ManagementService unit unit) :=
  Ok {| Network := network; Channel := channel; Namespace := namespace;
        NewQueryEngine := fun _ => tt; CertificationClient_ := tt |}.

Definition demoNew (network channel namespace : string) : string * string * string :=
  (network, channel, namespace).

Abbreviation demoSelectorManager :=
  (SelectorManager (string * string * string) unit unit demoManagementService demoNew).

(** The manager of network [a], channel [bc] gets the locker that was made
    for network [ab], channel [c]. *)
Lemma SelectorManager_one_locker_per_key_witness :
  exists m m',
    fst (demoSelectorManager (NewProvider _ 3 5) "ab" "c" "") = Ok m
    /\ demoSelectorManager (snd (demoSelectorManager (NewProvider _ 3 5) "ab" "c" ""))
                           "a" "bc" ""
       = (Ok m', snd (demoSelectorManager (NewProvider _ 3 5) "ab" "c" ""))
    /\ locker _ _ _ m' = locker _ _ _ m.
Proof.
  apply (SelectorManager_one_locker_per_key
           (string * string * string) unit unit demoManagementService demoNew
           (NewProvider _ 3 5) "ab" "c" "" "a" "bc" ""
           {| Network := "ab"; Channel := "c"; Namespace := "";
              NewQueryEngine := fun _ => tt; CertificationClient_ := tt |}
           {| Network := "a"; Channel := "bc"; Namespace := "";
              NewQueryEngine := fun _ => tt; CertificationClient_ := tt |}).
  - reflexivity.
  - reflexivity.
  - reflexivity.
Defined.

End provider.

(** ** Package tcc (token/services/tcc): the token chaincode

    The chaincode runs the translator on the ledger of the stub it is called
    with.  The stub is its arguments, its transaction id and its ledger (the
    read-write set that [rwsWrapper] hands to the translator); the chaincode
    object keeps the validator and the public parameters manager between
    calls.  A call returns a response, or panics. *)
Module tcc.
Import translator.

Inductive Response : Type :=
| Success (payload : bytes)
| Error (message : string).

Record PublicParametersManager : Type := {
  AddIssuer : bytes -> result bytes;
  SetAuditor : bytes -> result bytes;
  SetCertifier : bytes -> result bytes
}.

(** [Validator.UnmarshallAndVerify(ledger, binding, raw)]. *)
Definition Validator : Type := RWSet -> string -> bytes -> result (list tokenAction).

Record TokenChaincode : Type := {
  Validator_ : option Validator;
  PublicParametersManager_ : option PublicParametersManager;
  PPDigest : bytes
}.

Record Stub : Type := {
  GetArgs : list bytes;
  GetTxID : string;
  ledger : RWSet
}.

Definition with_ledger (stub : Stub) (rws : RWSet) : Stub :=
  {| GetArgs := GetArgs stub; GetTxID := GetTxID stub; ledger := rws |}.

Section Chaincode.

Variable CreateTokenKey : string -> Z -> result string.
Variable CreateTokenRequestKey : string -> result string.
Variable CreateSetupKey : result string.
Variable Action : string.
Variable ActionIssue : bytes.
Variable ActionTransfer : bytes.

(** The environment: base64, SHA-256, JSON, the parameters read from the file
    named by [PUBLIC_PARAMS_FILE_PATH] (empty when there is none), the
    parameters compiled in ([Params]), and the factory of the services. *)
Variable DecodeString : string -> result bytes.
Variable Sum256 : bytes -> bytes.
Variable UnmarshalIds : bytes -> result (list token.Id).
Variable MarshalOutputs : list bytes -> result bytes.
Variable readParamsFromFile : string.
Variable Params : string.
Variable TokenServicesFactory : bytes -> result (PublicParametersManager * Validator).

(** [allIssuersValid]. *)
Definition allIssuersValid : IssuingValidator := fun _ _ => Ok tt.

Abbreviation Write_ := (Write CreateTokenKey CreateSetupKey Action ActionIssue ActionTransfer).

(** A method of the chaincode: the chaincode object and the stub go in, and
    come out with what the method returned. *)
Definition C (A : Type) : Type := TokenChaincode -> Stub -> result A * TokenChaincode * Stub.

(** [w.Write(&SetupAction{SetupParameters: raw})] on a new translator. *)
Definition writeSetup (w : Translator) (raw : bytes) : result unit * RWSet :=
  let (r, w') := Write_ (Setup {| SetupAction.GetSetupParameters := Ok raw |}) w in
  (r, rwSet w').

Definition Init (stub : Stub) : result Response * Stub :=
  let decoded (params : string) : result Response * Stub :=
    match DecodeString params with
    | Ok ppRaw =>
        match writeSetup (New allIssuersValid "" (ledger stub) "") ppRaw with
        | (Ok _, rws) => (Ok (Success []), with_ledger stub rws)
        | (Err e, rws) => (Ok (Error e), with_ledger stub rws)
        | (Panic e, rws) => (Panic e, with_ledger stub rws)
        end
    | Err e => (Ok (Error ("failed to decode public parameters: " ++ e)), stub)
    | Panic e => (Panic e, stub)
    end in
  if (String.length readParamsFromFile =? 0)%nat then
    if (String.length Params =? 0)%nat then
      match GetArgs stub with
      | [f; params] =>
          if negb (String.eqb (string_of_list_byte f) "init")
          then (Ok (Error "expected init function"), stub)
          else decoded (string_of_list_byte params)
      | _ => (Ok (Error "length of provided arguments != 2"), stub)
      end
    else decoded Params
  else decoded readParamsFromFile.

Definition init : C unit :=
  fun cc stub =>
    let w := New allIssuersValid (GetTxID stub) (ledger stub) "" in
    match ReadSetupParameters CreateSetupKey w with
    | (Ok ppRaw, w') =>
        let stub := with_ledger stub (rwSet w') in
        if len ppRaw =? 0
        then (Err "public parameters are not initiliazed yet", cc, stub)
        else
          let digest := Sum256 (default [] ppRaw) in
          if negb (length (PPDigest cc) =? 0)%nat
             && bool_decide (is_Some (Validator_ cc))
             && Equal digest (PPDigest cc)
          then (Ok tt, cc, stub)
          else
            match TokenServicesFactory (default [] ppRaw) with
            | Ok (ppm, validator) =>
                (Ok tt,
                 {| Validator_ := Some validator;
                    PublicParametersManager_ := Some ppm;
                    PPDigest := digest |}, stub)
            | Err e =>
                (Err ("failed to instantiate public parameter manager and validator: " ++ e),
                 cc, stub)
            | Panic e => (Panic e, cc, stub)
            end
    | (Err e, w') =>
        (Err ("failed to retrieve public parameters: " ++ e), cc,
         with_ledger stub (rwSet w'))
    | (Panic e, w') => (Panic e, cc, with_ledger stub (rwSet w'))
    end.

Definition nilPointer : string := "invalid memory address or nil pointer dereference".

(** [validator.UnmarshallAndVerify] then the writes of [invoke]. *)
Definition invoke (raw : bytes) : C Response :=
  fun cc stub =>
    match init cc stub with
    | (Ok _, cc, stub) =>
        match Validator_ cc with
        | Some validator =>
            (* Verify *)
            match validator (ledger stub) (GetTxID stub) raw with
            | Ok actions =>
                (* Write *)
                let w := New allIssuersValid (GetTxID stub) (ledger stub) "" in
                match forEach actions Write_ w with
                | (Ok _, w1) =>
                    match CommitTokenRequest CreateTokenRequestKey raw w1 with
                    | (Ok _, w2) => (Ok (Success []), cc, with_ledger stub (rwSet w2))
                    | (Err e, w2) =>
                        (Ok (Error ("failed to write token request:" ++ e)), cc,
                         with_ledger stub (rwSet w2))
                    | (Panic e, w2) => (Panic e, cc, with_ledger stub (rwSet w2))
                    end
                | (Err e, w1) =>
                    (Ok (Error ("failed to write token action: " ++ e)), cc,
                     with_ledger stub (rwSet w1))
                | (Panic e, w1) => (Panic e, cc, with_ledger stub (rwSet w1))
                end
            | Err e => (Ok (Error ("failed to verify token request: " ++ e)), cc, stub)
            | Panic e => (Panic e, cc, stub)
            end
        | None => (Panic nilPointer, cc, stub)
        end
    | (Err e, cc, stub) => (Ok (Error e), cc, stub)
    | (Panic e, cc, stub) => (Panic e, cc, stub)
    end.

(** [queryPublicParams]: the response built for a failed read is dropped, and
    the empty result of that read is answered like parameters never set. *)
Definition queryPublicParams : C Response :=
  fun cc stub =>
    let w := New allIssuersValid (GetTxID stub) (ledger stub) "" in
    match ReadSetupParameters CreateSetupKey w with
    | (Panic e, w') => (Panic e, cc, with_ledger stub (rwSet w'))
    | (r, w') =>
        let raw := match r with Ok raw => raw | _ => None end in
        (Ok (if len raw =? 0 then Error "need to initialize public parameters"
             else Success (default [] raw)),
         cc, with_ledger stub (rwSet w'))
    end.

(** [cc.publicParametersManager(stub)] and what follows it in the three
    methods that change the public parameters: the argument [arg] of the
    manager's method [change] is read, the method is called, and the new
    parameters are written.  [failed] is the response for an error of the
    manager, [unwritten] the one for an error of [Write]. *)
Definition updateParams (arg : result bytes)
           (change : PublicParametersManager -> bytes -> result bytes)
           (iv : IssuingValidator) (failed unwritten : string -> string)
           (answer : bytes -> bytes) : C Response :=
  fun cc stub =>
    match init cc stub with
    | (Ok _, cc, stub) =>
        match arg, PublicParametersManager_ cc with
        | Ok a, Some ppm =>
            match change ppm a with
            | Ok raw =>
                match writeSetup (New iv "" (ledger stub) "") raw with
                | (Ok _, rws) => (Ok (Success (answer raw)), cc, with_ledger stub rws)
                | (Err e, rws) => (Ok (Error (unwritten e)), cc, with_ledger stub rws)
                | (Panic e, rws) => (Panic e, cc, with_ledger stub rws)
                end
            | Err e => (Ok (Error (failed e)), cc, stub)
            | Panic e => (Panic e, cc, stub)
            end
        | Ok _, None => (Panic nilPointer, cc, stub)
        | Err e, _ => (Err e, cc, stub)
        | Panic e, _ => (Panic e, cc, stub)
        end
    | (Err e, cc, stub) => (Ok (Error e), cc, stub)
    | (Panic e, cc, stub) => (Panic e, cc, stub)
    end.

Definition addIssuer (args : list bytes) : C Response :=
  updateParams (index args 1) AddIssuer allIssuersValid
    (fun _ => "failed to serialize public parameters"%string)
    (fun e => ("failed to update issuing policy: " ++ e)%string)
    (fun _ => []).

(** The translator of [addAuditor] and [addCertifier] is a struct literal
    with the read-write set only: its issuing validator is nil. *)
Definition noValidator : IssuingValidator := fun _ _ => Panic nilPointer.

Definition addAuditor (auditor : bytes) : C Response :=
  updateParams (Ok auditor) SetAuditor noValidator
    (fun e => e) (fun _ => "failed to write auditor key"%string) (fun raw => raw).

Definition addCertifier (certifier : bytes) : C Response :=
  updateParams (Ok certifier) SetCertifier noValidator
    (fun e => e) (fun _ => "failed to write auditor key"%string) (fun raw => raw).

(** [queryTokens]; the ids, which Go prints with [%v], are left out of the
    message. *)
Definition queryTokens (idsRaw : bytes) : C Response :=
  fun cc stub =>
    match UnmarshalIds idsRaw with
    | Ok ids =>
        let w := New allIssuersValid (GetTxID stub) (ledger stub) "" in
        match queries.QueryTokens CreateTokenKey ids w with
        | (Ok res, w') =>
            let stub := with_ledger stub (rwSet w') in
            match MarshalOutputs res with
            | Ok raw => (Ok (Success raw), cc, stub)
            | Err e => (Ok (Error ("failed marshalling tokens: [" ++ e ++ "]")), cc, stub)
            | Panic e => (Panic e, cc, stub)
            end
        | (Err e, w') =>
            (Ok (Error ("failed query tokens: [" ++ e ++ "]")), cc,
             with_ledger stub (rwSet w'))
        | (Panic e, w') => (Panic e, cc, with_ledger stub (rwSet w'))
        end
    | Err e => (Ok (Error e), cc, stub)
    | Panic e => (Panic e, cc, stub)
    end.

(** [Invoke]: the switch on the function name, under the deferred
    [recover], which turns a panic into an error response. *)
Definition Invoke : TokenChaincode -> Stub -> Response * TokenChaincode * Stub :=
  fun cc stub =>
    let recover (r : result Response * TokenChaincode * Stub) :=
      match r with
      | (Ok res, cc, stub) => (res, cc, stub)
      | (Err e, cc, stub) => (Error e, cc, stub)
      | (Panic e, cc, stub) => (Error ("failed responding [" ++ e ++ "]"), cc, stub)
      end in
    let args := GetArgs stub in
    match args with
    | [] => (Error "missing parameters", cc, stub)
    | f :: rest =>
        let two := (length args =? 2)%nat in
        let arg1 := default [] (args !! 1%nat) in
        let f := string_of_list_byte f in
        if String.eqb f "invoke" then
          if negb two then (Error "empty token request", cc, stub)
          else recover (invoke arg1 cc stub)
        else if String.eqb f "queryPublicParams" then
          recover (queryPublicParams cc stub)
        else if String.eqb f "addAuditor" then
          if negb two then (Error "invalid add auditor request", cc, stub)
          else recover (addAuditor arg1 cc stub)
        else if String.eqb f "addIssuer" then
          if negb two then (Error "request to add issuer is empty", cc, stub)
          else recover (addIssuer args cc stub)
        else if String.eqb f "addCertifier" then
          if negb two then (Error "request to add certifier is empty", cc, stub)
          else recover (addCertifier arg1 cc stub)
        else if String.eqb f "queryTokens" then
          if negb two then (Error "request to retrieve tokens is empty", cc, stub)
          else recover (queryTokens arg1 cc stub)
        else (Error ("function not [" ++ f ++ "] recognized"), cc, stub)
    end.

(** *** What the chaincode writes *)

Lemma with_ledger_same (stub : Stub) : with_ledger stub (ledger stub) = stub.
Proof. destruct stub. reflexivity. Qed.

Lemma ReadSetupParameters_reads (w : Translator) :
  snd (ReadSetupParameters CreateSetupKey w) = w.
Proof.
  unfold ReadSetupParameters, bind, self, lift, wrapM, GetState.
  destruct CreateSetupKey; reflexivity.
Qed.

(** [init] reads the ledger and leaves the stub as it is. *)
Lemma init_reads (cc : TokenChaincode) (stub : Stub) :
  snd (init cc stub) = stub.
Proof.
  unfold init.
  pose proof (ReadSetupParameters_reads
                (New allIssuersValid (GetTxID stub) (ledger stub) "")) as Hsame.
  destruct (ReadSetupParameters CreateSetupKey _) as [[ppRaw|e|e] w'];
    cbn in Hsame; subst w'; cbn [New rwSet]; rewrite with_ledger_same;
    try reflexivity.
  destruct (len ppRaw =? 0); [reflexivity|].
  destruct (_ && _); [reflexivity|].
  destruct (TokenServicesFactory (default [] ppRaw)) as [[ppm validator]|e|e];
    reflexivity.
Qed.

Lemma forEach_Write_same_anchor (actions : list tokenAction) (w : Translator) :
  same_anchor w (snd (forEach actions Write_ w)).
Proof.
  apply (forEach_inv (same_anchor w)); [|repeat split].
  intros a w1 _ (Htx & Hns & Hiv).
  destruct (Write_same_anchor CreateTokenKey CreateSetupKey Action ActionIssue
              ActionTransfer a w1) as (Htx' & Hns' & Hiv').
  repeat split; congruence.
Qed.

(** [invoke] answers with success only if the validator accepted the request
    on the ledger as it was, every action it returned was written, in order,
    by a translator of this transaction, and the key of the request was free;
    the ledger then holds the request under that key. *)
Theorem invoke_success_means (raw : bytes) (cc cc' : TokenChaincode)
        (stub stub' : Stub) (payload : bytes) :
  invoke raw cc stub = (Ok (Success payload), cc', stub') ->
  payload = []
  /\ exists (validator : Validator) (actions : list tokenAction)
            (w1 : Translator) (key : string),
       Validator_ cc' = Some validator
       /\ validator (ledger stub) (GetTxID stub) raw = Ok actions
       /\ forEach actions Write_ (New allIssuersValid (GetTxID stub) (ledger stub) "")
          = (Ok tt, w1)
       /\ CreateTokenRequestKey (GetTxID stub) = Ok key
       /\ state (rwSet w1) !! (""%string, key) = None
       /\ state (ledger stub') !! (""%string, key) = Some raw.
Proof.
  unfold invoke. intros H.
  pose proof (init_reads cc stub) as Hstub.
  destruct (init cc stub) as [[[[]|e|e] cc1] stub1]; cbn in Hstub; subst stub1;
    try discriminate H.
  destruct (Validator_ cc1) as [validator|] eqn:Hval; [|discriminate H].
  destruct (validator (ledger stub) (GetTxID stub) raw) as [actions|e|e] eqn:Hver;
    try discriminate H.
  pose proof (forEach_Write_same_anchor actions
                (New allIssuersValid (GetTxID stub) (ledger stub) ""))
    as (Htx & Hns & _).
  destruct (forEach actions Write_ _) as [[[]|e|e] w1] eqn:Hwrite;
    try discriminate H.
  cbn [snd New TxID namespace] in Htx, Hns.
  unfold CommitTokenRequest, bind, self, wrapM, GetState, SetState, raise in H.
  rewrite Htx, Hns in H.
  destruct (CreateTokenRequestKey (GetTxID stub)) as [key|e|e] eqn:Hkey;
    try discriminate H.
  cbn in H.
  destruct (state (rwSet w1) !! (""%string, key)) as [old|] eqn:Hold;
    cbn in H; [discriminate H|].
  injection H as <- <- <-. split; [reflexivity|].
  exists validator, actions, w1, key.
  repeat split; try assumption.
  cbn. apply lookup_insert_eq.
Qed.

(** A request that the validator does not accept is answered with an error,
    and the ledger is as it was. *)
Theorem invoke_rejects_unverified (raw : bytes) (cc cc1 : TokenChaincode)
        (stub stub1 : Stub) (validator : Validator) (e : string) :
  init cc stub = (Ok tt, cc1, stub1) ->
  Validator_ cc1 = Some validator ->
  validator (ledger stub) (GetTxID stub) raw = Err e ->
  invoke raw cc stub = (Ok (Error ("failed to verify token request: " ++ e)), cc1, stub).
Proof.
  intros Hinit Hval Hver. unfold invoke.
  pose proof (init_reads cc stub) as Hstub. rewrite Hinit in Hstub.
  cbn in Hstub. subst stub1. rewrite Hinit, Hval, Hver. reflexivity.
Qed.

(** On a ledger without public parameters [invoke] writes nothing and keeps
    the chaincode object as it is. *)
Theorem invoke_needs_public_params (raw : bytes) (cc : TokenChaincode) (stub : Stub)
        (setupKey : string) :
  CreateSetupKey = Ok setupKey ->
  len (state (ledger stub) !! (""%string, setupKey)) = 0 ->
  invoke raw cc stub
  = (Ok (Error "public parameters are not initiliazed yet"), cc, stub).
Proof.
  intros Hkey Hnone. unfold invoke, init.
  unfold ReadSetupParameters, bind, self, lift, wrapM, GetState.
  rewrite Hkey. cbn. rewrite Hnone. cbn. rewrite with_ledger_same. reflexivity.
Qed.

(** After [Init] has answered with success, [queryPublicParams] (of any
    transaction on the ledger that [Init] left) answers with the decoded
    parameters, unless they are empty: then it asks for an initialization. *)
Theorem Init_then_queryPublicParams (stub stub' : Stub) (payload : bytes) :
  Init stub = (Ok (Success payload), stub') ->
  exists (params : string) (ppRaw : bytes),
    DecodeString params = Ok ppRaw
    /\ forall (cc : TokenChaincode) (later : Stub),
         ledger later = ledger stub' ->
         queryPublicParams cc later
         = (Ok (if (length ppRaw =? 0)%nat
                then Error "need to initialize public parameters"
                else Success ppRaw), cc, later).
Proof.
  intros H.
  assert (Hdecoded : forall params,
            match DecodeString params with
            | Ok ppRaw =>
                match writeSetup (New allIssuersValid "" (ledger stub) "") ppRaw with
                | (Ok _, rws) => (Ok (Success []), with_ledger stub rws)
                | (Err e, rws) => (Ok (Error e), with_ledger stub rws)
                | (Panic e, rws) => (Panic e, with_ledger stub rws)
                end
            | Err e => (Ok (Error ("failed to decode public parameters: " ++ e)), stub)
            | Panic e => (Panic e, stub)
            end = (Ok (Success payload), stub') ->
            exists ppRaw setupKey,
              DecodeString params = Ok ppRaw
              /\ CreateSetupKey = Ok setupKey
              /\ state (ledger stub') !! (""%string, setupKey) = Some ppRaw).
  { intros params Hd.
    destruct (DecodeString params) as [ppRaw|e|e]; try discriminate Hd.
    unfold writeSetup, Write, checkProcess, commitProcess, checkAction, commitAction,
      commitSetupAction, bind, self, lift, ret, SetState in Hd.
    cbn in Hd.
    destruct CreateSetupKey as [setupKey|e|e]; try discriminate Hd.
    cbn in Hd. injection Hd as _ <-.
    exists ppRaw, setupKey. repeat split. cbn. apply lookup_insert_eq. }
  assert (Hex : exists params ppRaw setupKey,
            DecodeString params = Ok ppRaw
            /\ CreateSetupKey = Ok setupKey
            /\ state (ledger stub') !! (""%string, setupKey) = Some ppRaw).
  { unfold Init in H.
    destruct (String.length readParamsFromFile =? 0)%nat.
    - destruct (String.length Params =? 0)%nat.
      + destruct (GetArgs stub) as [|f [|params [|]]]; try discriminate H.
        destruct (negb _); [discriminate H|].
        exists (string_of_list_byte params). apply Hdecoded, H.
      + exists Params. apply Hdecoded, H.
    - exists readParamsFromFile. apply Hdecoded, H. }
  destruct Hex as (params & ppRaw & setupKey & Hdec & Hkey & Hstate).
  exists params, ppRaw. split; [exact Hdec|].
  intros cc later Hledger. unfold queryPublicParams.
  unfold ReadSetupParameters, bind, self, lift, wrapM, GetState.
  rewrite Hkey. cbn. rewrite Hledger, Hstate. cbn.
  rewrite <- Hledger, with_ledger_same.
  destruct ppRaw; reflexivity.
Qed.

Lemma updateParams_written (arg : result bytes)
      (change : PublicParametersManager -> bytes -> result bytes)
      (iv : IssuingValidator) (failed unwritten : string -> string)
      (answer : bytes -> bytes) (cc cc' : TokenChaincode) (stub stub' : Stub)
      (payload : bytes) :
  updateParams arg change iv failed unwritten answer cc stub
  = (Ok (Success payload), cc', stub') ->
  exists (a : bytes) (ppm : PublicParametersManager) (raw : bytes) (setupKey : string),
    arg = Ok a
    /\ PublicParametersManager_ cc' = Some ppm
    /\ change ppm a = Ok raw
    /\ payload = answer raw
    /\ CreateSetupKey = Ok setupKey
    /\ state (ledger stub') !! (""%string, setupKey) = Some raw.
Proof.
  unfold updateParams. intros H.
  pose proof (init_reads cc stub) as Hstub.
  destruct (init cc stub) as [[[[]|e|e] cc1] stub1]; cbn in Hstub; subst stub1;
    try discriminate H.
  destruct arg as [a|e|e]; try discriminate H.
  destruct (PublicParametersManager_ cc1) as [ppm|] eqn:Hppm; [|discriminate H].
  destruct (change ppm a) as [raw|e|e] eqn:Hchange; try discriminate H.
  unfold writeSetup, Write, checkProcess, commitProcess, checkAction, commitAction,
    commitSetupAction, bind, self, lift, ret, SetState in H.
  cbn in H.
  destruct CreateSetupKey as [setupKey|e|e]; try discriminate H.
  cbn in H. injection H as <- <- <-.
  exists a, ppm, raw, setupKey. repeat split; try assumption.
  cbn. apply lookup_insert_eq.
Qed.

(** When [addAuditor] answers with success, its payload is the parameters
    that the manager returned for the auditor, and [queryPublicParams] on the
    ledger it left answers with them (if they are not empty). *)
Theorem addAuditor_then_queryPublicParams
        (auditor payload : bytes) (cc cc' : TokenChaincode) (stub stub' : Stub) :
  addAuditor auditor cc stub = (Ok (Success payload), cc', stub') ->
  (exists ppm, PublicParametersManager_ cc' = Some ppm
               /\ SetAuditor ppm auditor = Ok payload)
  /\ forall (cc2 : TokenChaincode) (later : Stub),
       ledger later = ledger stub' ->
       queryPublicParams cc2 later
       = (Ok (if (length payload =? 0)%nat
              then Error "need to initialize public parameters"
              else Success payload), cc2, later).
Proof.
  intros H. unfold addAuditor in H.
  apply updateParams_written in H
    as (a & ppm & raw & setupKey & [= <-] & Hppm & Hset & -> & Hkey & Hstate).
  split; [exists ppm; split; assumption|].
  intros cc2 later Hledger. unfold queryPublicParams.
  unfold ReadSetupParameters, bind, self, lift, wrapM, GetState.
  rewrite Hkey. cbn. rewrite Hledger, Hstate. cbn.
  rewrite <- Hledger, with_ledger_same.
  destruct raw; reflexivity.
Qed.

End Chaincode.

(** *** The chaincode on a concrete ledger

    The keys are those of the translator's runs above; base64 and SHA-256
    are stood in for by the bytes of the text and by the bytes themselves;
    the validator accepts the request [x01], as an issue of two outputs. *)
Definition demoManager : PublicParametersManager :=
  {| AddIssuer := fun issuer => Ok (x69 :: issuer);
     SetAuditor := fun auditor => Ok (x61 :: auditor);
     SetCertifier := fun certifier => Ok (x63 :: certifier) |}.

Definition demoValidator : Validator :=
  fun _ _ raw =>
    match raw with
    | [x01] => Ok [Issue demoIssue]
    | _ => Err "invalid token request"
    end.

Definition demoFactory (raw : bytes) : result (PublicParametersManager * Validator) :=
  Ok (demoManager, demoValidator).

Definition demoDecode (params : string) : result bytes := Ok (list_byte_of_string params).

Definition newChaincode : TokenChaincode :=
  {| Validator_ := None; PublicParametersManager_ := None; PPDigest := [] |}.

Definition emptyLedger : RWSet := {| state := ∅; metadata := ∅ |}.

Definition initStub : Stub :=
  {| GetArgs := [list_byte_of_string "init"; list_byte_of_string "pp"];
     GetTxID := "tx0"; ledger := emptyLedger |}.

Abbreviation demoInit :=
  (Init demoTokenKey demoSetupKey "action" [x69] [x74] demoDecode "" "").
Abbreviation demoInvoke :=
  (invoke demoTokenKey demoRequestKey demoSetupKey "action" [x69] [x74]
          (fun b => b) demoFactory).

(** The stub of the transaction [tx1] on the ledger that [Init] left. *)
Definition nextStub : Stub :=
  {| GetArgs := [list_byte_of_string "invoke"; [x01]];
     GetTxID := "tx1"; ledger := ledger (snd (demoInit initStub)) |}.

Lemma Init_then_queryPublicParams_witness :
  exists (params : string) (ppRaw : bytes),
    demoDecode params = Ok ppRaw
    /\ forall (cc : TokenChaincode) (later : Stub),
         ledger later = ledger (snd (demoInit initStub)) ->
         queryPublicParams demoSetupKey cc later
         = (Ok (if (length ppRaw =? 0)%nat
                then Error "need to initialize public parameters"
                else Success ppRaw), cc, later).
Proof.
  apply (Init_then_queryPublicParams demoTokenKey demoSetupKey "action" [x69] [x74]
           demoDecode "" "" initStub (snd (demoInit initStub)) []).
  vm_compute. reflexivity.
Defined.

Lemma invoke_needs_public_params_witness :
  demoInvoke [x01] newChaincode initStub
  = (Ok (Error "public parameters are not initiliazed yet"), newChaincode, initStub).
Proof.
  apply (invoke_needs_public_params demoTokenKey demoRequestKey demoSetupKey
           "action" [x69] [x74] (fun b => b) demoFactory
           [x01] newChaincode initStub "setup").
  - reflexivity.
  - reflexivity.
Defined.

Lemma invoke_rejects_unverified_witness :
  exists cc1,
    demoInvoke [x02] newChaincode nextStub
    = (Ok (Error "failed to verify token request: invalid token request"), cc1, nextStub).
Proof.
  eexists.
  apply (invoke_rejects_unverified demoTokenKey demoRequestKey demoSetupKey
           "action" [x69] [x74] (fun b => b) demoFactory
           [x02] newChaincode _ nextStub nextStub demoValidator
           "invalid token request").
  - vm_compute. reflexivity.
  - reflexivity.
  - reflexivity.
Defined.

Lemma invoke_success_means_witness :
  exists key,
    demoRequestKey "tx1" = Ok key
    /\ state (ledger (snd (demoInvoke [x01] newChaincode nextStub)))
         !! (""%string, key) = Some [x01].
Proof.
  destruct (invoke_success_means demoTokenKey demoRequestKey demoSetupKey
              "action" [x69] [x74] (fun b => b) demoFactory
              [x01] newChaincode
              (snd (fst (demoInvoke [x01] newChaincode nextStub)))
              nextStub
              (snd (demoInvoke [x01] newChaincode nextStub)) [])
    as (_ & validator & actions & w1 & key & _ & _ & _ & Hkey & _ & Hstate).
  - vm_compute. reflexivity.
  - exists key. split; [exact Hkey|exact Hstate].
Defined.

Abbreviation demoAddAuditor :=
  (addAuditor demoTokenKey demoSetupKey "action" [x69] [x74] (fun b => b) demoFactory).

Lemma addAuditor_then_queryPublicParams_witness :
  (exists ppm, PublicParametersManager_
                 (snd (fst (demoAddAuditor [x41] newChaincode nextStub))) = Some ppm
               /\ SetAuditor ppm [x41] = Ok [x61; x41])
  /\ forall (cc2 : TokenChaincode) (later : Stub),
       ledger later = ledger (snd (demoAddAuditor [x41] newChaincode nextStub)) ->
       queryPublicParams demoSetupKey cc2 later
       = (Ok (if (length [x61; x41] =? 0)%nat
              then Error "need to initialize public parameters"
              else Success [x61; x41]), cc2, later).
Proof.
  apply (addAuditor_then_queryPublicParams demoTokenKey demoSetupKey "action"
           [x69] [x74] (fun b => b) demoFactory
           [x41] [x61; x41] newChaincode
           (snd (fst (demoAddAuditor [x41] newChaincode nextStub))) nextStub
           (snd (demoAddAuditor [x41] newChaincode nextStub))).
  vm_compute. reflexivity.
Defined.

End tcc.

(** ** Package bn256 (token/core/math/gurvy/bn256)

    The curve is used through its interface: two source groups and a target
    group, the scalars modulo the group order, a pairing and hashes.  Scalars
    ([*bn256.Zr]) are integers; the methods that change their receiver in
    place ([g.Add(h)], [g.Sub(h)]) are the functions that return the new value
    of the receiver. *)
Module bn256.

Class Curve : Type := {
  G1 : Type;
  G2 : Type;
  GT : Type;
  Order : Z;
  NewG1 : G1;
  G1_Add : G1 -> G1 -> G1;
  G1_Sub : G1 -> G1 -> G1;
  G1_Mul : G1 -> Z -> G1;
  G2_Add : G2 -> G2 -> G2;
  G2_Mul : G2 -> Z -> G2;
  Pairing : G2 -> G1 -> G2 -> G1 -> GT;
  FinalExp : GT -> GT;
  G1Array_Bytes : list G1 -> bytes;
  G2Array_Bytes : list G2 -> bytes;
  GT_Bytes : GT -> bytes;
  HashModOrder : bytes -> Z;
  NewZrFromBytes : bytes -> Z;
  Sum256 : bytes -> bytes
}.

Definition ModAdd (a b m : Z) : Z := (a + b) mod m.
Definition ModMul (a b m : Z) : Z := (a * b) mod m.

(** [NewZrInt(i)]. *)
Definition NewZrInt (i : Z) : Z := i.

(** The laws of the curve that the completeness of the proofs rests on: [G1]
    is a commutative group on which the scalars act, and the action of a
    scalar depends on its class modulo the order only. *)
Class CurveLaws (C : Curve) : Prop := {
  Order_pos : 0 < Order;
  G1_Add_comm : forall a b : G1, G1_Add a b = G1_Add b a;
  G1_Add_assoc : forall a b c : G1, G1_Add a (G1_Add b c) = G1_Add (G1_Add a b) c;
  G1_Add_0_l : forall a : G1, G1_Add NewG1 a = a;
  G1_Sub_Add : forall a b : G1, G1_Sub (G1_Add a b) a = b;
  G1_Mul_add : forall (g : G1) (a b : Z), G1_Mul g (a + b) = G1_Add (G1_Mul g a) (G1_Mul g b);
  G1_Mul_mul : forall (g : G1) (a b : Z), G1_Mul g (a * b) = G1_Mul (G1_Mul g a) b;
  G1_Mul_mod : forall (g : G1) (a : Z), G1_Mul g (a mod Order) = G1_Mul g a;
  G1_Mul_Add : forall (g h : G1) (a : Z), G1_Mul (G1_Add g h) a = G1_Add (G1_Mul g a) (G1_Mul h a)
}.

End bn256.

(** ** Package common (token/core/zkatdlog/crypto/common) *)
Module common.
Import bn256.

Section WithCurve.
Context {C : Curve}.

(** Modelled from the spec: [ComputePedersenCommitment], missing from the
    sources.  "Commit(scalars, generators) -> element: the sum of
    generators[i]^scalars[i]; fails with FormatError if lengths differ." *)
Definition ComputePedersenCommitment (opening : list Z) (base : list G1) : result G1 :=
  if negb (length opening =? length base)%nat
  then Err "can't compute Pedersen commitment [base mismatch]"
  else Ok (foldl (fun com gs => G1_Add com (G1_Mul (fst gs) (snd gs)))
                 NewG1 (zip base opening)).

(** Modelled from the spec: [SchnorrProver.Prove], missing from the sources.
    "Prove(witness, randomness, challenge) -> responses: response_i =
    randomness_i + challenge * witness_i (mod order)."  A witness and a
    randomness of different lengths are the malformed input of the spec's
    FormatError. *)
Definition SchnorrProver_Prove (Witness Randomness : list Z) (Challenge : Z)
  : result (list Z) :=
  if negb (length Witness =? length Randomness)%nat
  then Err "cannot compute proof: please initialize correctly."
  else Ok ((fun wr => ModAdd (ModMul Challenge (fst wr) Order) (snd wr) Order)
             <$> zip Witness Randomness).

Record SchnorrProof : Type := {
  Statement : G1;
  Proof_ : list Z;
  Challenge : Z
}.

(** Modelled from the spec: [SchnorrVerifier.RecomputeCommitment], missing from
    the sources.  "recomputed commitment = the sum of
    generators[i]^responses[i] - statement^challenge." *)
Definition SchnorrVerifier_RecomputeCommitment (PedParams : list G1) (zkp : SchnorrProof) : G1 :=
  G1_Sub (foldl (fun com gs => G1_Add com (G1_Mul (fst gs) (snd gs)))
                NewG1 (zip PedParams (Proof_ zkp)))
         (G1_Mul (Statement zkp) (Challenge zkp)).

(** [GetG1Array(a, b, ...)] and [GetBytesArray(a, b, ...)] put their arguments
    one after the other. *)
Definition GetG1Array (ls : list (list G1)) : list G1 := concat ls.
Definition GetG2Array (ls : list (list G2)) : list G2 := concat ls.
Definition GetBytesArray (ls : list bytes) : bytes := concat ls.

End WithCurve.

End common.

(** ** Package sigproof (token/core/zkatdlog/crypto/sigproof) *)
Module sigproof.
Import bn256 common.

Section WithCurve.
Context {C : Curve}.

(** [pssign.Signature]. *)
Record Signature : Type := {
  R : G1;
  S : G1
}.

(** Of package [pssign], taken as given: [Signature.Randomize] (with the coin
    it draws) and [Signature.Serialize]; [None] is the call's error. *)
Variable Signature_Randomize : Signature -> Z -> option Signature.
Variable Signature_Serialize : Signature -> option bytes.

Record SigProof : Type := {
  Challenge : Z;
  Hidden : list Z;
  Hash : Z;
  Signature_ : Signature;
  SigBlindingFactor : Z;
  ComBlindingFactor : Z;
  Commitment : G1
}.

Record POKVerifier : Type := {
  P : G1;
  Q : G2;
  PK : list G2
}.

Record SigVerifier : Type := {
  pokVerifier : POKVerifier;
  HiddenIndices : list Z;
  DisclosedIndices : list Z;
  Disclosed : list Z;
  PedersenParams : list G1;
  CommitmentToMessages : G1
}.

Record SigWitness : Type := {
  hidden : list Z;
  hash : Z;
  signature : Signature;
  sigBlindingFactor : Z;
  comBlindingFactor : Z
}.

Record SigRandomness : Type := {
  rnd_hidden : list Z;
  rnd_hash : Z;
  rnd_sigBlindingFactor : Z;
  rnd_comBlindingFactor : Z
}.

Record SigCommitment : Type := {
  com_CommitmentToMessages : G1;
  com_Signature : GT
}.

Record SigProver : Type := {
  sigVerifier : SigVerifier;
  witness : SigWitness
}.

(** The proof of knowledge handed to [POKVerifier.RecomputeCommitment]; a
    message that was never assigned is nil. *)
Record POK : Type := {
  pok_Challenge : Z;
  pok_Signature : Signature;
  pok_Messages : list (option Z);
  pok_Hash : Z;
  pok_BlindingFactor : Z
}.

(** [POKVerifier.RecomputeCommitment], in a file that is not among the
    sources: taken as given. *)
Variable POKVerifier_RecomputeCommitment : POKVerifier -> POK -> result GT.

(** What the prover draws: whether each [bn256.GetRand()] succeeds, and the
    values of the calls of [bn256.RandModOrder] in the order they are made. *)
Record Coins : Type := {
  GetRand_obfuscate : bool;
  coin_sigBlindingFactor : Z;
  coin_Randomize : Z;
  GetRand_commit : bool;
  coin_hidden : nat -> Z;
  coin_hash : Z;
  coin_comBlindingFactor : Z;
  coin_sigBlindingFactor' : Z
}.

Definition NewSigWitness (hidden : list Z) (signature : Signature) (hash bf : Z) : SigWitness :=
  {| hidden := hidden; hash := hash; signature := signature;
     sigBlindingFactor := 0; comBlindingFactor := bf |}.

Definition NewSigVerifier (hidden disclosed : list Z) (disclosedInf : list Z)
           (com P : G1) (Q : G2) (PK : list G2) (pp : list G1) : SigVerifier :=
  {| pokVerifier := {| P := P; Q := Q; PK := PK |};
     HiddenIndices := hidden; DisclosedIndices := disclosed;
     Disclosed := disclosedInf; CommitmentToMessages := com;
     PedersenParams := pp |}.

Definition NewSigProver (hidden disclosed : list Z) (signature : Signature)
           (hash bf : Z) (com : G1) (hiddenindices disclosedindices : list Z)
           (P : G1) (Q : G2) (PK : list G2) (pp : list G1) : SigProver :=
  {| witness := NewSigWitness hidden signature hash bf;
     sigVerifier := NewSigVerifier hiddenindices disclosedindices disclosed com P Q PK pp |}.

Definition computeChallenge (v : SigVerifier) (comToMessages : G1)
           (signature : Signature) (com : SigCommitment) : result Z :=
  let g1array := GetG1Array [PedersenParams v;
                             [comToMessages; com_CommitmentToMessages com;
                              P (pokVerifier v)]] in
  let g2array := GetG2Array [PK (pokVerifier v); [Q (pokVerifier v)]] in
  let raw := GetBytesArray [G1Array_Bytes g1array; G2Array_Bytes g2array;
                            GT_Bytes (com_Signature com)] in
  match Signature_Serialize signature with
  | Some bs => Ok (HashModOrder (raw ++ bs))
  | None =>
      Err "failed to compute challenge: error while serializing Pointcheval-Sanders signature"
  end.

(** Sums of slice lengths are far from the range of [int]; they are written
    without wrap-around. *)

(** [for i, index := range indices { proof[index] = f(i) }]. *)
Fixpoint assign (proof : list (option Z)) (indices : list Z) (i : Z)
         (f : Z -> result Z) : result (list (option Z)) :=
  match indices with
  | [] => Ok proof
  | idx :: rest =>
      let? x := f i in
      let? proof' := store proof idx (Some x) in
      assign proof' rest (i + 1) f
  end.

Definition recomputeCommitments (v : SigVerifier) (p : SigProof) : result SigCommitment :=
  if negb (Z.of_nat (length (Hidden p)) + Z.of_nat (length (Disclosed v))
           =? Z.of_nat (length (PK (pokVerifier v))) - 2)
  then Err "length of signature public key does not match number of signed messages"
  else
    let zkp := {| Statement := CommitmentToMessages v;
                  Proof_ := Hidden p ++ [ComBlindingFactor p];
                  common.Challenge := Challenge p |} in
    let c1 := SchnorrVerifier_RecomputeCommitment (PedersenParams v) zkp in
    let proof := replicate (Z.to_nat (Z.of_nat (length (PK (pokVerifier v))) - 2)) None in
    let? proof := assign proof (HiddenIndices v) 0 (fun i => index (Hidden p) i) in
    let? proof := assign proof (DisclosedIndices v) 0 (fun i =>
                    let? d := index (Disclosed v) i in
                    Ok (ModMul d (Challenge p) Order)) in
    let sp := {| pok_Challenge := Challenge p; pok_Signature := Signature_ p;
                 pok_Messages := proof; pok_Hash := Hash p;
                 pok_BlindingFactor := SigBlindingFactor p |} in
    let sv := {| P := P (pokVerifier v); Q := Q (pokVerifier v);
                 PK := PK (pokVerifier v) |} in
    let? sig := Wrapf "failed to verify signature proof"
                      (POKVerifier_RecomputeCommitment sv sp) in
    Ok {| com_CommitmentToMessages := c1; com_Signature := sig |}.

(** [SigVerifier.Verify]: both [if err != nil] branches [return nil]. *)
Definition Verify (v : SigVerifier) (p : SigProof) : result unit :=
  match recomputeCommitments v p with
  | Ok com =>
      match computeChallenge v (Commitment p) (Signature_ p) com with
      | Ok chal =>
          if negb (chal =? Challenge p)
          then Err "invalid signature proof"
          else Ok tt
      | Err _ => Ok tt
      | Panic e => Panic e
      end
  | Err _ => Ok tt
  | Panic e => Panic e
  end.

(** [obfuscateSignature]: the witness with its blinding factor drawn and its
    signature randomized in place, and the blinded copy of that signature. *)
Definition obfuscateSignature (p : SigProver) (coins : Coins)
  : result (SigWitness * Signature) :=
  if negb (GetRand_obfuscate coins) then Err "failed to get RNG"
  else
    match Signature_Randomize (signature (witness p)) (coin_Randomize coins) with
    | Some sig' =>
        let w := {| hidden := hidden (witness p); hash := hash (witness p);
                    signature := sig';
                    sigBlindingFactor := coin_sigBlindingFactor coins;
                    comBlindingFactor := comBlindingFactor (witness p) |} in
        Ok (w, {| R := R sig';
                  S := G1_Add (S sig')
                         (G1_Mul (P (pokVerifier (sigVerifier p)))
                                 (coin_sigBlindingFactor coins)) |})
    | None => Err "failed to randomize signature"
    end.

(** [for i, r := range rs { com.Add(pp[i].Mul(r)) }]. *)
Fixpoint addHidden (com : G1) (pp : list G1) (rs : list Z) (i : Z) : result G1 :=
  match rs with
  | [] => Ok com
  | r :: rest =>
      let? g := index pp i in
      addHidden (G1_Add com (G1_Mul g r)) pp rest (i + 1)
  end.

(** [for i, index := range indices { t.Add(PK[index+1].Mul(rs[i])) }]. *)
Fixpoint addKeys (t : G2) (pk : list G2) (indices : list Z) (rs : list Z) (i : Z)
  : result G2 :=
  match indices with
  | [] => Ok t
  | idx :: rest =>
      let? k := index pk (int_add idx 1) in
      let? r := index rs i in
      addKeys (G2_Add t (G2_Mul k r)) pk rest rs (i + 1)
  end.

Definition computeCommitment (v : SigVerifier) (w : SigWitness) (coins : Coins)
  : result (SigRandomness * SigCommitment) :=
  if negb (Z.of_nat (length (PedersenParams v))
           =? Z.of_nat (length (HiddenIndices v)) + 1)
  then Err "size of witness does not match length of Pedersen Parameters"
  else if negb (Z.of_nat (length (PK (pokVerifier v)))
                =? Z.of_nat (length (HiddenIndices v))
                   + Z.of_nat (length (DisclosedIndices v)) + 2)
  then Err "size of signature public key does not mathc the size of the witness"
  else if negb (GetRand_commit coins) then Err "failed to get RNG"
  else
    let rnd := {| rnd_hidden := coin_hidden coins <$> seq 0 (length (hidden w));
                  rnd_hash := coin_hash coins;
                  rnd_comBlindingFactor := coin_comBlindingFactor coins;
                  rnd_sigBlindingFactor := coin_sigBlindingFactor' coins |} in
    let? g := index (PedersenParams v) (Z.of_nat (length (hidden w))) in
    let? cm := addHidden (G1_Mul g (rnd_comBlindingFactor rnd))
                         (PedersenParams v) (rnd_hidden rnd) 0 in
    let? k := index (PK (pokVerifier v))
                    (Z.of_nat (length (Disclosed v))
                     + Z.of_nat (length (hidden w)) + 1) in
    let? t := addKeys (G2_Mul k (rnd_hash rnd)) (PK (pokVerifier v))
                      (HiddenIndices v) (rnd_hidden rnd) 0 in
    Ok (rnd,
        {| com_CommitmentToMessages := cm;
           com_Signature :=
             FinalExp (Pairing t (R (signature w)) (Q (pokVerifier v))
                               (G1_Mul (P (pokVerifier v))
                                       (rnd_sigBlindingFactor rnd))) |}).

Definition Prove (p : SigProver) (coins : Coins) : result SigProof :=
  let v := sigVerifier p in
  if negb (length (HiddenIndices v) =? length (hidden (witness p)))%nat
  then Err "witness is not of the right size"
  else if negb (length (DisclosedIndices v) =? length (Disclosed v))%nat
  then Err "witness is not of the right size"
  else
    let? ws := obfuscateSignature p coins in
    let w := fst ws in
    let sig := snd ws in
    let? rc := computeCommitment v w coins in
    let rnd := fst rc in
    let com := snd rc in
    let? chal := computeChallenge v (CommitmentToMessages v) sig com in
    let? proofs :=
      Wrapf "signature proof generation failed"
        (SchnorrProver_Prove
           (hidden w ++ [comBlindingFactor w; sigBlindingFactor w; hash w])
           (rnd_hidden rnd ++ [rnd_comBlindingFactor rnd; rnd_sigBlindingFactor rnd;
                               rnd_hash rnd])
           chal) in
    let n := Z.of_nat (length (hidden w)) in
    let? cbf := index proofs n in
    let? sbf := index proofs (n + 1) in
    let? h := index proofs (n + 2) in
    Ok {| Challenge := chal;
          Hidden := take (length (hidden w)) proofs;
          Hash := h;
          Signature_ := sig;
          SigBlindingFactor := sbf;
          ComBlindingFactor := cbf;
          Commitment := CommitmentToMessages v |}.

(** The prover checks the counts against the public key: with hidden and
    disclosed indices that do not add up to the length of the public key
    minus two it returns an error, whatever it draws. *)
Lemma Prove_refuses_count_mismatch (p : SigProver) (coins : Coins) :
  Z.of_nat (length (HiddenIndices (sigVerifier p)))
  + Z.of_nat (length (DisclosedIndices (sigVerifier p)))
  <> Z.of_nat (length (PK (pokVerifier (sigVerifier p)))) - 2 ->
  is_Err (Prove p coins) = true.
Proof.
  intros Hne. unfold Prove.
  destruct (negb (_ =? _)%nat); [reflexivity|].
  destruct (negb (_ =? _)%nat); [reflexivity|].
  unfold obfuscateSignature.
  destruct (negb (GetRand_obfuscate coins)); [reflexivity|].
  destruct (Signature_Randomize _ _) as [sig'|]; [|reflexivity].
  cbn [rbind fst snd]. unfold computeCommitment.
  destruct (negb (_ =? _)); [reflexivity|].
  destruct (Z.eqb_spec (Z.of_nat (length (PK (pokVerifier (sigVerifier p)))))
              (Z.of_nat (length (HiddenIndices (sigVerifier p)))
               + Z.of_nat (length (DisclosedIndices (sigVerifier p))) + 2))
    as [Heq|Hneq]; [|reflexivity].
  exfalso. apply Hne. lia.
Qed.

(** The verifier makes the same comparison in [recomputeCommitments], and
    then drops its error: a proof whose hidden responses and the verifier's
    disclosed values do not add up to the length of the public key minus two
    is accepted. *)
Lemma Verify_accepts_count_mismatch (v : SigVerifier) (p : SigProof) :
  Z.of_nat (length (Hidden p)) + Z.of_nat (length (Disclosed v))
  <> Z.of_nat (length (PK (pokVerifier v))) - 2 ->
  Verify v p = Ok tt.
Proof.
  intros Hne. unfold Verify, recomputeCommitments.
  destruct (Z.eqb_spec (Z.of_nat (length (Hidden p)) + Z.of_nat (length (Disclosed v)))
                       (Z.of_nat (length (PK (pokVerifier v))) - 2)) as [Heq|_].
  - contradiction.
  - reflexivity.
Qed.

End WithCurve.

End sigproof.

(** ** Package anonym (token/core/zkatdlog/crypto/issue/anonym) *)
Module anonym.
Import bn256.

Section Verifier.
Context {C : Curve}.

Record Authorization : Type := {
  Type_ : G1;
  Token : G1
}.

Record Verifier : Type := {
  PedersenParams : list G1;
  Issuers : list G1;
  Auth : Authorization;
  BitLength : Z
}.

Record Signature : Type := {
  AuthorizationCorrectness : bytes;
  TypeCorrectness : bytes
}.

(** [Signature.Deserialize] is [json.Unmarshal]; the one-out-of-many verifier
    (package [o2omp]) and the type-correctness verifier are taken as given. *)
Variable Deserialize : bytes -> option Signature.
Variable o2omp_Verify : list G1 -> bytes -> list G1 -> Z -> bytes -> result unit.
Variable TypeCorrectnessVerifier_Verify : G1 -> G1 -> bytes -> list G1 -> bytes -> result unit.

(** [commitments[k] = Auth.Type - Issuers[k]]. *)
Definition differences (v : Verifier) : list G1 :=
  (fun i => G1_Sub (Type_ (Auth v)) i) <$> Issuers v.

Definition Verify (v : Verifier) (message rawsig : bytes) : result unit :=
  if negb (Z.of_nat (length (PedersenParams v)) =? 3)
  then Err "length of Pedersen parameters != 3"
  else
    match Deserialize rawsig with
    | Some sig =>
        let commitments := differences v in
        let? pp0 := index (PedersenParams v) 0 in
        let? pp2 := index (PedersenParams v) 2 in
        let? _ := Wrapf "failed to verify issuer's pseudonym"
                    (o2omp_Verify commitments message [pp0; pp2] (BitLength v)
                                  (AuthorizationCorrectness sig)) in
        TypeCorrectnessVerifier_Verify (Type_ (Auth v)) (Token (Auth v)) message
                                       (PedersenParams v) (TypeCorrectness sig)
    | None => Err "failed to unmarshal issuer's signature"
    end.

(** C9. The verifier accepts exactly when there are three Pedersen parameters,
    the signature deserializes, the one-out-of-many proof over the differences
    between the authorization commitment and the issuers verifies under the
    first and third parameter, and the type-correctness proof verifies.  With
    a parameter list of another length, a signature that does not
    deserialize, or a sub-proof that is refused, it returns an error. *)
Theorem Verify_fail_closed (v : Verifier) (message rawsig : bytes) :
  (Verify v message rawsig = Ok tt <->
   exists pp0 pp1 pp2 sig,
     PedersenParams v = [pp0; pp1; pp2]
     /\ Deserialize rawsig = Some sig
     /\ o2omp_Verify (differences v) message [pp0; pp2] (BitLength v)
                     (AuthorizationCorrectness sig) = Ok tt
     /\ TypeCorrectnessVerifier_Verify (Type_ (Auth v)) (Token (Auth v)) message
                                       (PedersenParams v) (TypeCorrectness sig) = Ok tt)
  /\ (length (PedersenParams v) <> 3%nat -> is_Err (Verify v message rawsig) = true)
  /\ (Deserialize rawsig = None -> is_Err (Verify v message rawsig) = true)
  /\ (forall pp0 pp1 pp2 sig,
        PedersenParams v = [pp0; pp1; pp2] ->
        Deserialize rawsig = Some sig ->
        is_Err (o2omp_Verify (differences v) message [pp0; pp2] (BitLength v)
                             (AuthorizationCorrectness sig)) = true
        \/ (o2omp_Verify (differences v) message [pp0; pp2] (BitLength v)
                         (AuthorizationCorrectness sig) = Ok tt
            /\ is_Err (TypeCorrectnessVerifier_Verify (Type_ (Auth v)) (Token (Auth v))
                         message (PedersenParams v) (TypeCorrectness sig)) = true) ->
        is_Err (Verify v message rawsig) = true).
Proof.
  unfold Verify.
  destruct (Z.eqb_spec (Z.of_nat (length (PedersenParams v))) 3) as [Hlen|Hlen]; cbn [negb].
  - destruct (PedersenParams v) as [|pp0 [|pp1 [|pp2 [|pp3 pp]]]] eqn:Hpp;
      cbn in Hlen; try lia.
    unfold index. change (Z.to_nat 2) with 2%nat. change (Z.to_nat 0) with 0%nat.
    cbn. split; [|split; [intros H; now contradiction H|split]].
    + split.
      * destruct (Deserialize rawsig) as [sig|]; try discriminate.
        match goal with
        | |- context [o2omp_Verify ?a ?b ?c ?d ?e] =>
            destruct (o2omp_Verify a b c d e) as [[]|e0|e0] eqn:Ho
        end; cbn; try discriminate.
        intros Ht. exists pp0, pp1, pp2, sig. auto.
      * intros (q0 & q1 & q2 & sig & [= <- <- <-] & -> & Ho & Ht).
        rewrite Ho. cbn. exact Ht.
    + intros ->. reflexivity.
    + intros q0 q1 q2 sig [= <- <- <-] -> [Ho | [Ho Ht]].
      * match goal with
        | |- context [o2omp_Verify ?a ?b ?c ?d ?e] =>
            destruct (o2omp_Verify a b c d e)
        end; cbn in *; try discriminate. reflexivity.
      * rewrite Ho. cbn. exact Ht.
  - assert (Hne : length (PedersenParams v) <> 3%nat) by lia.
    split; [split; [discriminate|]|split; [reflexivity|split; [reflexivity|]]].
    + intros (q0 & q1 & q2 & sig & Hpp & _). rewrite Hpp in Hne. now contradiction Hne.
    + intros q0 q1 q2 sig Hpp. rewrite Hpp in Hne. now contradiction Hne.
Qed.

End Verifier.

(** *** The signer *)

Section Signer.
Context {C : Curve}.

Record AuthorizationWitness : Type := {
  Sk : Z;
  TType : Z;
  TNymBF : Z;
  Value : Z;
  TokenBF : Z;
  Index : Z
}.

(** A signer embeds its verifier. *)
Record Signer : Type := {
  Verifier_ : Verifier;
  Witness : AuthorizationWitness
}.

(** [json.Marshal] and [json.Unmarshal] of a signature, and the provers and
    verifiers of the two sub-proofs, taken as given.  The type-correctness
    prover gets the witness that [NewTypeCorrectnessWitness] builds: secret
    key, type, value and the two blinding factors. *)
Variable Serialize : Signature -> result bytes.
Variable Deserialize : bytes -> option Signature.
Variable o2omp_Prove : list G1 -> bytes -> list G1 -> Z -> Z -> Z -> result bytes.
Variable o2omp_Verify : list G1 -> bytes -> list G1 -> Z -> bytes -> result unit.
Variable TypeCorrectnessProver_Prove :
  Z -> Z -> Z -> Z -> Z -> G1 -> G1 -> bytes -> list G1 -> result bytes.
Variable TypeCorrectnessVerifier_Verify :
  G1 -> G1 -> bytes -> list G1 -> bytes -> result unit.

Definition NewSigner (witness : AuthorizationWitness) (issuers : list G1)
           (auth : Authorization) (bitLength : Z) (pp : list G1) : Signer :=
  {| Witness := witness;
     Verifier_ := {| PedersenParams := pp; Issuers := issuers; Auth := auth;
                     BitLength := bitLength |} |}.

Definition GetPublicVersion (s : Signer) : Verifier :=
  {| Auth := Auth (Verifier_ s); Issuers := Issuers (Verifier_ s);
     PedersenParams := PedersenParams (Verifier_ s);
     BitLength := BitLength (Verifier_ s) |}.

Definition Sign (s : Signer) (message : bytes) : result bytes :=
  let v := Verifier_ s in
  if negb (Z.of_nat (length (PedersenParams v)) =? 3)
  then Err "length of Pedersen parameters != 3"
  else
    let commitments := differences v in
    let? pp0 := index (PedersenParams v) 0 in
    let? pp2 := index (PedersenParams v) 2 in
    let? authorizationCorrectness :=
      Wrapf "failed to compute issuer's signature"
            (o2omp_Prove commitments message [pp0; pp2] (BitLength v)
                         (Index (Witness s)) (TNymBF (Witness s))) in
    let? typeCorrectness :=
      Wrapf "failed to compute issuer's signature"
            (TypeCorrectnessProver_Prove
               (Sk (Witness s)) (TType (Witness s)) (Value (Witness s))
               (TNymBF (Witness s)) (TokenBF (Witness s))
               (Type_ (Auth v)) (Token (Auth v)) message (PedersenParams v)) in
    Serialize {| AuthorizationCorrectness := authorizationCorrectness;
                 TypeCorrectness := typeCorrectness |}.

(** The signer and the verifier work on the same statement: the differences
    between the authorization commitment and the issuers, the first and the
    third Pedersen parameter, the bit length, the two commitments of the
    authorization.  So where a serialized signature deserializes to itself
    and each sub-proof that its prover returns for that statement is accepted
    by its verifier, the public version of a signer accepts what the signer
    signs. *)
Theorem Sign_then_Verify (s : Signer) (message rawsig : bytes) :
  (forall sig raw, Serialize sig = Ok raw -> Deserialize raw = Some sig) ->
  (forall gens proof,
     o2omp_Prove (differences (Verifier_ s)) message gens (BitLength (Verifier_ s))
                 (Index (Witness s)) (TNymBF (Witness s)) = Ok proof ->
     o2omp_Verify (differences (Verifier_ s)) message gens (BitLength (Verifier_ s))
                  proof = Ok tt) ->
  (forall proof,
     TypeCorrectnessProver_Prove
       (Sk (Witness s)) (TType (Witness s)) (Value (Witness s))
       (TNymBF (Witness s)) (TokenBF (Witness s))
       (Type_ (Auth (Verifier_ s))) (Token (Auth (Verifier_ s))) message
       (PedersenParams (Verifier_ s)) = Ok proof ->
     TypeCorrectnessVerifier_Verify
       (Type_ (Auth (Verifier_ s))) (Token (Auth (Verifier_ s))) message
       (PedersenParams (Verifier_ s)) proof = Ok tt) ->
  Sign s message = Ok rawsig ->
  Verify Deserialize o2omp_Verify TypeCorrectnessVerifier_Verify
         (GetPublicVersion s) message rawsig = Ok tt.
Proof.
  intros Hjson Ho2omp Htype Hsign.
  assert (Hpub : GetPublicVersion s = Verifier_ s).
  { unfold GetPublicVersion. destruct (Verifier_ s). reflexivity. }
  rewrite Hpub. unfold Sign in Hsign. unfold Verify.
  destruct (negb (Z.of_nat (length (PedersenParams (Verifier_ s))) =? 3));
    [discriminate Hsign|].
  apply rbind_Ok in Hsign as (pp0 & Hpp0 & Hsign).
  apply rbind_Ok in Hsign as (pp2 & Hpp2 & Hsign).
  apply rbind_Ok in Hsign as (ac & Hac & Hsign).
  apply rbind_Ok in Hsign as (tc & Htc & Hsign).
  assert (Hac' : forall A msg (r : result A) a, Wrapf msg r = Ok a -> r = Ok a).
  { intros A msg [x|e|e] a; cbn; congruence. }
  apply Hac' in Hac, Htc.
  rewrite (Hjson _ _ Hsign), Hpp0, Hpp2. cbn [rbind AuthorizationCorrectness TypeCorrectness].
  rewrite (Ho2omp _ _ Hac). cbn [Wrapf rbind].
  exact (Htype _ Htc).
Qed.

End Signer.

End anonym.

(** ** Package rangeproof (token/core/zkatdlog/crypto/rangeproof) *)
Module rangeproof.
Import bn256 common.

Section WithCurve.
Context {C : Curve}.

(** [token.TokenDataWitness]. *)
Record TokenDataWitness : Type := {
  Type_ : string;
  Value : Z;
  BlindingFactor : Z
}.

Record EqualityProofs : Type := {
  eq_Type : Z;
  eq_Value : list Z;
  eq_TokenBlindingFactor : list Z;
  eq_CommitmentBlindingFactor : list Z
}.

Record MembershipProof : Type := {
  Commitments : list G1;
  SignatureProofs : list bytes
}.

Record Proof : Type := {
  Challenge : Z;
  EqualityProofs_ : EqualityProofs;
  MembershipProofs : list MembershipProof
}.

Record Verifier : Type := {
  Token : list G1;
  Base : Z;
  Exponent : Z;
  PedersenParams : list G1;
  Q : G2;
  P : G1;
  PK : list G2
}.

(** The membership proof of package [sigproof] (a file that is not among the
    sources) and the JSON encoding of proofs are taken as given. *)
Variable Signature : Type.
Variable MembershipCoins : Type.

Record MembershipWitness : Type := {
  mw_signature : Signature;
  mw_value : Z;
  mw_bf : Z
}.

Definition NewMembershipWitness (sig : Signature) (value bf : Z) : MembershipWitness :=
  {| mw_signature := sig; mw_value := value; mw_bf := bf |}.

Variable MembershipProver_Prove :
  MembershipWitness -> G1 -> G1 -> G2 -> list G2 -> list G1 -> MembershipCoins -> result bytes.
Variable MembershipVerifier_Verify :
  G1 -> G1 -> G2 -> list G2 -> list G1 -> bytes -> result unit.
Variable Marshal : Proof -> result bytes.
Variable Unmarshal : bytes -> option Proof.

Record Prover : Type := {
  verifier : Verifier;
  tokenWitness : list TokenDataWitness;
  Signatures : list Signature
}.

Definition NewProver (tw : list TokenDataWitness) (token : list G1)
           (signatures : list Signature) (exponent : Z) (pp : list G1)
           (PK : list G2) (P : G1) (Q : G2) : Prover :=
  {| tokenWitness := tw;
     Signatures := signatures;
     verifier := {| Token := token; Base := Z.of_nat (length signatures);
                    Exponent := exponent; PedersenParams := pp;
                    PK := PK; P := P; Q := Q |} |}.

Definition NewVerifier (token : list G1) (base : Z) (exponent : Z) (pp : list G1)
           (PK : list G2) (P : G1) (Q : G2) : Verifier :=
  {| Token := token; Base := base; Exponent := exponent; PedersenParams := pp;
     PK := PK; P := P; Q := Q |}.

Record Randomness : Type := {
  rnd_Type : Z;
  rnd_Value : list Z;
  rnd_TokenBlindingFactor : list Z;
  rnd_CommitmentBlindingFactor : list Z
}.

Record Commitment : Type := {
  com_Token : list G1;
  com_CommitmentToValue : list G1
}.

(** What the prover draws: whether each [bn256.GetRand()] succeeds, the
    blinding factor of digit [i] of token [k], what the membership prover of
    that digit draws, and the randomness of the equality proof. *)
Record Coins : Type := {
  GetRand_witness : bool;
  coin_bf : nat -> nat -> Z;
  coin_membership : nat -> nat -> MembershipCoins;
  GetRand_commitment : bool;
  coin_Type : Z;
  coin_Value : nat -> Z;
  coin_CommitmentBlindingFactor : nat -> Z;
  coin_TokenBlindingFactor : nat -> Z
}.

(** [for i := 0; i < n; i++] with [i] an index into slices. *)
Definition rounds (n : Z) : list nat := seq 0 (Z.to_nat n).

(** The first loop of [computeMembershipWitness], over [i], for one value:
    the digit at [Exponent-1-i] is the quotient by the power, the remainder
    goes on. *)
Fixpoint quotients (base exponent : Z) (steps : list nat) (v : Z) (values : list Z)
  : result (list Z) :=
  match steps with
  | [] => Ok values
  | i :: rest =>
      let e := exponent - 1 - Z.of_nat i in
      let pw := gomath.powInt base e in
      if pw =? 0 then Panic "integer divide by zero"
      else
        let? values' := store values e (wrap_int (Z.quot v pw)) in
        quotients base exponent rest (Z.rem v pw) values'
  end.

(** The digits of one value, or the refusal of a value outside the range. *)
Definition decompose (base exponent : Z) (value : Z) : result (list Z) :=
  if exponent <? 0 then Panic "makeslice: len out of range"
  else
    let values := replicate (Z.to_nat exponent) 0 in
    let v := gomath.Int64 value in
    if gomath.powInt base exponent <=? v
    then Err "can't compute range proof: value of token outside authorized range"
    else if gomath.int64_of_uint64 base =? 0 then Panic "integer divide by zero"
    else
      let? values := store values 0 (Z.rem v (gomath.int64_of_uint64 base)) in
      quotients base exponent (rounds (exponent - 1)) v values.

(** The second loop of [computeMembershipWitness], for one token: per digit
    its commitment, its membership witness, and its share of the blinding
    factor of the aggregate commitment. *)
Definition digitWitness (p : Prover) (coins : Coins) (k : nat) (values : list Z) (i : nat)
  : result (G1 * MembershipWitness * Z) :=
  let bf := coin_bf coins k i in
  let? d := index values (Z.of_nat i) in
  let? pp2 := prefix (PedersenParams (verifier p)) 2 in
  let? com := ComputePedersenCommitment [NewZrInt d; bf] pp2 in
  let? sig := index (Signatures p) d in
  let pw := NewZrInt (gomath.powInt (Base (verifier p)) (Z.of_nat i)) in
  Ok (com, NewMembershipWitness sig (NewZrInt d) bf, ModMul bf pw Order).

Definition tokenMembershipWitness (p : Prover) (coins : Coins) (k : nat)
           (w : TokenDataWitness) : result (list G1 * list MembershipWitness * Z) :=
  let? values := decompose (Base (verifier p)) (Exponent (verifier p)) (Value w) in
  let? ds := forM (rounds (Exponent (verifier p))) (digitWitness p coins k values) in
  Ok (fst <$> (fst <$> ds), snd <$> (fst <$> ds),
      foldl (fun acc t => ModAdd acc t Order) 0 (snd <$> ds)).

Definition computeMembershipWitness (p : Prover) (coins : Coins)
  : result (list (list G1) * list (list MembershipWitness) * list Z) :=
  if negb (GetRand_witness coins) then Err "failed to get RNG"
  else
    let? ws := forM (imap pair (tokenWitness p))
                    (fun kw => tokenMembershipWitness p coins (fst kw) (snd kw)) in
    Ok (fst <$> (fst <$> ws), snd <$> (fst <$> ws), snd <$> ws).

Definition computeCommitment (p : Prover) (coins : Coins)
  : result (Randomness * Commitment) :=
  if negb (GetRand_commitment coins) then Err "failed to get RNG"
  else
    let n := length (Token (verifier p)) in
    let rnd := {| rnd_Type := coin_Type coins;
                  rnd_Value := coin_Value coins <$> seq 0 n;
                  rnd_CommitmentBlindingFactor :=
                    coin_CommitmentBlindingFactor coins <$> seq 0 n;
                  rnd_TokenBlindingFactor :=
                    coin_TokenBlindingFactor coins <$> seq 0 n |} in
    let pp := PedersenParams (verifier p) in
    let? cs := forM (seq 0 (length (tokenWitness p))) (fun i =>
      let? pp0 := index pp 0 in
      let tok := G1_Mul pp0 (rnd_Type rnd) in
      let? pp1 := index pp 1 in
      let? rV := index (rnd_Value rnd) (Z.of_nat i) in
      let tok := G1_Add tok (G1_Mul pp1 rV) in
      let? pp2 := index pp 2 in
      let? rT := index (rnd_TokenBlindingFactor rnd) (Z.of_nat i) in
      let tok := G1_Add tok (G1_Mul pp2 rT) in
      let com := G1_Mul pp0 rV in
      let? rC := index (rnd_CommitmentBlindingFactor rnd) (Z.of_nat i) in
      let com := G1_Add com (G1_Mul pp1 rC) in
      Ok (tok, com)) in
    Ok (rnd, {| com_Token := fst <$> cs; com_CommitmentToValue := snd <$> cs |}).

Definition computeChallenge (v : Verifier) (commitment : Commitment)
           (comToValue : list (list G1)) : Z :=
  let g1array := GetG1Array [[P v]; Token v; com_Token commitment;
                             com_CommitmentToValue commitment; PedersenParams v] in
  let g2array := GetG2Array [[Q v]; PK v] in
  let bs := G1Array_Bytes g1array ++ G2Array_Bytes g2array in
  let bs := foldl (fun bs l => bs ++ G1Array_Bytes (GetG1Array [l])) bs comToValue in
  NewZrFromBytes (Sum256 bs).

(** The weighted sum of the digit commitments of token [j]. *)
Fixpoint weightedSum (v : Verifier) (commitments : list G1) (steps : list nat) (com : G1)
  : result G1 :=
  match steps with
  | [] => Ok com
  | i :: rest =>
      let pw := NewZrInt (gomath.powInt (Base v) (Z.of_nat i)) in
      let? c := index commitments (Z.of_nat i) in
      weightedSum v commitments rest (G1_Add com (G1_Mul c pw))
  end.

Definition recomputeCommitments (v : Verifier) (p : Proof) : result Commitment :=
  let js := seq 0 (length (Token v)) in
  let? toks := forM js (fun j =>
    let? tok := index (Token v) (Z.of_nat j) in
    let? rV := index (eq_Value (EqualityProofs_ p)) (Z.of_nat j) in
    let? rT := index (eq_TokenBlindingFactor (EqualityProofs_ p)) (Z.of_nat j) in
    Ok (SchnorrVerifier_RecomputeCommitment (PedersenParams v)
          {| Statement := tok;
             Proof_ := [eq_Type (EqualityProofs_ p); rV; rT];
             common.Challenge := Challenge p |})) in
  let? coms := forM js (fun j =>
    let? mp := index (MembershipProofs p) (Z.of_nat j) in
    let? com := weightedSum v (Commitments mp) (rounds (Exponent v)) NewG1 in
    let? pp2 := prefix (PedersenParams v) 2 in
    let? rV := index (eq_Value (EqualityProofs_ p)) (Z.of_nat j) in
    let? rC := index (eq_CommitmentBlindingFactor (EqualityProofs_ p)) (Z.of_nat j) in
    Ok (SchnorrVerifier_RecomputeCommitment pp2
          {| Statement := com; Proof_ := [rV; rC];
             common.Challenge := Challenge p |})) in
  Ok {| com_Token := toks; com_CommitmentToValue := coms |}.

(** [Prove] up to its last line: the proof that is handed to
    [json.Marshal]. *)
Definition proveProof (p : Prover) (coins : Coins) : result Proof :=
  let v := verifier p in
  let? cw := computeMembershipWitness p coins in
  let coms := fst (fst cw) in
  let membershipWitness := snd (fst cw) in
  let commitmentBlindingFactor := snd cw in
  let? mps := forM (seq 0 (length (Token v))) (fun k =>
    if Exponent v <? 0 then Panic "makeslice: len out of range"
    else
      let? sps := forM (rounds (Exponent v)) (fun i =>
        let? comsk := index coms (Z.of_nat k) in
        let? c := index comsk (Z.of_nat i) in
        let? mwk := index membershipWitness (Z.of_nat k) in
        let? mw := index mwk (Z.of_nat i) in
        let? pp2 := prefix (PedersenParams v) 2 in
        let? sp := MembershipProver_Prove mw c (P v) (Q v) (PK v) pp2
                                          (coin_membership coins k i) in
        Ok (c, sp)) in
      Ok {| Commitments := fst <$> sps; SignatureProofs := snd <$> sps |}) in
  (* show that value in token = value in the aggregate commitment *)
  let? rc := computeCommitment p coins in
  let rnd := fst rc in
  let chal := computeChallenge v (snd rc) coms in
  (* equality proof *)
  let? eqs := forM (seq 0 (length (Token v))) (fun k =>
    let? rV := index (rnd_Value rnd) (Z.of_nat k) in
    let? rT := index (rnd_TokenBlindingFactor rnd) (Z.of_nat k) in
    let? rC := index (rnd_CommitmentBlindingFactor rnd) (Z.of_nat k) in
    let? w := index (tokenWitness p) (Z.of_nat k) in
    let? cbf := index commitmentBlindingFactor (Z.of_nat k) in
    let? proofs := SchnorrProver_Prove [Value w; BlindingFactor w; cbf]
                                       [rV; rT; rC] chal in
    let? p0 := index proofs 0 in
    let? p1 := index proofs 1 in
    let? p2 := index proofs 2 in
    Ok (p0, p1, p2)) in
  let? w0 := index (tokenWitness p) 0 in
  let ty := ModMul chal (HashModOrder (list_byte_of_string (Type_ w0))) Order in
  let ty := ModAdd ty (rnd_Type rnd) Order in
  Ok {| Challenge := chal;
        EqualityProofs_ :=
          {| eq_Type := ty;
             eq_Value := fst <$> (fst <$> eqs);
             eq_TokenBlindingFactor := snd <$> (fst <$> eqs);
             eq_CommitmentBlindingFactor := snd <$> eqs |};
        MembershipProofs := mps |}.

Definition Prove (p : Prover) (coins : Coins) : result bytes :=
  let? proof := proveProof p coins in
  Marshal proof.

(** [Verify] from its second statement on: the checks of the proof that
    [json.Unmarshal] returned. *)
Definition verifyProof (v : Verifier) (proof : Proof) : result unit :=
  if negb (length (MembershipProofs proof) =? length (Token v))%nat
  then Err "failed to verify range proofz"
  else
    (* verify membership *)
    let? _ := forM (seq 0 (length (Token v))) (fun k =>
      let? mp := index (MembershipProofs proof) (Z.of_nat k) in
      if negb (length (Commitments mp) =? length (SignatureProofs mp))%nat
      then Err "failed to verify range proof"
      else
        let? _ := forM (seq 0 (length (Commitments mp))) (fun i =>
          let? c := index (Commitments mp) (Z.of_nat i) in
          let? pp2 := prefix (PedersenParams v) 2 in
          let? sp := index (SignatureProofs mp) (Z.of_nat i) in
          Wrapf "failed to verify range proof"
                (MembershipVerifier_Verify c (P v) (Q v) (PK v) pp2 sp)) in
        Ok tt) in
    (* verify equality *)
    let? com := recomputeCommitments v proof in
    let coms := Commitments <$> MembershipProofs proof in
    let chal := computeChallenge v com coms in
    if negb (chal =? Challenge proof)
    then Err "failed to verify range proof"
    else Ok tt.

Definition Verify (v : Verifier) (raw : bytes) : result unit :=
  match Unmarshal raw with
  | None => Err "invalid character"
  | Some proof => verifyProof v proof
  end.

(** *** Completeness

    The digits of a value when the powers of the base are exact. *)
Definition digitAt (base v i : Z) : Z := (v / base ^ i) mod base.

Lemma digitAt_range (base v i : Z) : 1 <= base -> 0 <= digitAt base v i < base.
Proof. intros H. unfold digitAt. apply Z.mod_pos_bound. lia. Qed.

Lemma digitAt_mod (base v i e : Z) :
  1 <= base -> 0 <= i < e ->
  digitAt base (v mod base ^ e) i = digitAt base v i.
Proof.
  intros Hb Hi. unfold digitAt.
  replace e with (i + (e - i)) by lia.
  rewrite Z.pow_add_r by lia.
  assert (0 < base ^ i) by (apply Z.pow_pos_nonneg; lia).
  assert (0 < base ^ (e - i)) by (apply Z.pow_pos_nonneg; lia).
  rewrite Z.rem_mul_r by lia.
  rewrite (Z.mul_comm (base ^ i)), Z.div_add by lia.
  rewrite (Z.div_small (v mod base ^ i)) by (apply Z.mod_pos_bound; lia).
  rewrite Z.add_0_l.
  replace (e - i) with (1 + (e - i - 1)) by lia.
  rewrite Z.pow_add_r, Z.pow_1_r by lia.
  rewrite Z.rem_mul_r by (try apply Z.pow_pos_nonneg; lia).
  rewrite Z.mul_comm, Z.mod_add by lia.
  apply Z.mod_mod. lia.
Qed.

Lemma digitAt_top (base v e : Z) :
  1 <= base -> 0 <= e -> 0 <= v < base ^ (e + 1) ->
  v / base ^ e = digitAt base v e.
Proof.
  intros Hb He Hv. unfold digitAt.
  assert (0 < base ^ e) by (apply Z.pow_pos_nonneg; lia).
  rewrite Z.mod_small; [reflexivity|].
  split; [apply Z.div_pos; lia|].
  apply Z.div_lt_upper_bound; [lia|].
  rewrite Z.pow_add_r, Z.pow_1_r in Hv by lia. lia.
Qed.

(** The sum of the [f i * base^i] for [i] in [from, from + n). *)
Definition weighted (base : Z) (f : nat -> Z) (from n : nat) : Z :=
  foldr Z.add 0 ((fun i => f i * base ^ Z.of_nat i) <$> seq from n).

Lemma weighted_S (base : Z) (f : nat -> Z) (from n : nat) :
  weighted base f from (S n)
  = weighted base f from n + f (from + n)%nat * base ^ Z.of_nat (from + n).
Proof.
  unfold weighted. rewrite seq_S, fmap_app, foldr_app. cbn [fmap list_fmap foldr].
  generalize (f (from + n)%nat * base ^ Z.of_nat (from + n)) as t.
  generalize ((fun i => f i * base ^ Z.of_nat i) <$> seq from n) as l.
  induction l as [|x l IH]; intros t; cbn; [lia|]. rewrite IH. lia.
Qed.

Lemma weighted_digits (base v : Z) (n : nat) :
  1 <= base -> 0 <= v ->
  weighted base (fun i => digitAt base v (Z.of_nat i)) 0 n = v mod base ^ Z.of_nat n.
Proof.
  intros Hb Hv. induction n as [|n IH].
  - cbn. rewrite Z.mod_1_r. reflexivity.
  - rewrite weighted_S, IH. cbn [Nat.add].
    rewrite Nat2Z.inj_succ, Z.pow_succ_r by lia.
    assert (0 < base ^ Z.of_nat n) by (apply Z.pow_pos_nonneg; lia).
    rewrite (Z.mul_comm base), Z.rem_mul_r by lia.
    unfold digitAt. lia.
Qed.

Section Digits.
Variables base exponent : Z.
Hypothesis Hbase : 1 <= base.
Hypothesis Hexp : 1 <= exponent.
Hypothesis Hpow : forall i, 0 <= i <= exponent -> gomath.powInt base i = base ^ i.

Lemma pow_int64 (i : Z) : 0 <= i <= exponent -> 0 < base ^ i < 2 ^ 63.
Proof.
  intros Hi. split; [apply Z.pow_pos_nonneg; lia|].
  rewrite <- (Hpow i Hi). apply gomath.int64_of_float_range.
Qed.

Lemma base_int64 : gomath.int64_of_uint64 base = base.
Proof.
  pose proof (pow_int64 1 ltac:(lia)) as H. rewrite Z.pow_1_r in H.
  apply wrap_int_small. lia.
Qed.

Lemma quotients_exact (n : nat) :
  forall (i0 : nat) (vcur : Z) (values : list Z),
    (i0 + n = Z.to_nat exponent - 1)%nat ->
    length values = Z.to_nat exponent ->
    0 <= vcur < base ^ (exponent - Z.of_nat i0) ->
    exists values',
      quotients base exponent (seq i0 n) vcur values = Ok values'
      /\ length values' = length values
      /\ forall j : nat,
           values' !! j
           = if bool_decide (1 <= j <= Z.to_nat exponent - 1 - i0)%nat
             then Some (digitAt base vcur (Z.of_nat j))
             else values !! j.
Proof.
  induction n as [|n IH]; intros i0 vcur values Hn Hlen Hv.
  - exists values. split; [reflexivity|]. split; [reflexivity|].
    intros j. rewrite bool_decide_eq_false_2 by lia. reflexivity.
  - cbn [seq quotients].
    set (e := exponent - 1 - Z.of_nat i0).
    assert (He : 1 <= e <= exponent - 1) by lia.
    rewrite (Hpow e) by lia.
    pose proof (pow_int64 e ltac:(lia)) as Hpe.
    destruct (Z.eqb_spec (base ^ e) 0) as [?|_]; [lia|].
    replace (exponent - Z.of_nat i0) with (e + 1) in Hv by lia.
    rewrite Z.quot_div_nonneg, Z.rem_mod_nonneg by lia.
    rewrite (digitAt_top base vcur e) by lia.
    pose proof (digitAt_range base vcur e Hbase) as Hd.
    pose proof (pow_int64 1 ltac:(lia)) as Hb1. rewrite Z.pow_1_r in Hb1.
    rewrite wrap_int_small by lia.
    unfold store.
    destruct (Z.ltb_spec e 0) as [?|_]; [lia|].
    destruct (Z.leb_spec (Z.of_nat (length values)) e) as [?|_]; [lia|].
    cbn [orb rbind].
    destruct (IH (S i0) (vcur mod base ^ e)
                 (<[Z.to_nat e := digitAt base vcur e]> values))
      as (values' & Hq & Hlen' & Hlook).
    + lia.
    + rewrite length_insert. exact Hlen.
    + replace (exponent - Z.of_nat (S i0)) with e by lia.
      apply Z.mod_pos_bound. lia.
    + exists values'. split; [exact Hq|].
      split; [rewrite Hlen', length_insert; reflexivity|].
      intros j. rewrite Hlook.
      destruct (decide (j = Z.to_nat e)) as [->|Hj].
      * rewrite bool_decide_eq_false_2 by lia.
        rewrite bool_decide_eq_true_2 by lia.
        rewrite list_lookup_insert_eq by lia.
        rewrite Z2Nat.id by lia. reflexivity.
      * rewrite list_lookup_insert_ne by lia.
        case_bool_decide as H1.
        -- rewrite bool_decide_eq_true_2 by lia.
           rewrite digitAt_mod by lia. reflexivity.
        -- rewrite bool_decide_eq_false_2 by lia. reflexivity.
Qed.

Lemma decompose_exact (v : Z) :
  0 <= v < base ^ exponent ->
  decompose base exponent v
  = Ok ((fun i => digitAt base v (Z.of_nat i)) <$> seq 0 (Z.to_nat exponent)).
Proof.
  intros Hv. unfold decompose.
  destruct (Z.ltb_spec exponent 0) as [?|_]; [lia|].
  pose proof (pow_int64 exponent ltac:(lia)) as Hpe.
  unfold gomath.Int64. rewrite wrap_int_small by lia.
  rewrite (Hpow exponent) by lia.
  destruct (Z.leb_spec (base ^ exponent) v) as [?|_]; [lia|].
  rewrite base_int64.
  destruct (Z.eqb_spec base 0) as [?|_]; [lia|].
  rewrite Z.rem_mod_nonneg by lia.
  unfold store. rewrite length_replicate.
  destruct (Z.ltb_spec 0 0) as [?|_]; [lia|].
  destruct (Z.leb_spec (Z.of_nat (Z.to_nat exponent)) 0) as [?|_]; [lia|].
  cbn [orb rbind]. unfold rounds.
  destruct (quotients_exact (Z.to_nat (exponent - 1)) 0 v
              (<[Z.to_nat 0 := v mod base]> (replicate (Z.to_nat exponent) 0)))
    as (values' & Hq & Hlen' & Hlook).
  - lia.
  - rewrite length_insert, length_replicate. reflexivity.
  - rewrite Z.sub_0_r. exact Hv.
  - rewrite Hq. f_equal.
    apply list_eq. intros j. rewrite Hlook.
    rewrite list_lookup_fmap.
    destruct (decide (j < Z.to_nat exponent)%nat) as [Hj|Hj].
    + rewrite lookup_seq_lt by exact Hj. cbn.
      case_bool_decide as H1; [reflexivity|].
      assert (j = 0%nat) as -> by lia.
      rewrite list_lookup_insert_eq by (rewrite length_replicate; lia).
      unfold digitAt. rewrite Z.pow_0_r, Z.div_1_r. reflexivity.
    + rewrite lookup_seq_ge by lia. cbn.
      rewrite bool_decide_eq_false_2 by lia.
      apply lookup_ge_None_2. rewrite length_insert, length_replicate. lia.
Qed.

End Digits.

(** The group of the curve: what the verifier recomputes from the responses
    of a Schnorr proof is the commitment of the prover. *)
Section Group.
Context {L : CurveLaws C}.

Local Notation "a [+] b" := (G1_Add a b) (at level 50, left associativity).
Local Notation "g [*] k" := (G1_Mul g k) (at level 40, left associativity).

Lemma G1_Mul_congr (g : G1) (a b : Z) :
  a mod Order = b mod Order -> g [*] a = g [*] b.
Proof.
  intros H. rewrite <- (G1_Mul_mod g a), H. apply G1_Mul_mod.
Qed.

Lemma G1_Add_0_r (a : G1) : a [+] NewG1 = a.
Proof. rewrite G1_Add_comm. apply G1_Add_0_l. Qed.

Lemma G1_Mul_zero (g : G1) : g [*] 0 = NewG1.
Proof.
  pose proof (G1_Mul_add g 0 0) as H. rewrite Z.add_0_l in H.
  pose proof (G1_Sub_Add (g [*] 0) (g [*] 0)) as H1. rewrite <- H in H1.
  pose proof (G1_Sub_Add (g [*] 0) NewG1) as H2. rewrite G1_Add_0_r in H2.
  congruence.
Qed.

Lemma G1_Add_interchange (a b c d : G1) :
  (a [+] b) [+] (c [+] d) = (a [+] c) [+] (b [+] d).
Proof.
  rewrite <- (G1_Add_assoc a b), (G1_Add_assoc b c d), (G1_Add_comm b c).
  rewrite <- (G1_Add_assoc c b d), (G1_Add_assoc a c). reflexivity.
Qed.

(** The response to challenge [c] for witness [w] and randomness [r]. *)
Definition response (c w r : Z) : Z := ModAdd (ModMul c w Order) r Order.

Lemma G1_Mul_response (g : G1) (c w r : Z) :
  g [*] response c w r = (g [*] w) [*] c [+] g [*] r.
Proof.
  unfold response, ModAdd, ModMul.
  rewrite G1_Mul_mod, G1_Mul_add, G1_Mul_mod, Z.mul_comm, G1_Mul_mul.
  reflexivity.
Qed.

Lemma RecomputeCommitment_token (g0 g1 g2 : G1) (w0 w1 w2 r0 r1 r2 c : Z) (tok : G1) :
  ComputePedersenCommitment [w0; w1; w2] [g0; g1; g2] = Ok tok ->
  SchnorrVerifier_RecomputeCommitment [g0; g1; g2]
    {| Statement := tok;
       Proof_ := [response c w0 r0; response c w1 r1; response c w2 r2];
       common.Challenge := c |}
  = g0 [*] r0 [+] g1 [*] r1 [+] g2 [*] r2.
Proof.
  intros [= <-]. unfold SchnorrVerifier_RecomputeCommitment. cbn.
  rewrite !G1_Mul_response, !G1_Add_0_l, !G1_Mul_Add.
  rewrite (G1_Add_interchange (g0 [*] w0 [*] c)).
  rewrite (G1_Add_interchange (g0 [*] w0 [*] c [+] g1 [*] w1 [*] c)).
  apply G1_Sub_Add.
Qed.

Lemma RecomputeCommitment_value (g0 g1 : G1) (V S s rV rC c : Z) :
  g1 [*] s = g1 [*] S ->
  SchnorrVerifier_RecomputeCommitment [g0; g1]
    {| Statement := NewG1 [+] (g0 [*] V [+] g1 [*] S);
       Proof_ := [response c V rV; response c s rC];
       common.Challenge := c |}
  = g0 [*] rV [+] g1 [*] rC.
Proof.
  intros Hs. unfold SchnorrVerifier_RecomputeCommitment. cbn.
  rewrite !G1_Mul_response, !G1_Add_0_l, !G1_Mul_Add, Hs.
  rewrite (G1_Add_interchange (g0 [*] V [*] c)).
  apply G1_Sub_Add.
Qed.

(** The blinding factor of the aggregate commitment acts as the weighted sum
    of the blinding factors of the digits. *)
Lemma G1_Mul_blinding (g : G1) (base : Z) (b : nat -> Z) (n : nat) :
  forall (from : nat) (a : Z),
    g [*] foldl (fun acc t => ModAdd acc t Order) a
            ((fun i => ModMul (b i) (base ^ Z.of_nat i) Order) <$> seq from n)
    = g [*] (a + weighted base b from n).
Proof.
  pose proof Order_pos as Hq.
  induction n as [|n IH]; intros from a.
  - cbn. rewrite Z.add_0_r. reflexivity.
  - cbn [seq fmap list_fmap foldl]. rewrite IH.
    apply G1_Mul_congr. unfold weighted. cbn [seq fmap list_fmap foldr].
    unfold ModAdd, ModMul.
    set (t := b from * base ^ Z.of_nat from).
    set (W := foldr Z.add 0 _).
    rewrite Z.add_mod_idemp_l by lia.
    replace (a + t mod Order + W) with (t mod Order + (a + W)) by lia.
    rewrite Z.add_mod_idemp_l by lia.
    f_equal. lia.
Qed.

End Group.

(** A prover with three Pedersen parameters, at least one signature and at
    least one token witness, whose powers of the base are exact, whose values
    are in range, and whose membership proofs verify. *)
Section Completeness.
Context {L : CurveLaws C}.
Variables (p : Prover) (coins : Coins).
Variables (g0 g1 g2 : G1) (s0 : Signature) (w0 : TokenDataWitness).

Local Notation "a [+] b" := (G1_Add a b) (at level 50, left associativity).
Local Notation "g [*] k" := (G1_Mul g k) (at level 40, left associativity).
Local Abbreviation v := (verifier p).
Local Abbreviation B := (Base (verifier p)).
Local Abbreviation E := (Z.to_nat (Exponent (verifier p))).
Local Abbreviation n := (length (tokenWitness p)).

Hypothesis Hpp : PedersenParams v = [g0; g1; g2].
Hypothesis Hexp : 1 <= Exponent v.
Hypothesis Hbase : B = Z.of_nat (length (Signatures p)).
Hypothesis Hpow : forall i, 0 <= i <= Exponent v -> gomath.powInt B i = B ^ i.
Hypothesis Hw0 : tokenWitness p !! 0%nat = Some w0.
Hypothesis Hval : forall w, w ∈ tokenWitness p -> 0 <= Value w < B ^ Exponent v.
Hypothesis Hmember :
  forall (sig : Signature) (d bf : Z) (c : G1) (cns : MembershipCoins),
    0 <= d -> Signatures p !! Z.to_nat d = Some sig ->
    ComputePedersenCommitment [d; bf] [g0; g1] = Ok c ->
    exists sp,
      MembershipProver_Prove (NewMembershipWitness sig d bf) c (P v) (Q v) (PK v)
                             [g0; g1] cns = Ok sp
      /\ MembershipVerifier_Verify c (P v) (Q v) (PK v) [g0; g1] sp = Ok tt.

(** Witness [k], digit [i] of it, and what the prover computes for them. *)
Definition wit (k : nat) : TokenDataWitness := default w0 (tokenWitness p !! k).
Definition digit (k i : nat) : Z := digitAt B (Value (wit k)) (Z.of_nat i).
Definition sigAt (d : Z) : Signature := default s0 (Signatures p !! Z.to_nat d).
Definition comAt (k i : nat) : G1 :=
  NewG1 [+] g0 [*] digit k i [+] g1 [*] coin_bf coins k i.
Definition mwAt (k i : nat) : MembershipWitness :=
  NewMembershipWitness (sigAt (digit k i)) (digit k i) (coin_bf coins k i).
Definition cbfAt (k : nat) : Z :=
  foldl (fun acc t => ModAdd acc t Order) 0
        ((fun i => ModMul (coin_bf coins k i) (B ^ Z.of_nat i) Order) <$> seq 0 E).

Lemma base_pos : 1 <= B.
Proof.
  assert (Hin : w0 ∈ tokenWitness p) by (eapply list_elem_of_lookup_2; exact Hw0).
  pose proof (Hval w0 Hin) as H.
  destruct (Z.eq_dec B 0) as [H0|H0]; [|lia].
  rewrite H0, Z.pow_0_l in H by lia. lia.
Qed.

Lemma wit_lookup (k : nat) : (k < n)%nat -> tokenWitness p !! k = Some (wit k).
Proof.
  intros Hk. unfold wit.
  destruct (lookup_lt_is_Some_2 (tokenWitness p) k Hk) as [w ->]. reflexivity.
Qed.

Lemma wit_value (k : nat) : (k < n)%nat -> 0 <= Value (wit k) < B ^ Exponent v.
Proof.
  intros Hk. apply Hval. eapply list_elem_of_lookup_2. apply wit_lookup, Hk.
Qed.

Lemma imap_pair_wit : imap pair (tokenWitness p) = (fun k => (k, wit k)) <$> seq 0 n.
Proof.
  apply list_eq. intros k.
  rewrite list_lookup_imap, list_lookup_fmap.
  destruct (decide (k < n)%nat) as [Hk|Hk].
  - rewrite wit_lookup, lookup_seq_lt by exact Hk. reflexivity.
  - rewrite lookup_seq_ge, lookup_ge_None_2 by lia. reflexivity.
Qed.

Lemma digit_range (k i : nat) : 0 <= digit k i < B.
Proof. apply digitAt_range, base_pos. Qed.

Lemma sigAt_lookup (k i : nat) :
  Signatures p !! Z.to_nat (digit k i) = Some (sigAt (digit k i)).
Proof.
  pose proof (digit_range k i) as Hd. unfold sigAt.
  destruct (lookup_lt_is_Some_2 (Signatures p) (Z.to_nat (digit k i))) as [sg ->];
    [lia|reflexivity].
Qed.

Lemma digitWitness_Ok (k i : nat) :
  (k < n)%nat -> (i < E)%nat ->
  digitWitness p coins k ((fun i => digit k i) <$> seq 0 E) i
  = Ok (comAt k i, mwAt k i, ModMul (coin_bf coins k i) (B ^ Z.of_nat i) Order).
Proof.
  intros Hk Hi. unfold digitWitness.
  rewrite (index_lookup _ i (digit k i))
    by (rewrite list_lookup_fmap, lookup_seq_lt by exact Hi; reflexivity).
  rewrite Hpp. cbn [rbind prefix length Nat.ltb Nat.leb take].
  unfold ComputePedersenCommitment, NewZrInt. cbn [length Nat.eqb negb rbind zip zip_with foldl fst snd].
  pose proof (digit_range k i) as Hd.
  unfold index. destruct (Z.ltb_spec (digit k i) 0) as [?|_]; [lia|].
  rewrite sigAt_lookup. cbn [rbind].
  rewrite Hpow by lia. reflexivity.
Qed.

Lemma tokenMembershipWitness_Ok (k : nat) :
  (k < n)%nat ->
  tokenMembershipWitness p coins k (wit k)
  = Ok (comAt k <$> seq 0 E, mwAt k <$> seq 0 E, cbfAt k).
Proof.
  intros Hk. unfold tokenMembershipWitness.
  rewrite (decompose_exact B (Exponent v) base_pos Hexp Hpow) by (apply wit_value, Hk).
  cbn [rbind]. unfold rounds.
  rewrite (forM_Ok _ _ (fun i => (comAt k i, mwAt k i,
                                  ModMul (coin_bf coins k i) (B ^ Z.of_nat i) Order))).
  - cbn [rbind]. rewrite <- !list_fmap_compose. reflexivity.
  - intros i Hi. apply elem_of_seq in Hi. apply digitWitness_Ok; [exact Hk|lia].
Qed.

Hypothesis Hrand_witness : GetRand_witness coins = true.

Lemma computeMembershipWitness_Ok :
  computeMembershipWitness p coins
  = Ok ((fun k => comAt k <$> seq 0 E) <$> seq 0 n,
        (fun k => mwAt k <$> seq 0 E) <$> seq 0 n,
        cbfAt <$> seq 0 n).
Proof.
  unfold computeMembershipWitness. rewrite Hrand_witness. cbn [negb].
  rewrite imap_pair_wit.
  rewrite (forM_Ok _ _ (fun kw : nat * TokenDataWitness =>
             (comAt (fst kw) <$> seq 0 E, mwAt (fst kw) <$> seq 0 E, cbfAt (fst kw)))).
  - cbn [rbind]. rewrite <- !list_fmap_compose. reflexivity.
  - intros [k w] Hkw. apply list_elem_of_fmap in Hkw as (k' & [= -> ->] & Hk').
    apply elem_of_seq in Hk'. cbn [fst snd]. apply tokenMembershipWitness_Ok. lia.
Qed.

Hypothesis Hlen : length (Token v) = n.
Hypothesis Hrand_commitment : GetRand_commitment coins = true.

(** The membership proof of digit [i] of token [k]. *)
Definition spAt (k i : nat) : bytes :=
  match MembershipProver_Prove (mwAt k i) (comAt k i) (P v) (Q v) (PK v) [g0; g1]
                               (coin_membership coins k i) with
  | Ok sp => sp
  | _ => []
  end.

Definition mpAt (k : nat) : MembershipProof :=
  {| Commitments := comAt k <$> seq 0 E; SignatureProofs := spAt k <$> seq 0 E |}.

Lemma member_Ok (k i : nat) :
  MembershipProver_Prove (mwAt k i) (comAt k i) (P v) (Q v) (PK v) [g0; g1]
                         (coin_membership coins k i) = Ok (spAt k i)
  /\ MembershipVerifier_Verify (comAt k i) (P v) (Q v) (PK v) [g0; g1] (spAt k i) = Ok tt.
Proof.
  pose proof (digit_range k i) as Hd.
  destruct (Hmember (sigAt (digit k i)) (digit k i) (coin_bf coins k i) (comAt k i)
                    (coin_membership coins k i)) as (sp & Hp & Hv);
    [lia|apply sigAt_lookup|reflexivity|].
  unfold spAt, mwAt. rewrite Hp. split; [reflexivity|exact Hv].
Qed.

Lemma lookup_rows {A} (f : nat -> A) (m k : nat) :
  (k < m)%nat -> index (f <$> seq 0 m) (Z.of_nat k) = Ok (f k).
Proof.
  intros Hk. apply index_lookup.
  rewrite list_lookup_fmap, lookup_seq_lt by exact Hk. reflexivity.
Qed.

Lemma prefix_pp : prefix (PedersenParams v) 2 = Ok [g0; g1].
Proof. rewrite Hpp. reflexivity. Qed.

Lemma membershipProofs_Ok (coms : list (list G1)) (mws : list (list MembershipWitness)) :
  coms = (fun k => comAt k <$> seq 0 E) <$> seq 0 n ->
  mws = (fun k => mwAt k <$> seq 0 E) <$> seq 0 n ->
  forM (seq 0 n) (fun k =>
    if Exponent v <? 0 then Panic "makeslice: len out of range"
    else
      let? sps := forM (rounds (Exponent v)) (fun i =>
        let? comsk := index coms (Z.of_nat k) in
        let? c := index comsk (Z.of_nat i) in
        let? mwk := index mws (Z.of_nat k) in
        let? mw := index mwk (Z.of_nat i) in
        let? pp2 := prefix (PedersenParams v) 2 in
        let? sp := MembershipProver_Prove mw c (P v) (Q v) (PK v) pp2
                                          (coin_membership coins k i) in
        Ok (c, sp)) in
      Ok {| Commitments := fst <$> sps; SignatureProofs := snd <$> sps |})
  = Ok (mpAt <$> seq 0 n).
Proof.
  intros -> ->. apply forM_Ok. intros k Hk. apply elem_of_seq in Hk.
  destruct (Z.ltb_spec (Exponent v) 0) as [?|_]; [lia|].
  unfold rounds.
  rewrite (forM_Ok _ _ (fun i => (comAt k i, spAt k i))).
  - cbn [rbind]. rewrite <- !list_fmap_compose. reflexivity.
  - intros i Hi. apply elem_of_seq in Hi.
    rewrite !lookup_rows by lia. cbn [rbind].
    rewrite !lookup_rows by lia. cbn [rbind].
    rewrite prefix_pp. cbn [rbind].
    rewrite (proj1 (member_Ok k i)). reflexivity.
Qed.

(** The commitments of the equality proof. *)
Definition tokCom (k : nat) : G1 :=
  g0 [*] coin_Type coins [+] g1 [*] coin_Value coins k
  [+] g2 [*] coin_TokenBlindingFactor coins k.

Definition valCom (k : nat) : G1 :=
  g0 [*] coin_Value coins k [+] g1 [*] coin_CommitmentBlindingFactor coins k.

Definition rndOf : Randomness :=
  {| rnd_Type := coin_Type coins;
     rnd_Value := coin_Value coins <$> seq 0 n;
     rnd_CommitmentBlindingFactor := coin_CommitmentBlindingFactor coins <$> seq 0 n;
     rnd_TokenBlindingFactor := coin_TokenBlindingFactor coins <$> seq 0 n |}.

Definition comOf : Commitment :=
  {| com_Token := tokCom <$> seq 0 n; com_CommitmentToValue := valCom <$> seq 0 n |}.

Lemma computeCommitment_Ok : computeCommitment p coins = Ok (rndOf, comOf).
Proof.
  unfold computeCommitment. rewrite Hrand_commitment, Hlen, Hpp. cbn [negb].
  rewrite (forM_Ok _ _ (fun k => (tokCom k, valCom k))).
  - cbn [rbind]. rewrite <- !list_fmap_compose. reflexivity.
  - intros k Hk. apply elem_of_seq in Hk. cbn [rnd_Type rnd_Value rnd_TokenBlindingFactor
                                                 rnd_CommitmentBlindingFactor].
    change (index [g0; g1; g2] 0) with (Ok g0).
    change (index [g0; g1; g2] 1) with (Ok g1).
    change (index [g0; g1; g2] 2) with (Ok g2). cbn [rbind].
    rewrite !lookup_rows by lia. reflexivity.
Qed.

(** The proof that [Prove] builds. *)
Definition chalOf : Z :=
  computeChallenge v comOf ((fun k => comAt k <$> seq 0 E) <$> seq 0 n).

Definition proofOf : Proof :=
  {| Challenge := chalOf;
     EqualityProofs_ :=
       {| eq_Type := response chalOf (HashModOrder (list_byte_of_string (Type_ w0)))
                              (coin_Type coins);
          eq_Value :=
            (fun k => response chalOf (Value (wit k)) (coin_Value coins k)) <$> seq 0 n;
          eq_TokenBlindingFactor :=
            (fun k => response chalOf (BlindingFactor (wit k))
                               (coin_TokenBlindingFactor coins k)) <$> seq 0 n;
          eq_CommitmentBlindingFactor :=
            (fun k => response chalOf (cbfAt k)
                               (coin_CommitmentBlindingFactor coins k)) <$> seq 0 n |};
     MembershipProofs := mpAt <$> seq 0 n |}.

Lemma proveProof_Ok : proveProof p coins = Ok proofOf.
Proof.
  unfold proveProof. rewrite computeMembershipWitness_Ok. cbn [rbind fst snd].
  rewrite Hlen, membershipProofs_Ok by reflexivity. cbn [rbind].
  rewrite computeCommitment_Ok. cbn [rbind fst snd]. fold chalOf.
  rewrite (forM_Ok _ _ (fun k =>
             (response chalOf (Value (wit k)) (coin_Value coins k),
              response chalOf (BlindingFactor (wit k)) (coin_TokenBlindingFactor coins k),
              response chalOf (cbfAt k) (coin_CommitmentBlindingFactor coins k)))).
  - cbn [rbind]. change 0 with (Z.of_nat 0).
    rewrite (index_lookup _ _ _ Hw0). cbn [rbind].
    rewrite <- !list_fmap_compose. reflexivity.
  - intros k Hk. apply elem_of_seq in Hk. unfold rndOf.
    cbn [rnd_Value rnd_TokenBlindingFactor rnd_CommitmentBlindingFactor].
    rewrite !lookup_rows by lia. cbn [rbind].
    rewrite (index_lookup _ _ _ (wit_lookup k ltac:(lia))). cbn [rbind].
    reflexivity.
Qed.

(** The verifier on that proof. *)
Lemma weightedSum_Ok (k m : nat) :
  forall (from : nat) (acc : G1),
    (from + m <= E)%nat ->
    weightedSum v (comAt k <$> seq 0 E) (seq from m) acc
    = Ok (acc [+] (g0 [*] weighted B (digit k) from m
                   [+] g1 [*] weighted B (coin_bf coins k) from m)).
Proof.
  induction m as [|m IH]; intros from acc Hm.
  - cbn. rewrite !G1_Mul_zero, G1_Add_0_l, G1_Add_0_r. reflexivity.
  - cbn [seq weightedSum]. rewrite Hpow by lia. unfold NewZrInt.
    rewrite lookup_rows by lia. cbn [rbind]. rewrite IH by lia. f_equal.
    unfold weighted. cbn [seq fmap list_fmap foldr].
    unfold comAt. rewrite G1_Add_0_l, G1_Mul_Add, <- !G1_Mul_mul, !G1_Mul_add.
    rewrite <- G1_Add_assoc. f_equal. apply G1_Add_interchange.
Qed.

Lemma membership_verifies :
  forM (seq 0 n) (fun k =>
    let? mp := index (MembershipProofs proofOf) (Z.of_nat k) in
    if negb (length (Commitments mp) =? length (SignatureProofs mp))%nat
    then Err "failed to verify range proof"
    else
      let? _ := forM (seq 0 (length (Commitments mp))) (fun i =>
        let? c := index (Commitments mp) (Z.of_nat i) in
        let? pp2 := prefix (PedersenParams v) 2 in
        let? sp := index (SignatureProofs mp) (Z.of_nat i) in
        Wrapf "failed to verify range proof"
              (MembershipVerifier_Verify c (P v) (Q v) (PK v) pp2 sp)) in
      Ok tt)
  = Ok ((fun _ => tt) <$> seq 0 n).
Proof.
  apply forM_Ok. intros k Hk. apply elem_of_seq in Hk.
  cbn [proofOf MembershipProofs]. rewrite lookup_rows by lia.
  cbn [rbind mpAt Commitments SignatureProofs].
  rewrite !length_fmap, Nat.eqb_refl. cbn [negb]. rewrite length_seq.
  rewrite (forM_Ok _ _ (fun _ => tt)); [reflexivity|].
  intros i Hi. apply elem_of_seq in Hi.
  rewrite !lookup_rows by lia. cbn [rbind].
  rewrite prefix_pp. cbn [rbind].
  rewrite (proj2 (member_Ok k i)). reflexivity.
Qed.

Hypothesis Htype : forall w, w ∈ tokenWitness p -> Type_ w = Type_ w0.
Hypothesis Hopen :
  forall (k : nat) (w : TokenDataWitness),
    tokenWitness p !! k = Some w ->
    exists tok,
      Token v !! k = Some tok
      /\ ComputePedersenCommitment
           [HashModOrder (list_byte_of_string (Type_ w)); Value w; BlindingFactor w]
           (PedersenParams v) = Ok tok.

Lemma recomputeCommitments_Ok : recomputeCommitments v proofOf = Ok comOf.
Proof.
  unfold recomputeCommitments. rewrite Hlen.
  rewrite (forM_Ok _ _ tokCom).
  - cbn [rbind]. rewrite (forM_Ok _ _ valCom); [reflexivity|].
    intros j Hj. apply elem_of_seq in Hj.
    cbn [proofOf MembershipProofs EqualityProofs_ eq_Value eq_CommitmentBlindingFactor
         Challenge].
    rewrite !lookup_rows by lia. cbn [rbind mpAt Commitments]. unfold rounds.
    rewrite weightedSum_Ok by lia. cbn [rbind].
    rewrite prefix_pp. cbn [rbind]. f_equal.
    pose proof (wit_value j ltac:(lia)) as Hv.
    replace (weighted B (digit j) 0 E) with (Value (wit j)).
    + apply RecomputeCommitment_value.
      unfold cbfAt. rewrite G1_Mul_blinding, Z.add_0_l. reflexivity.
    + unfold digit. rewrite (weighted_digits B (Value (wit j)) E base_pos) by lia.
      rewrite Z2Nat.id, Z.mod_small by lia. reflexivity.
  - intros j Hj. apply elem_of_seq in Hj.
    pose proof (wit_lookup j ltac:(lia)) as Hw.
    destruct (Hopen j (wit j) Hw) as (tok & Htok & Hcom).
    rewrite (index_lookup _ _ _ Htok). cbn [rbind].
    cbn [proofOf EqualityProofs_ eq_Type eq_Value eq_TokenBlindingFactor Challenge].
    rewrite !lookup_rows by lia. cbn [rbind]. f_equal.
    rewrite Hpp in *.
    rewrite (Htype (wit j)) in Hcom by (eapply list_elem_of_lookup_2; exact Hw).
    apply RecomputeCommitment_token. exact Hcom.
Qed.

Lemma verifyProof_Ok : verifyProof v proofOf = Ok tt.
Proof.
  unfold verifyProof.
  replace (length (MembershipProofs proofOf)) with (length (Token v))
    by (cbn; rewrite length_fmap, length_seq; exact Hlen).
  rewrite Nat.eqb_refl. cbn [negb].
  rewrite Hlen, membership_verifies. cbn [rbind].
  rewrite recomputeCommitments_Ok. cbn [rbind].
  cbn [proofOf MembershipProofs Challenge].
  rewrite <- list_fmap_compose.
  change (computeChallenge v comOf ((Commitments ∘ mpAt) <$> seq 0 n)) with chalOf.
  rewrite Z.eqb_refl. reflexivity.
Qed.

End Completeness.

(** The token [tok] opens to the witness [w] under the parameters [pp]:
    [tok = pp_0^H(type) * pp_1^value * pp_2^bf]. *)
Definition opens (pp : list G1) (w : TokenDataWitness) (tok : G1) : Prop :=
  ComputePedersenCommitment
    [HashModOrder (list_byte_of_string (Type_ w)); Value w; BlindingFactor w] pp
  = Ok tok.

(** C1, amended.  Take a prover with three Pedersen parameters, at least one
    digit, one signature per digit value, and powers of the base that
    [math.Pow] gives exactly; a list of witnesses that is not empty, all of
    the type of the first, with values in [0, Base^Exponent), and tokens that
    open to them; a membership proof that is complete for the signed digits;
    a random source that answers; and a JSON encoding that gives back the
    proof it was given.  Then [Prove] returns proof bytes and [Verify]
    accepts them, whatever numbers are drawn. *)
Theorem Prove_Verify_complete
  (L : CurveLaws C) (p : Prover) (coins : Coins) (w0 : TokenDataWitness) :
  length (PedersenParams (verifier p)) = 3%nat ->
  1 <= Exponent (verifier p) ->
  Base (verifier p) = Z.of_nat (length (Signatures p)) ->
  (forall i, 0 <= i <= Exponent (verifier p) ->
             gomath.powInt (Base (verifier p)) i = Base (verifier p) ^ i) ->
  tokenWitness p !! 0%nat = Some w0 ->
  (forall w, w ∈ tokenWitness p ->
             Type_ w = Type_ w0
             /\ 0 <= Value w < Base (verifier p) ^ Exponent (verifier p)) ->
  Forall2 (opens (PedersenParams (verifier p))) (tokenWitness p) (Token (verifier p)) ->
  (forall (sig : Signature) (d bf : Z) (c : G1) (cns : MembershipCoins),
      0 <= d -> Signatures p !! Z.to_nat d = Some sig ->
      ComputePedersenCommitment [d; bf] (take 2 (PedersenParams (verifier p))) = Ok c ->
      exists sp,
        MembershipProver_Prove (NewMembershipWitness sig d bf) c
          (P (verifier p)) (Q (verifier p)) (PK (verifier p))
          (take 2 (PedersenParams (verifier p))) cns = Ok sp
        /\ MembershipVerifier_Verify c (P (verifier p)) (Q (verifier p))
             (PK (verifier p)) (take 2 (PedersenParams (verifier p))) sp = Ok tt) ->
  GetRand_witness coins = true ->
  GetRand_commitment coins = true ->
  (forall proof, proveProof p coins = Ok proof ->
                 exists raw, Marshal proof = Ok raw /\ Unmarshal raw = Some proof) ->
  exists raw, Prove p coins = Ok raw /\ Verify (verifier p) raw = Ok tt.
Proof.
  intros Hpp Hexp Hbase Hpow Hw0 Hws Hopen Hmember Hrw Hrc Hjson.
  destruct (PedersenParams (verifier p)) as [|g0 [|g1 [|g2 [|]]]] eqn:Epp;
    try discriminate Hpp.
  cbn [take] in Hmember.
  assert (Hval : forall w, w ∈ tokenWitness p ->
                           0 <= Value w < Base (verifier p) ^ Exponent (verifier p))
    by (intros w Hw; apply Hws, Hw).
  assert (Htype : forall w, w ∈ tokenWitness p -> Type_ w = Type_ w0)
    by (intros w Hw; apply Hws, Hw).
  assert (Hlen : length (Token (verifier p)) = length (tokenWitness p))
    by (symmetry; eapply Forall2_length; exact Hopen).
  assert (Hopen' : forall k w, tokenWitness p !! k = Some w ->
            exists tok, Token (verifier p) !! k = Some tok
                        /\ ComputePedersenCommitment
                             [HashModOrder (list_byte_of_string (Type_ w));
                              Value w; BlindingFactor w]
                             (PedersenParams (verifier p)) = Ok tok).
  { intros k w Hk. rewrite Epp.
    destruct (Forall2_lookup_l _ _ _ _ _ Hopen Hk) as (tok & Htok & Ho).
    exists tok. split; [exact Htok|exact Ho]. }
  assert (Hs0 : exists s0 : Signature, True).
  { destruct (Signatures p) as [|s0 ?] eqn:Es; [|exists s0; exact I].
    exfalso. cbn in Hbase.
    assert (Hin : w0 ∈ tokenWitness p) by (eapply list_elem_of_lookup_2; exact Hw0).
    pose proof (Hval w0 Hin) as H. rewrite Hbase, Z.pow_0_l in H by lia. lia. }
  destruct Hs0 as [s0 _].
  pose proof (proveProof_Ok p coins g0 g1 g2 s0 w0 Epp Hexp Hbase Hpow Hw0 Hval Hmember
                Hrw Hlen Hrc) as Hprove.
  pose proof (verifyProof_Ok p coins g0 g1 g2 s0 w0 Epp Hexp Hbase Hpow Hw0 Hval Hmember
                Hlen Htype Hopen') as Hverify.
  destruct (Hjson _ Hprove) as (raw & Hm & Hu).
  exists raw. unfold Prove, Verify. rewrite Hprove, Hu. cbn [rbind].
  split; [exact Hm|exact Hverify].
Qed.

(** *** What [Prove] refuses and what [Verify] requires *)

(** [Prove] returns no proof when the value of some witness, read as an
    [int64], is at least [int64(math.Pow(Base, Exponent))]. *)
Theorem Prove_refuses_beyond_bound (p : Prover) (coins : Coins) (w : TokenDataWitness) :
  w ∈ tokenWitness p ->
  gomath.powInt (Base (verifier p)) (Exponent (verifier p)) <= gomath.Int64 (Value w) ->
  is_Ok (Prove p coins) = false.
Proof.
  intros Hw Hbound.
  destruct (Prove p coins) as [raw|e|e] eqn:HP; [exfalso|reflexivity|reflexivity].
  unfold Prove in HP. apply rbind_Ok in HP as (proof & HP & _).
  unfold proveProof in HP. apply rbind_Ok in HP as (cw & Hcw & _).
  unfold computeMembershipWitness in Hcw.
  destruct (negb (GetRand_witness coins)); [discriminate Hcw|].
  apply rbind_Ok in Hcw as (ws & Hws & _).
  apply forM_Ok_inv in Hws.
  apply list_elem_of_lookup_1 in Hw as [k Hk].
  assert (Hi : imap pair (tokenWitness p) !! k = Some (k, w))
    by (rewrite list_lookup_imap, Hk; reflexivity).
  destruct (Forall2_lookup_l _ _ _ _ _ Hws Hi) as (y & _ & Hy).
  cbn [fst snd] in Hy. unfold tokenMembershipWitness in Hy.
  apply rbind_Ok in Hy as (values & Hd & _).
  unfold decompose in Hd.
  destruct (Exponent (verifier p) <? 0); [discriminate Hd|].
  destruct (Z.leb_spec (gomath.powInt (Base (verifier p)) (Exponent (verifier p)))
                       (gomath.Int64 (Value w))) as [_|Hlt];
    [discriminate Hd|lia].
Qed.

(** On an empty list of witnesses (and of tokens) [Prove] does not return: it
    panics where it reads the type of the first witness. *)
Theorem Prove_panics_on_no_witness (p : Prover) (coins : Coins) :
  tokenWitness p = [] ->
  Token (verifier p) = [] ->
  GetRand_witness coins = true ->
  GetRand_commitment coins = true ->
  Prove p coins = Panic "index out of range".
Proof.
  intros Hw Ht Hrw Hrc.
  unfold Prove, proveProof, computeMembershipWitness, computeCommitment.
  rewrite Hw, Ht, Hrw, Hrc. reflexivity.
Qed.

(** [Verify] accepts nothing else than bytes that decode to a proof with one
    membership proof per token, each with as many signature proofs as
    commitments, every one of which the membership verifier accepts, and with
    the challenge that the recomputed commitments hash to. *)
Theorem Verify_accepts_only (v : Verifier) (raw : bytes) :
  Verify v raw = Ok tt ->
  exists proof,
    Unmarshal raw = Some proof
    /\ length (MembershipProofs proof) = length (Token v)
    /\ (forall (k : nat) (mp : MembershipProof),
          MembershipProofs proof !! k = Some mp ->
          length (Commitments mp) = length (SignatureProofs mp)
          /\ forall (i : nat) (c : G1) (sp : bytes),
               Commitments mp !! i = Some c ->
               SignatureProofs mp !! i = Some sp ->
               MembershipVerifier_Verify c (P v) (Q v) (PK v)
                                         (take 2 (PedersenParams v)) sp = Ok tt)
    /\ exists com,
         recomputeCommitments v proof = Ok com
         /\ computeChallenge v com (Commitments <$> MembershipProofs proof)
            = Challenge proof.
Proof.
  unfold Verify. destruct (Unmarshal raw) as [proof|]; [|discriminate].
  intros H. exists proof. split; [reflexivity|].
  unfold verifyProof in H.
  destruct (Nat.eqb_spec (length (MembershipProofs proof)) (length (Token v)))
    as [Hlen|_]; [|discriminate H].
  cbn [negb] in H. split; [exact Hlen|].
  apply rbind_Ok in H as (us & Hmem & H).
  apply rbind_Ok in H as (com & Hcom & H).
  split.
  - intros k mp Hk. apply forM_Ok_inv in Hmem.
    assert (Hkn : (k < length (Token v))%nat)
      by (rewrite <- Hlen; eapply lookup_lt_Some; exact Hk).
    destruct (Forall2_lookup_l _ _ _ _ _ Hmem (lookup_seq_lt 0 _ k Hkn))
      as (u & _ & Hu).
    cbn [Nat.add] in Hu. rewrite (index_lookup _ _ _ Hk) in Hu. cbn [rbind] in Hu.
    destruct (Nat.eqb_spec (length (Commitments mp)) (length (SignatureProofs mp)))
      as [Hl|_]; [|discriminate Hu].
    cbn [negb] in Hu. split; [exact Hl|].
    intros i c sp Hc Hsp.
    apply rbind_Ok in Hu as (us' & Hin & _). apply forM_Ok_inv in Hin.
    assert (Hi : (i < length (Commitments mp))%nat)
      by (eapply lookup_lt_Some; exact Hc).
    destruct (Forall2_lookup_l _ _ _ _ _ Hin (lookup_seq_lt 0 _ i Hi))
      as (u' & _ & Hu').
    cbn [Nat.add] in Hu'. rewrite (index_lookup _ _ _ Hc) in Hu'. cbn [rbind] in Hu'.
    unfold prefix in Hu'.
    destruct (length (PedersenParams v) <? 2)%nat; [discriminate Hu'|].
    cbn [rbind] in Hu'. rewrite (index_lookup _ _ _ Hsp) in Hu'. cbn [rbind] in Hu'.
    destruct (MembershipVerifier_Verify c (P v) (Q v) (PK v)
                (take 2 (PedersenParams v)) sp) as [[]|e|e];
      [reflexivity|discriminate Hu'|discriminate Hu'].
  - exists com. split; [exact Hcom|].
    destruct (Z.eqb_spec (computeChallenge v com (Commitments <$> MembershipProofs proof))
                         (Challenge proof)) as [Hc|_]; [exact Hc|discriminate H].
Qed.

End WithCurve.

(** The value that digits stand for, least significant first: the sum of the
    [digit_i * base^i]. *)
Definition valueOf (base : Z) (digits : list Z) : Z :=
  foldr (fun d acc => d + base * acc) 0 digits.

(** C4. The powers of the base are computed by [math.Pow] on floats and are
    not exact: in base 3 with 37 digits the value 3^36, which is in range, is
    given the digit 3 at position 35 (and 0 at position 36), and its digits
    stand for another value. *)
Theorem decompose_inexact_powers :
  (0 <= 3 ^ 36 < 3 ^ 37)
  /\ gomath.powInt 3 36 <> 3 ^ 36
  /\ exists digits,
       decompose 3 37 (3 ^ 36) = Ok digits
       /\ digits !! 35%nat = Some 3
       /\ valueOf 3 digits <> 3 ^ 36.
Proof.
  split; [split; [discriminate|reflexivity]|].
  split; [vm_compute; discriminate|].
  eexists. split; [vm_compute; reflexivity|].
  split; [reflexivity|vm_compute; discriminate].
Qed.

Lemma valueOf_weighted (base : Z) (f : nat -> Z) (m : nat) :
  forall from : nat,
    valueOf base (f <$> seq from m) * base ^ Z.of_nat from = weighted base f from m.
Proof.
  induction m as [|m IH]; intros from; [reflexivity|].
  unfold weighted in *. cbn [seq fmap list_fmap valueOf foldr].
  rewrite <- IH. fold (valueOf base (f <$> seq (S from) m)).
  rewrite Nat2Z.inj_succ, Z.pow_succ_r by lia. ring.
Qed.

(** When [math.Pow] gives the powers of the base exactly, the digits of a
    value in range are its digits in that base, least significant first:
    [Exponent] of them, each in [0, Base), and they stand for the value. *)
Theorem decompose_exact_digits (base exponent v : Z) :
  1 <= base ->
  1 <= exponent ->
  (forall i, 0 <= i <= exponent -> gomath.powInt base i = base ^ i) ->
  0 <= v < base ^ exponent ->
  exists digits,
    decompose base exponent v = Ok digits
    /\ length digits = Z.to_nat exponent
    /\ Forall (fun d => 0 <= d < base) digits
    /\ valueOf base digits = v.
Proof.
  intros Hb He Hpow Hv. eexists. split; [apply decompose_exact; assumption|].
  split; [rewrite length_fmap, length_seq; reflexivity|].
  split.
  - apply Forall_fmap, Forall_forall. intros i _. apply digitAt_range, Hb.
  - pose proof (valueOf_weighted base (fun i => digitAt base v (Z.of_nat i))
                  (Z.to_nat exponent) 0) as H.
    rewrite Z.pow_0_r, Z.mul_1_r in H. rewrite H.
    rewrite weighted_digits, Z2Nat.id, Z.mod_small by lia. reflexivity.
Qed.

Lemma decompose_exact_digits_witness :
  exists digits,
    decompose 10 3 907 = Ok digits
    /\ length digits = 3%nat
    /\ Forall (fun d => 0 <= d < 10) digits
    /\ valueOf 10 digits = 907.
Proof.
  apply (decompose_exact_digits 10 3 907); [lia|lia| |lia].
  intros i Hi.
  assert (i = 0 \/ i = 1 \/ i = 2 \/ i = 3) as [->|[->|[->| ->]]] by lia;
    vm_compute; reflexivity.
Defined.

End rangeproof.

(** ** A curve to run the proofs on

    A cyclic group of prime order is the integers modulo that order: the
    groups of [zmod_curve q] are [Zmod q] written additively, and the pairing
    of two elements is their product.  Its hash is a polynomial of the bytes.
    The toy curve has order 101. *)
Module toy.
Import bn256.

Definition encode {q : Z} (l : list (Zmod q)) : bytes :=
  concat ((fun x => list_byte_of_string (pretty (Zmod.to_Z x)) ++ [x2c]) <$> l).

Definition hash (q : Z) (bs : bytes) : Z :=
  foldl (fun acc b => (acc * 31 + Z.of_N (Byte.to_N b)) mod q) 7 bs.

Definition zmod_curve (q : Z) : Curve := {|
  G1 := Zmod q;
  G2 := Zmod q;
  GT := Zmod q;
  Order := q;
  NewG1 := Zmod.zero;
  G1_Add := Zmod.add;
  G1_Sub := Zmod.sub;
  G1_Mul := fun g k => Zmod.mul g (Zmod.of_Z q k);
  G2_Add := Zmod.add;
  G2_Mul := fun g k => Zmod.mul g (Zmod.of_Z q k);
  Pairing := fun a b c d => Zmod.add (Zmod.mul a b) (Zmod.mul c d);
  FinalExp := fun x => x;
  G1Array_Bytes := encode;
  G2Array_Bytes := encode;
  GT_Bytes := fun x => encode [x];
  HashModOrder := hash q;
  NewZrFromBytes := hash q;
  Sum256 := fun bs => bs
|}.

Definition q : Z := 101.

#[export] Instance curve : Curve := zmod_curve q.

Definition g (z : Z) : Zmod q := Zmod.of_Z q z.

(** *** The anonymous issuer's verifier on the toy curve *)

Definition deserialize (raw : bytes) : option anonym.Signature :=
  match raw with
  | [a; t] => Some {| anonym.AuthorizationCorrectness := [a];
                      anonym.TypeCorrectness := [t] |}
  | _ => None
  end.

(** Sub-verifiers that accept the proof [x01] and refuse every other. *)
Definition accepts_x01 (proof : bytes) : result unit :=
  match proof with
  | [x01] => Ok tt
  | _ => Err "invalid proof"
  end.

Definition issuerVerifier : anonym.Verifier :=
  {| anonym.PedersenParams := [g 2; g 3; g 5];
     anonym.Issuers := [g 10; g 20];
     anonym.Auth := {| anonym.Type_ := g 20; anonym.Token := g 7 |};
     anonym.BitLength := 1 |}.

Abbreviation issuerVerify :=
  (anonym.Verify deserialize (fun _ _ _ _ proof => accepts_x01 proof)
                 (fun _ _ _ _ proof => accepts_x01 proof) issuerVerifier).

(** C9, on the toy curve: a signature with two valid sub-proofs is accepted;
    one whose type-correctness proof is refused is rejected. *)
Lemma Verify_fail_closed_witness :
  issuerVerify [x6d] [x01; x01] = Ok tt
  /\ is_Err (issuerVerify [x6d] [x01; x02]) = true.
Proof.
  pose proof (anonym.Verify_fail_closed deserialize
                (fun _ _ _ _ proof => accepts_x01 proof)
                (fun _ _ _ _ proof => accepts_x01 proof)
                issuerVerifier [x6d]) as H.
  split.
  - apply (H [x01; x01]).
    exists (g 2), (g 3), (g 5),
      {| anonym.AuthorizationCorrectness := [x01]; anonym.TypeCorrectness := [x01] |}.
    repeat split.
  - destruct (H [x01; x02]) as (_ & _ & _ & Hsub).
    apply (Hsub (g 2) (g 3) (g 5)
             {| anonym.AuthorizationCorrectness := [x01];
                anonym.TypeCorrectness := [x02] |}); [reflexivity|reflexivity|].
    right. split; reflexivity.
Defined.

(** The signer of the same statement, with provers that return the proof
    [x01], and the serialization that [deserialize] reads. *)
Definition serialize (sig : anonym.Signature) : result bytes :=
  match anonym.AuthorizationCorrectness sig, anonym.TypeCorrectness sig with
  | [a], [t] => Ok [a; t]
  | _, _ => Err "unsupported signature"
  end.

Definition issuerSigner : anonym.Signer :=
  anonym.NewSigner
    {| anonym.Sk := 4; anonym.TType := 1; anonym.TNymBF := 3; anonym.Value := 5;
       anonym.TokenBF := 6; anonym.Index := 1 |}
    [g 10; g 20] {| anonym.Type_ := g 20; anonym.Token := g 7 |} 1 [g 2; g 3; g 5].

Abbreviation issuerSign :=
  (anonym.Sign serialize (fun _ _ _ _ _ _ => Ok [x01])
               (fun _ _ _ _ _ _ _ _ _ => Ok [x01]) issuerSigner).

Lemma Sign_then_Verify_witness :
  issuerSign [x6d] = Ok [x01; x01]
  /\ anonym.Verify deserialize (fun _ _ _ _ proof => accepts_x01 proof)
                   (fun _ _ _ _ proof => accepts_x01 proof)
                   (anonym.GetPublicVersion issuerSigner) [x6d] [x01; x01] = Ok tt.
Proof.
  split; [reflexivity|].
  apply (anonym.Sign_then_Verify
           serialize deserialize
           (fun _ _ _ _ _ _ => Ok [x01]) (fun _ _ _ _ proof => accepts_x01 proof)
           (fun _ _ _ _ _ _ _ _ _ => Ok [x01]) (fun _ _ _ _ proof => accepts_x01 proof)
           issuerSigner [x6d] [x01; x01]).
  - intros [[|a [|a' ac]] [|t [|t' tc]]] raw; cbn; intros H;
      try discriminate H; injection H as <-; reflexivity.
  - intros gens proof H. injection H as <-. reflexivity.
  - intros proof H. injection H as <-. reflexivity.
  - reflexivity.
Defined.

(** *** The signature proof on the toy curve *)

(** A verifier for a public key of three elements (one signed message) that
    lists no hidden and no disclosed index, and a proof without responses. *)
Definition shortVerifier : sigproof.SigVerifier :=
  sigproof.NewSigVerifier [] [] [] (g 4) (g 1) (g 1) [g 6; g 7; g 8] [g 2].

Definition shortProof : sigproof.SigProof :=
  {| sigproof.Challenge := 0;
     sigproof.Hidden := [];
     sigproof.Hash := 0;
     sigproof.Signature_ := {| sigproof.R := g 1; sigproof.S := g 1 |};
     sigproof.SigBlindingFactor := 0;
     sigproof.ComBlindingFactor := 0;
     sigproof.Commitment := g 4 |}.

(** C5. The counts of [shortProof] and [shortVerifier] do not add up to the
    length of the public key minus two (0 + 0 against 3 - 2); the error that
    [recomputeCommitments] returns for them is dropped by [Verify], which
    returns nil: the proof is accepted. *)
Theorem Verify_accepts_short_proof :
  Z.of_nat (length (sigproof.Hidden shortProof))
  + Z.of_nat (length (sigproof.Disclosed shortVerifier))
  <> Z.of_nat (length (sigproof.PK (sigproof.pokVerifier shortVerifier))) - 2
  /\ is_Err (sigproof.recomputeCommitments (fun _ _ => Err "unused")
               shortVerifier shortProof) = true
  /\ sigproof.Verify (fun _ => Some []) (fun _ _ => Err "unused")
                     shortVerifier shortProof = Ok tt.
Proof.
  split; [cbn; lia|]. split; [reflexivity|].
  apply sigproof.Verify_accepts_count_mismatch. cbn. lia.
Qed.

(** A prover for the same statement, and what it draws. *)
Definition shortProver : sigproof.SigProver :=
  {| sigproof.sigVerifier := shortVerifier;
     sigproof.witness :=
       sigproof.NewSigWitness [] {| sigproof.R := g 1; sigproof.S := g 1 |} 0 0 |}.

Definition shortCoins : sigproof.Coins :=
  {| sigproof.GetRand_obfuscate := true;
     sigproof.coin_sigBlindingFactor := 3;
     sigproof.coin_Randomize := 5;
     sigproof.GetRand_commit := true;
     sigproof.coin_hidden := fun _ => 7;
     sigproof.coin_hash := 11;
     sigproof.coin_comBlindingFactor := 13;
     sigproof.coin_sigBlindingFactor' := 17 |}.

(** The prover refuses the statement that the verifier accepts. *)
Lemma Prove_refuses_count_mismatch_witness :
  is_Err (sigproof.Prove (fun s _ => Some s) (fun _ => Some [])
                         shortProver shortCoins) = true.
Proof.
  apply sigproof.Prove_refuses_count_mismatch. cbn. lia.
Defined.

(** *** The range proof on a curve of integers *)

(** The encoding of proofs: the numbers of a proof one after the other, each
    in decimal and closed by a comma; a list is preceded by its length. *)
Definition encodeZs (l : list Z) : bytes :=
  concat ((fun z => list_byte_of_string (pretty z) ++ [x2c]) <$> l).

Definition digit (b : byte) : option Z :=
  let n := Z.of_N (Byte.to_N b) in
  if (48 <=? n) && (n <=? 57) then Some (n - 48) else None.

Fixpoint decodeZs (acc : Z) (bs : bytes) : option (list Z) :=
  match bs with
  | [] => Some []
  | b :: rest =>
      if Byte.eqb b x2c then cons acc <$> decodeZs 0 rest
      else d ← digit b; decodeZs (acc * 10 + d) rest
  end.

Abbreviation parser A := (list Z -> option (A * list Z)).

Definition number : parser Z :=
  fun l => match l with z :: rest => Some (z, rest) | [] => None end.

Definition andThen {A B : Type} (p : parser A) (k : A -> parser B) : parser B :=
  fun l => match p l with Some (a, rest) => k a rest | None => None end.

Definition done {A : Type} (a : A) : parser A := fun l => Some (a, l).

Fixpoint times {A : Type} (n : nat) (p : parser A) : parser (list A) :=
  match n with
  | O => done []
  | S n => andThen p (fun a => andThen (times n p) (fun rest => done (a :: rest)))
  end.

Definition counted {A : Type} (p : parser A) : parser (list A) :=
  andThen number (fun n => times (Z.to_nat n) p).

Definition counted_out {A : Type} (f : A -> list Z) (l : list A) : list Z :=
  Z.of_nat (length l) :: concat (f <$> l).

Definition Z_of_byte (b : byte) : Z := Z.of_N (Byte.to_N b).
Definition byte_of_Z (z : Z) : byte := default x00 (Byte.of_N (Z.to_N z)).

Section Codec.
Variable q : Z.
Let C : Curve := zmod_curve q.
Existing Instance C.

Definition flatten (proof : rangeproof.Proof) : list Z :=
  let e := rangeproof.EqualityProofs_ proof in
  [rangeproof.Challenge proof; rangeproof.eq_Type e]
  ++ counted_out (fun z => [z]) (rangeproof.eq_Value e)
  ++ counted_out (fun z => [z]) (rangeproof.eq_TokenBlindingFactor e)
  ++ counted_out (fun z => [z]) (rangeproof.eq_CommitmentBlindingFactor e)
  ++ counted_out (fun mp =>
       counted_out (fun c : Zmod q => [Zmod.to_Z c]) (rangeproof.Commitments mp)
       ++ counted_out (counted_out (fun b => [Z_of_byte b]))
                      (rangeproof.SignatureProofs mp))
     (rangeproof.MembershipProofs proof).

Definition membershipProof : parser rangeproof.MembershipProof :=
  andThen (counted number) (fun cs =>
  andThen (counted (counted number)) (fun sps =>
  done {| rangeproof.Commitments := map (Zmod.of_Z q) cs;
          rangeproof.SignatureProofs := map (map byte_of_Z) sps |})).

Definition unflatten : parser rangeproof.Proof :=
  andThen number (fun chal =>
  andThen number (fun ty =>
  andThen (counted number) (fun vs =>
  andThen (counted number) (fun ts =>
  andThen (counted number) (fun cs =>
  andThen (counted membershipProof) (fun mps =>
  done {| rangeproof.Challenge := chal;
          rangeproof.EqualityProofs_ :=
            {| rangeproof.eq_Type := ty;
               rangeproof.eq_Value := vs;
               rangeproof.eq_TokenBlindingFactor := ts;
               rangeproof.eq_CommitmentBlindingFactor := cs |};
          rangeproof.MembershipProofs := mps |})))))).

Definition marshal (proof : rangeproof.Proof) : result bytes :=
  Ok (encodeZs (flatten proof)).

Definition unmarshal (raw : bytes) : option rangeproof.Proof :=
  match decodeZs 0 raw with
  | Some l => match unflatten l with
              | Some (proof, []) => Some proof
              | _ => None
              end
  | None => None
  end.

(** Whether encoding and decoding give a proof back, as a test that runs. *)
Fixpoint same_list {A : Type} (same : A -> A -> bool) (l1 l2 : list A) : bool :=
  match l1, l2 with
  | [], [] => true
  | a :: l1, b :: l2 => same a b && same_list same l1 l2
  | _, _ => false
  end.

Lemma same_list_eq {A : Type} (same : A -> A -> bool) :
  (forall a b, same a b = true -> a = b) ->
  forall l1 l2, same_list same l1 l2 = true -> l1 = l2.
Proof.
  intros Hsame. induction l1 as [|a l1 IH]; intros [|b l2] H;
    try discriminate H; [reflexivity|].
  cbn in H. apply andb_prop in H as [Hab Hl].
  f_equal; [apply Hsame, Hab|apply IH, Hl].
Qed.

Definition same_membershipProof (a b : rangeproof.MembershipProof) : bool :=
  same_list (@Zmod.eqb q) (rangeproof.Commitments a) (rangeproof.Commitments b)
  && same_list (same_list Byte.eqb) (rangeproof.SignatureProofs a)
               (rangeproof.SignatureProofs b).

Definition same_proof (a b : rangeproof.Proof) : bool :=
  let ea := rangeproof.EqualityProofs_ a in
  let eb := rangeproof.EqualityProofs_ b in
  (rangeproof.Challenge a =? rangeproof.Challenge b)
  && (rangeproof.eq_Type ea =? rangeproof.eq_Type eb)
  && same_list Z.eqb (rangeproof.eq_Value ea) (rangeproof.eq_Value eb)
  && same_list Z.eqb (rangeproof.eq_TokenBlindingFactor ea)
               (rangeproof.eq_TokenBlindingFactor eb)
  && same_list Z.eqb (rangeproof.eq_CommitmentBlindingFactor ea)
               (rangeproof.eq_CommitmentBlindingFactor eb)
  && same_list same_membershipProof (rangeproof.MembershipProofs a)
               (rangeproof.MembershipProofs b).

Lemma same_Zmod_eq (a b : Zmod q) : Zmod.eqb a b = true -> a = b.
Proof. intros H. apply Zmod.to_Z_inj, Z.eqb_eq, H. Qed.

Lemma same_membershipProof_eq (a b : rangeproof.MembershipProof) :
  same_membershipProof a b = true -> a = b.
Proof.
  destruct a as [ca sa], b as [cb sb]. unfold same_membershipProof. cbn.
  intros H. apply andb_prop in H as [Hc Hs].
  apply (same_list_eq _ same_Zmod_eq) in Hc.
  apply (same_list_eq _ (same_list_eq _ Byte.byte_dec_bl)) in Hs.
  congruence.
Qed.

Lemma same_proof_eq (a b : rangeproof.Proof) : same_proof a b = true -> a = b.
Proof.
  destruct a as [ca [ta va tba cba] ma], b as [cb [tb vb tbb cbb] mb].
  unfold same_proof. cbn. intros H.
  repeat (apply andb_prop in H as [H ?]).
  repeat match goal with
         | H : (_ =? _) = true |- _ => apply Z.eqb_eq in H
         | H : same_list Z.eqb _ _ = true |- _ =>
             apply (same_list_eq _ (fun x y => proj1 (Z.eqb_eq x y))) in H
         | H : same_list same_membershipProof _ _ = true |- _ =>
             apply (same_list_eq _ same_membershipProof_eq) in H
         end.
  congruence.
Qed.

Definition roundtrips (r : result rangeproof.Proof) : bool :=
  match r with
  | Ok proof =>
      match marshal proof with
      | Ok raw => match unmarshal raw with
                  | Some proof' => same_proof proof' proof
                  | None => false
                  end
      | _ => false
      end
  | _ => false
  end.

Lemma roundtrips_sound (r : result rangeproof.Proof) (proof : rangeproof.Proof) :
  roundtrips r = true -> r = Ok proof ->
  exists raw, marshal proof = Ok raw /\ unmarshal raw = Some proof.
Proof.
  intros H ->. unfold roundtrips in H.
  destruct (marshal proof) as [raw| |]; try discriminate H.
  exists raw. split; [reflexivity|].
  destruct (unmarshal raw) as [proof'|]; [|discriminate H].
  f_equal. apply same_proof_eq, H.
Qed.

(** A stand-in for the membership proof of a digit: the proof of a commitment
    is its encoding, and the verifier accepts that encoding only.  Its
    signatures are numbers and it draws nothing. *)
Definition echoProve (mw : rangeproof.MembershipWitness Z) (com P : Zmod q) (Q : Zmod q)
           (PK : list (Zmod q)) (pp : list (Zmod q)) (coins : unit) : result bytes :=
  Ok (encode [com]).

Definition bytes_eqb (a b : bytes) : bool :=
  bool_decide (Z_of_byte <$> a = Z_of_byte <$> b).

Definition echoVerify (com P : Zmod q) (Q : Zmod q) (PK : list (Zmod q))
           (pp : list (Zmod q)) (proof : bytes) : result unit :=
  if bytes_eqb proof (encode [com]) then Ok tt else Err "invalid membership proof".

Definition Prove : rangeproof.Prover Z -> rangeproof.Coins unit -> result bytes :=
  rangeproof.Prove Z unit echoProve marshal.

Definition Verify : rangeproof.Verifier -> bytes -> result unit :=
  rangeproof.Verify echoVerify unmarshal.

(** The token of a witness under the Pedersen parameters. *)
Definition NewToken (pp : list (Zmod q)) (w : rangeproof.TokenDataWitness) : result (Zmod q) :=
  common.ComputePedersenCommitment
    [HashModOrder (list_byte_of_string (rangeproof.Type_ w));
     rangeproof.Value w; rangeproof.BlindingFactor w] pp.

Lemma bytes_eqb_refl (a : bytes) : bytes_eqb a a = true.
Proof. unfold bytes_eqb. apply bool_decide_eq_true_2. reflexivity. Qed.

Lemma echo_complete (mw : rangeproof.MembershipWitness Z) (com P Q : Zmod q)
      (PK pp : list (Zmod q)) (coins : unit) :
  exists sp, echoProve mw com P Q PK pp coins = Ok sp
             /\ echoVerify com P Q PK pp sp = Ok tt.
Proof.
  eexists. split; [reflexivity|].
  unfold echoVerify. rewrite bytes_eqb_refl. reflexivity.
Qed.

Add Ring zmod_ring : (Zmod.ring_theory q).

Lemma zmod_laws : 0 < q -> CurveLaws (zmod_curve q).
Proof.
  intros Hq. split; cbn.
  - exact Hq.
  - intros a b. ring.
  - intros a b c. ring.
  - intros a. ring.
  - intros a b. ring.
  - intros g a b. rewrite Zmod.of_Z_add. ring.
  - intros g a b. rewrite Zmod.of_Z_mul. ring.
  - intros g a. rewrite Zmod.of_Z_mod. reflexivity.
  - intros g h a. ring.
Qed.

End Codec.

(** *** The range proof at the bound

    A curve whose order is the order of BN254, three signatures (base 3) and
    37 digits; the value of the token is 3^37. *)
Definition r : Z :=
  21888242871839275222246405745257275088548364400416034343698204186575808495617.

Definition boundWitness : rangeproof.TokenDataWitness :=
  {| rangeproof.Type_ := "ABC"; rangeproof.Value := 3 ^ 37;
     rangeproof.BlindingFactor := 9 |}.

Definition boundParams : list (Zmod r) := Zmod.of_Z r <$> [2; 3; 5].

Definition boundProver : rangeproof.Prover (C := zmod_curve r) Z :=
  rangeproof.NewProver (C := zmod_curve r) Z
    [boundWitness]
    (match NewToken r boundParams boundWitness with Ok t => [t] | _ => [] end)
    [0; 1; 2] 37 boundParams (Zmod.of_Z r <$> [6; 7; 8])
    (Zmod.of_Z r 1) (Zmod.of_Z r 1).

Definition demoCoins : rangeproof.Coins unit :=
  {| rangeproof.GetRand_witness := true;
     rangeproof.coin_bf := fun k i => Z.of_nat (k * 7 + i * 3 + 1);
     rangeproof.coin_membership := fun _ _ => tt;
     rangeproof.GetRand_commitment := true;
     rangeproof.coin_Type := 17;
     rangeproof.coin_Value := fun k => Z.of_nat k + 23;
     rangeproof.coin_CommitmentBlindingFactor := fun k => Z.of_nat k + 31;
     rangeproof.coin_TokenBlindingFactor := fun k => Z.of_nat k + 41 |}.

(** C6. The bound that the prover compares the value with is
    [int64(math.Pow(3, 37))], which is 3^37 + 13: the value 3^37 is not
    refused, and [Prove] returns proof bytes for it. *)
Theorem Prove_accepts_value_at_bound :
  rangeproof.Base (rangeproof.verifier Z boundProver)
    ^ rangeproof.Exponent (rangeproof.verifier Z boundProver)
  <= rangeproof.Value boundWitness
  /\ gomath.powInt 3 37 = 3 ^ 37 + 13
  /\ exists raw, Prove r boundProver demoCoins = Ok raw.
Proof.
  split; [vm_compute; discriminate|].
  split; [vm_compute; reflexivity|].
  eexists. vm_compute. reflexivity.
Qed.


(** *** The range proof on the toy curve

    Two signatures (base 2), three digits, and two tokens of values 5 and 6. *)
Definition demoParams : list (Zmod q) := [g 2; g 3; g 5].

Definition tokensOf (ws : list rangeproof.TokenDataWitness) : list (Zmod q) :=
  omap (fun w => match NewToken q demoParams w with Ok t => Some t | _ => None end) ws.

Definition proverOf (ws : list rangeproof.TokenDataWitness)
  : rangeproof.Prover (C := zmod_curve q) Z :=
  rangeproof.NewProver (C := zmod_curve q) Z ws (tokensOf ws) [0; 1] 3 demoParams
                       [g 6; g 7; g 8] (g 1) (g 1).

Definition five : rangeproof.TokenDataWitness :=
  {| rangeproof.Type_ := "ABC"; rangeproof.Value := 5; rangeproof.BlindingFactor := 9 |}.

Definition six : rangeproof.TokenDataWitness :=
  {| rangeproof.Type_ := "ABC"; rangeproof.Value := 6; rangeproof.BlindingFactor := 11 |}.

Definition sixOfOtherType : rangeproof.TokenDataWitness :=
  {| rangeproof.Type_ := "XYZ"; rangeproof.Value := 6; rangeproof.BlindingFactor := 11 |}.

Definition mixedProver : rangeproof.Prover (C := zmod_curve q) Z :=
  proverOf [five; sixOfOtherType].

(** C1, as stated, fails for tokens of two types: the values are in range,
    the tokens open to their witnesses and there is a signature for each of
    the digits 0 and 1; [Prove] returns a proof, which answers for the type of
    the first witness only, and [Verify] rejects it.  On an empty list of
    witnesses [Prove] panics at [p.tokenWitness[0]]. *)
Lemma Verify_rejects_mixed_types :
  Forall (fun w => 0 <= rangeproof.Value w
                   < rangeproof.Base (rangeproof.verifier Z mixedProver)
                     ^ rangeproof.Exponent (rangeproof.verifier Z mixedProver))
         (rangeproof.tokenWitness Z mixedProver)
  /\ Forall2 (rangeproof.opens
                (rangeproof.PedersenParams (rangeproof.verifier Z mixedProver)))
             (rangeproof.tokenWitness Z mixedProver)
             (rangeproof.Token (rangeproof.verifier Z mixedProver))
  /\ rangeproof.Base (rangeproof.verifier Z mixedProver)
     = Z.of_nat (length (rangeproof.Signatures Z mixedProver))
  /\ (exists raw, Prove q mixedProver demoCoins = Ok raw
                  /\ Verify q (rangeproof.verifier Z mixedProver) raw
                     = Err "failed to verify range proof")
  /\ Prove q (proverOf []) demoCoins = Panic "index out of range".
Proof.
  split; [repeat (constructor; [cbn; lia|]); constructor|].
  split; [repeat (constructor; [vm_compute; reflexivity|]); constructor|].
  split; [reflexivity|].
  split; [|vm_compute; reflexivity].
  eexists. split; [vm_compute; reflexivity|].
  vm_compute. reflexivity.
Qed.

(** C1, amended, on the toy curve: the two tokens of type ABC. *)
Lemma Prove_Verify_complete_witness :
  exists raw, Prove q (proverOf [five; six]) demoCoins = Ok raw
              /\ Verify q (rangeproof.verifier Z (proverOf [five; six])) raw = Ok tt.
Proof.
  apply (rangeproof.Prove_Verify_complete (C := zmod_curve q) Z unit
           (echoProve q) (echoVerify q) (marshal q) (unmarshal q)
           (zmod_laws q eq_refl) (proverOf [five; six]) demoCoins five).
  - reflexivity.
  - cbn. lia.
  - reflexivity.
  - intros i Hi. cbn in Hi.
    assert (i = 0 \/ i = 1 \/ i = 2 \/ i = 3) as [->|[->|[->| ->]]] by lia;
      vm_compute; reflexivity.
  - reflexivity.
  - intros w Hw. cbn in Hw.
    apply elem_of_cons in Hw as [->|Hw];
      [|apply list_elem_of_singleton in Hw as ->];
      (split; [reflexivity|cbn; lia]).
  - repeat (constructor; [vm_compute; reflexivity|]); constructor.
  - intros sig d bf c cns _ _ _. apply echo_complete.
  - reflexivity.
  - reflexivity.
  - intros proof. apply roundtrips_sound. vm_compute. reflexivity.
Defined.

(** *** Refusals and requirements of the range proof, on the toy curve *)

Definition eight : rangeproof.TokenDataWitness :=
  {| rangeproof.Type_ := "ABC"; rangeproof.Value := 8; rangeproof.BlindingFactor := 3 |}.

Lemma Prove_refuses_beyond_bound_witness :
  is_Ok (Prove q (proverOf [five; eight]) demoCoins) = false.
Proof.
  apply (rangeproof.Prove_refuses_beyond_bound (C := zmod_curve q) Z unit
           (echoProve q) (marshal q) (proverOf [five; eight]) demoCoins eight).
  - apply elem_of_cons. right. apply elem_of_cons. left. reflexivity.
  - vm_compute. discriminate.
Defined.

Lemma Prove_panics_on_no_witness_witness :
  Prove q (proverOf []) demoCoins = Panic "index out of range".
Proof.
  apply (rangeproof.Prove_panics_on_no_witness (C := zmod_curve q) Z unit
           (echoProve q) (marshal q) (proverOf []) demoCoins); reflexivity.
Defined.

(** The bytes that [Prove] returns for the tokens of values 5 and 6. *)
Definition demoRaw : bytes :=
  match Prove q (proverOf [five; six]) demoCoins with
  | Ok raw => raw
  | _ => []
  end.

Lemma Verify_accepts_only_witness :
  exists proof,
    unmarshal q demoRaw = Some proof
    /\ length (rangeproof.MembershipProofs proof) = 2%nat.
Proof.
  destruct (rangeproof.Verify_accepts_only (C := zmod_curve q)
              (echoVerify q) (unmarshal q)
              (rangeproof.verifier Z (proverOf [five; six])) demoRaw)
    as (proof & Hu & Hl & _).
  - vm_compute. reflexivity.
  - exists proof. split; [exact Hu|exact Hl].
Defined.

End toy.
